(** * Hemingway search engine: corpus store, tokenizer, sentence contexts

    A shallow embedding of [Backend/search-engine-flask/index.py].

    Text is a sequence of code points.  A Rocq [ascii] stands for the
    Python character with the same code point (0..255); the character
    classes below are Python's [str] classes on that range, and text with
    code points beyond it is outside the model.  This matters for the
    case-insensitive search: on this range [re.IGNORECASE] matches two
    characters exactly when [str.lower] makes them equal, and lowering
    keeps the length of a string; beyond it neither holds (the pattern
    [s] also matches the long s, and lowering a dotted capital I gives two
    characters).  Everything proved below about searches is a statement
    about text on this range.  Words, file contents and messages are
    [string]s; the scanners work on the underlying [list ascii].

    The configuration module, the similarity lookup and Python's compiler
    for arbitrary patterns are not part of the embedding: the first is a
    record of constants, the other two are parameters of the handlers.
    The patterns written in the program, and a searched word without
    special characters, are matched by the backtracking matcher [Re]. *)

From Stdlib Require Import Ascii String ZArith Lia.
From stdpp Require Import base tactics option list strings pretty gmap.

Abbreviation text := (list ascii).

Definition chars (s : string) : text := String.list_ascii_of_string s.
Definition str (l : text) : string := String.string_of_list_ascii l.

(** ** Character classes of Python's [str] *)

Module Char.

Definition code (c : ascii) : N := N_of_ascii c.

Definition between (lo hi : N) (c : ascii) : bool :=
  ((lo <=? code c) && (code c <=? hi))%N.

(** [\w]: alphanumeric characters and the underscore. *)
Definition is_word (c : ascii) : bool :=
  between 48 57 c || between 65 90 c || between 95 95 c || between 97 122 c
  || between 170 170 c || between 178 179 c || between 181 181 c
  || between 185 186 c || between 188 190 c || between 192 214 c
  || between 216 246 c || between 248 255 c.

(** [\s], and the characters removed by [str.strip()]. *)
Definition is_space (c : ascii) : bool :=
  between 9 13 c || between 28 32 c || between 133 133 c || between 160 160 c.

(** [str.lower()] on one character. *)
Definition lower (c : ascii) : ascii :=
  if between 65 90 c || between 192 214 c || between 216 222 c
  then ascii_of_N (code c + 32)
  else c.

(** The class [[.!?]] of the sentence splitter. *)
Definition is_terminal (c : ascii) : bool :=
  match c with
  | "."%char | "!"%char | "?"%char => true
  | _ => false
  end.

(** The class [[\.,!?;]] of the tokenizer. *)
Definition is_token_punct (c : ascii) : bool :=
  match c with
  | "."%char | ","%char | "!"%char | "?"%char | ";"%char => true
  | _ => false
  end.

(** Characters that start a construct in a pattern: the ones a word must
    avoid for [rf'\b{input_word}\b'] to be the word itself between two
    boundaries. *)
Definition is_special (c : ascii) : bool :=
  match c with
  | "."%char | "^"%char | "$"%char | "*"%char | "+"%char | "?"%char
  | "{"%char | "}"%char | "["%char | "]"%char | "\"%char | "|"%char
  | "("%char | ")"%char => true
  | _ => false
  end.

End Char.

(** ** The fragment of Python's [re] the program uses *)

Module Re.

Inductive regex : Type :=
| Eps
| Lit (c : ascii)                  (* one literal character *)
| Class (p : ascii -> bool)        (* [\w], [\s], [[...]] *)
| Plus (p : ascii -> bool)         (* greedy [+] over a class *)
| Boundary                         (* [\b] *)
| LookBehind (p : ascii -> bool)   (* [(?<=[...])] *)
| Seq (r1 r2 : regex)
| Alt (r1 r2 : regex).

(** A position in the subject: the character before it (if any) and the
    text from it on. *)
Definition wordish (o : option ascii) : bool :=
  match o with Some c => Char.is_word c | None => false end.

Definition at_boundary (prev : option ascii) (rest : text) : bool :=
  xorb (wordish prev) (wordish (head rest)).

(** With [re.IGNORECASE] a literal matches a character with the same
    lowercase form (so it is for code points 0..255, the characters of
    this model). *)
Definition lit_matches (icase : bool) (c t : ascii) : bool :=
  if icase then bool_decide (Char.lower t = Char.lower c)
  else bool_decide (t = c).

Definition cont := option ascii -> text -> option text.

(** Greedy repetition: take one more character when possible and come
    back to the shorter match only if the rest of the pattern fails. *)
Fixpoint plus_loop (p : ascii -> bool) (prev : option ascii) (rest : text)
    (k : cont) : option text :=
  match rest with
  | c :: rest' =>
      if p c then
        match plus_loop p (Some c) rest' k with
        | Some r => Some r
        | None => k (Some c) rest'
        end
      else None
  | [] => None
  end.

(** Backtracking matcher.  [rmatch icase r prev rest k] matches [r] at
    the position [(prev, rest)] and hands the position after the match
    to [k]; the answer is the text left after the whole match. *)
Fixpoint rmatch (icase : bool) (r : regex) (prev : option ascii)
    (rest : text) (k : cont) : option text :=
  match r with
  | Eps => k prev rest
  | Lit c =>
      match rest with
      | t :: rest' => if lit_matches icase c t then k (Some t) rest' else None
      | [] => None
      end
  | Class p =>
      match rest with
      | t :: rest' => if p t then k (Some t) rest' else None
      | [] => None
      end
  | Plus p => plus_loop p prev rest k
  | Boundary => if at_boundary prev rest then k prev rest else None
  | LookBehind p =>
      match prev with
      | Some c => if p c then k prev rest else None
      | None => None
      end
  | Seq r1 r2 =>
      rmatch icase r1 prev rest (fun prev' rest' => rmatch icase r2 prev' rest' k)
  | Alt r1 r2 =>
      match rmatch icase r1 prev rest k with
      | Some r => Some r
      | None => rmatch icase r2 prev rest k
      end
  end.

(** A match at a position: the number of characters it spans. *)
Definition match_at (icase : bool) (r : regex) (prev : option ascii)
    (rest : text) : option nat :=
  match rmatch icase r prev rest (fun _ rest' => Some rest') with
  | Some rest' => Some (length rest - length rest')
  | None => None
  end.

(** [re.search]: is there a match at some position? *)
Fixpoint search_go (icase : bool) (r : regex) (prev : option ascii)
    (rest : text) : bool :=
  match match_at icase r prev rest with
  | Some _ => true
  | None =>
      match rest with
      | c :: rest' => search_go icase r (Some c) rest'
      | [] => false
      end
  end.

Definition search (icase : bool) (r : regex) (s : text) : bool :=
  search_go icase r None s.

(** [re.findall] for a pattern without groups: the matches from left to
    right, the scan resuming where a match ended.  [skip] counts the
    characters of the current match still to step over.  The patterns of
    this program never match the empty string; a position with an empty
    match is passed over like one with no match. *)
Fixpoint findall_go (r : regex) (skip : nat) (prev : option ascii)
    (rest : text) : list text :=
  match skip, rest with
  | S n, c :: rest' => findall_go r n (Some c) rest'
  | S _, [] => []
  | 0, _ =>
      match match_at false r prev rest, rest with
      | Some (S n), c :: rest' =>
          take (S n) rest :: findall_go r n (Some c) rest'
      | _, c :: rest' => findall_go r 0 (Some c) rest'
      | _, [] => []
      end
  end.

Definition findall (r : regex) (s : text) : list text :=
  findall_go r 0 None s.

(** [re.split] for a pattern without groups: the pieces between the
    matches, in order; [cur] is the piece being read, reversed. *)
Fixpoint split_go (r : regex) (skip : nat) (cur : text)
    (prev : option ascii) (rest : text) : list text :=
  match skip, rest with
  | S n, c :: rest' => split_go r n cur (Some c) rest'
  | S _, [] => [rev cur]
  | 0, _ =>
      match match_at false r prev rest, rest with
      | Some (S n), c :: rest' =>
          rev cur :: split_go r n [] (Some c) rest'
      | _, c :: rest' => split_go r 0 (c :: cur) (Some c) rest'
      | _, [] => [rev cur]
      end
  end.

Definition split (r : regex) (s : text) : list text :=
  split_go r 0 [] None s.

(** A word without special characters, read as a pattern, is the
    sequence of its characters. *)
Definition literal (w : text) : regex :=
  foldr (fun c r => Seq (Lit c) r) Eps w.

End Re.

(** The three patterns of [index.py]. *)

(** [r'\b\w+\b|[\.,!?;]'] *)
Definition TOKEN_PATTERN : Re.regex :=
  Re.Alt (Re.Seq Re.Boundary (Re.Seq (Re.Plus Char.is_word) Re.Boundary))
         (Re.Class Char.is_token_punct).

(** [r'(?<=[.!?])\s+'] *)
Definition SENTENCE_PATTERN : Re.regex :=
  Re.Seq (Re.LookBehind Char.is_terminal) (Re.Plus Char.is_space).

(** [rf'\b{input_word}\b'], for a word without special characters. *)
Definition word_pattern (input_word : text) : Re.regex :=
  Re.Seq Re.Boundary (Re.Seq (Re.literal input_word) Re.Boundary).

(** [re.findall(r'\b\w+\b|[\.,!?;]', corpus_text)] *)
Definition tokenize (corpus_text : string) : list string :=
  str <$> Re.findall TOKEN_PATTERN (chars corpus_text).

(** [re.split(r'(?<=[.!?])\s+', hemingway)] *)
Definition split_sentences (hemingway : string) : list string :=
  str <$> Re.split SENTENCE_PATTERN (chars hemingway).

(** ** Python's string operations *)

Module Py.

(** [s.lower()], character by character as it goes on code points
    0..255. *)
Definition lower (s : string) : string := str (Char.lower <$> chars s).

Fixpoint drop_while (p : ascii -> bool) (l : text) : text :=
  match l with
  | c :: l' => if p c then drop_while p l' else l
  | [] => []
  end.

(** [s.strip()]: whitespace removed at both ends. *)
Definition strip_chars (l : text) : text :=
  rev (drop_while Char.is_space (rev (drop_while Char.is_space l))).

Definition strip (s : string) : string := str (strip_chars (chars s)).

(** [s.replace(old, new)] for one-character [old] and [new]. *)
Definition replace_char (old new : ascii) (l : text) : text :=
  (fun c => if bool_decide (c = old) then new else c) <$> l.

Fixpoint starts_with (needle hay : text) : bool :=
  match needle, hay with
  | [], _ => true
  | a :: needle', b :: hay' => bool_decide (a = b) && starts_with needle' hay'
  | _ :: _, [] => false
  end.

(** [hay.index(needle)]: the lowest offset of an occurrence; [None]
    stands for the [ValueError] raised when there is none. *)
Fixpoint index (needle hay : text) : option nat :=
  if starts_with needle hay then Some 0
  else match hay with
       | _ :: hay' => S <$> index needle hay'
       | [] => None
       end.

(** [s[start:stop]] with integer bounds: a negative bound counts from
    the end, and both are clamped to the string. *)
Definition slice_bound (len i : Z) : Z :=
  if (i <? 0)%Z then Z.max (i + len) 0 else Z.min i len.

Definition slice (s : text) (start stop : Z) : text :=
  let len := Z.of_nat (length s) in
  let lo := slice_bound len start in
  let hi := slice_bound len stop in
  take (Z.to_nat (hi - lo)) (drop (Z.to_nat lo) s).

(** [s.split(sep)] for a one-character separator; [cur] is the field
    being read, reversed. *)
Fixpoint split_go (sep : ascii) (cur : text) (l : text) : list text :=
  match l with
  | c :: l' =>
      if bool_decide (c = sep) then rev cur :: split_go sep [] l'
      else split_go sep (c :: cur) l'
  | [] => [rev cur]
  end.

Definition split (sep : ascii) (s : string) : list string :=
  str <$> split_go sep [] (chars s).

(** [sep.join(l)] *)
Definition join (sep : string) (l : list string) : string := String.concat sep l.

(** What [file.read()] gives for a file opened in text mode with the
    default [newline=None]: the line ends [\r\n] and [\r] of the file come
    out as [\n].  (Text written in text mode goes to the file as it is, as
    on every system whose line separator is [\n].) *)
Fixpoint universal_newlines (l : text) : text :=
  match l with
  | c :: l' =>
      if bool_decide (c = "013"%char) then
        "010"%char
        :: match l' with
           | d :: l'' =>
               if bool_decide (d = "010"%char) then universal_newlines l''
               else universal_newlines l'
           | [] => universal_newlines l'
           end
      else c :: universal_newlines l'
  | [] => []
  end.

Definition text_mode (contents : string) : string :=
  str (universal_newlines (chars contents)).

(** [l.remove(x)]: the first item equal to [x] goes; [None] stands for
    the [ValueError] raised when there is none. *)
Fixpoint list_remove (x : string) (l : list string) : option (list string) :=
  match l with
  | y :: l' =>
      if bool_decide (y = x) then Some l'
      else (fun r => y :: r) <$> list_remove x l'
  | [] => None
  end.

(** Values a request can carry: a query parameter is a string or
    absent; a JSON field is a string, [null] (read as [None]) or another
    JSON value, of which the program only tests the truth value. *)
Inductive value : Type :=
| VNone
| VStr (s : string)
| VOther (truth : bool).

(** Truth value of [v] in a condition. *)
Definition truthy (v : value) : bool :=
  match v with
  | VNone => false
  | VStr s => negb (bool_decide (s = ""))
  | VOther b => b
  end.

(** [isinstance(v, str)] *)
Definition is_str (v : value) : bool :=
  match v with VStr _ => true | _ => false end.

Inductive exn : Type :=
| FileNotFoundError
| OSError            (* any other I/O error *)
| ValueError
| TypeError
| AttributeError
| KeyError
| ReError            (* [re.error]: the pattern does not compile *)
| BadRequest.        (* the request body is not JSON *)

Definition is_IOError (e : exn) : bool :=
  match e with FileNotFoundError | OSError => true | _ => false end.

End Py.

Export Py (value(..), exn(..)).

(** ** Configuration, requests, responses *)

Record error_info : Type := { message : string; status_code : Z }.

(** The constants the program imports from its configuration module. *)
Record config : Type := {
  CORPUS_FILE_PATH : string;
  CONTEXT_SIZE : Z;
  ERROR_MESSAGES : gmap string error_info }.

(** A JSON request body: an object, or any other JSON document. *)
Inductive json_data : Type :=
| JObject (fields : gmap string value)
| JOther.

(** [args]: the query string; [json]: the decoded body, [None] when
    [request.get_json()] raises. *)
Record request : Type := {
  args : list (string * string);
  json : option json_data }.

(** What [jsonify] is given. *)
Inductive body : Type :=
| JsonError (error : string)
| JsonMessage (message : string)
| JsonSimilar (query_word : string) (similar_words : list string)
| JsonMatching (matching_sentences : list string)  (* a list of [{"context": c}] *)
| JsonCorpus (corpus : list string).

Definition response : Type := body * Z.

(** ** The process state and the disk *)

(** Calls that leave the process, oldest first. *)
Inductive event : Type :=
| EvRead (file_path : string)
| EvWrite (file_path : string) (data : string)
| EvSimilar (query_word : string).

(** [word_list] is the module-level corpus.  The only file the handlers
    open is the corpus file: [file_text] is its contents, and [read_fault],
    [write_fault] say what opening it for reading or writing raises
    ([None]: the file opens, and the read or the write goes through).  A
    write that breaks off after the file has been opened, and so emptied,
    is in the model only where the program causes it itself, by writing
    [None]; a disk that fails at that point is not. *)
Record world : Type := {
  word_list : list string;
  file_text : string;
  read_fault : option exn;
  write_fault : option exn;
  trace : list event }.

Definition set_word_list (l : list string) (w : world) : world :=
  {| word_list := l; file_text := file_text w; read_fault := read_fault w;
     write_fault := write_fault w; trace := trace w |}.

Definition set_file_text (t : string) (w : world) : world :=
  {| word_list := word_list w; file_text := t; read_fault := read_fault w;
     write_fault := write_fault w; trace := trace w |}.

Definition log (e : event) (w : world) : world :=
  {| word_list := word_list w; file_text := file_text w; read_fault := read_fault w;
     write_fault := write_fault w; trace := trace w ++ [e] |}.

(** State and exceptions. *)
Definition M (A : Type) : Type := world -> (exn + A) * world.

Definition ret {A} (a : A) : M A := fun w => (inr a, w).

Definition raise {A} (e : exn) : M A := fun w => (inl e, w).

Definition bind {A B} (m : M A) (k : A -> M B) : M B :=
  fun w => match m w with
           | (inr a, w') => k a w'
           | (inl e, w') => (inl e, w')
           end.

Definition try_except {A} (m : M A) (handler : exn -> M A) : M A :=
  fun w => match m w with
           | (inl e, w') => handler e w'
           | (inr a, w') => (inr a, w')
           end.

Definition lift {A} (r : exn + A) : M A := fun w => (r, w).

Notation "x <- m ;; k" := (bind m (fun x => k))
  (at level 100, m at next level, right associativity).
Notation "m ;; k" := (bind m (fun _ => k))
  (at level 100, right associativity).

Definition get_word_list : M (list string) := fun w => (inr (word_list w), w).

Definition put_word_list (l : list string) : M unit :=
  fun w => (inr tt, set_word_list l w).

(** [open(file_path, 'r').read()] *)
Definition open_read (file_path : string) : M string :=
  fun w => match read_fault w with
           | Some e => (inl e, log (EvRead file_path) w)
           | None => (inr (Py.text_mode (file_text w)), log (EvRead file_path) w)
           end.

(** [open(file_path, 'w').write(data)]; [write_fault] is raised by [open],
    before the file is touched. *)
Definition open_write (file_path data : string) : M unit :=
  fun w => match write_fault w with
           | Some e => (inl e, log (EvWrite file_path data) w)
           | None => (inr tt, set_file_text data (log (EvWrite file_path data) w))
           end.

(** [request.args.get(key)] *)
Definition args_get (r : request) (key : string) : value :=
  match list_find (fun kv => kv.1 = key) (args r) with
  | Some (_, (_, v)) => VStr v
  | None => VNone
  end.

(** [request.get_json()] *)
Definition get_json (r : request) : M json_data :=
  match json r with
  | Some data => ret data
  | None => raise BadRequest
  end.

(** [data.get(key)] *)
Definition data_get (data : json_data) (key : string) : M value :=
  match data with
  | JObject fields => ret (default VNone (fields !! key))
  | JOther => raise AttributeError
  end.

(** A value used as a string. *)
Definition as_str (v : value) : M string :=
  match v with
  | VStr s => ret s
  | _ => raise TypeError
  end.

(** ** The corpus store *)

(** [data] is [None] when the caller leaves it out; writing [None] fails
    with a [TypeError] after the file has been opened, and so emptied. *)
Definition file_operation (file_path operation : string) (data : option string)
    : M (option string) :=
  try_except
    (if bool_decide (operation = "read") then
       contents <- open_read file_path;; ret (Some contents)
     else if bool_decide (operation = "write") then
       match data with
       | Some data => open_write file_path data;; ret (Some "write successful")
       | None => open_write file_path "";; raise TypeError
       end
     else ret None)
    (fun exc =>
       match exc with
       | FileNotFoundError => raise FileNotFoundError
       | _ => ret (Some "exception occurred")
       end).

Definition load_corpus (file_path : string) : M (list string) :=
  try_except
    (corpus_text <- file_operation file_path "read" None;;
     match corpus_text with
     | Some corpus_text => ret (tokenize corpus_text)
     | None => raise TypeError
     end)
    (fun exc => raise exc).

(** The list handed in is the list handed back: the answer of
    [file_operation] is not looked at. *)
Definition save_corpus (file_path : string) (new_word_list : list string)
    : M (option (list string)) :=
  try_except
    (file_operation file_path "write" (Some (Py.join " " new_word_list));;
     ret (Some new_word_list))
    (fun exc => raise exc).

(** [def validate_input_string(input_value, field_name)] *)
Definition validate_input_string (input_value : value) (field_name : string)
    : option string :=
  if negb (Py.truthy input_value)
     || negb (Py.is_str input_value)
     || negb (Py.truthy (match input_value with
                         | VStr s => VStr (Py.strip s)
                         | v => v
                         end))
  then Some ("Invalid or missing " +:+ field_name)
  else None.

(** ** Sentence contexts and the request handlers *)

Section Handlers.

Variable cfg : config.

(** [re.search(pattern, sentence, re.IGNORECASE)] for a pattern outside
    the fragment of [Re]: Python's own answer, or the error it raises. *)
Variable python_re_search : string -> string -> exn + bool.

(** The similarity lookup of the program's word-vector module and the
    vocabulary it is given. *)
Variable custom_vocab : gset string.
Variable find_most_similar_words :
  string -> gset string -> list string -> exn + list string.

(** A word none of whose characters is special in a pattern. *)
Definition plain (input_word : string) : bool :=
  forallb (fun c => negb (Char.is_special c)) (chars input_word).

(** [re.search(rf'\b{input_word}\b', sentence, re.IGNORECASE)] *)
Definition re_search_word (input_word sentence : string) : exn + bool :=
  if plain input_word then
    inr (Re.search true (word_pattern (chars input_word)) (chars sentence))
  else python_re_search ("\b" +:+ input_word +:+ "\b") sentence.

(** The window around an offset of the sentence. *)
Definition context_at (input_word sentence : string) (match_index : nat)
    : string :=
  let context_start := Z.max (Z.of_nat match_index - CONTEXT_SIZE cfg) 0 in
  let context_end :=
    Z.min (Z.of_nat match_index + Z.of_nat (String.length input_word)
           + CONTEXT_SIZE cfg)
          (Z.of_nat (String.length sentence)) in
  let context := Py.slice (chars sentence) context_start context_end in
  str (Py.strip_chars (Py.replace_char "010"%char " "%char context)).

(** One turn of the loop over the sentences. *)
Definition sentence_step (input_word : string)
    (matching_sentences : list string) (sentence : string)
    : exn + list string :=
  match re_search_word input_word sentence with
  | inl exc => inl exc
  | inr false => inr matching_sentences
  | inr true =>
      match Py.index (chars (Py.lower input_word)) (chars (Py.lower sentence)) with
      | None => inl ValueError
      | Some match_index =>
          inr (matching_sentences ++ [context_at input_word sentence match_index])
      end
  end.

Fixpoint sentences_loop (input_word : string)
    (matching_sentences : list string) (sentences : list string)
    : exn + list string :=
  match sentences with
  | [] => inr matching_sentences
  | sentence :: sentences' =>
      match sentence_step input_word matching_sentences sentence with
      | inl exc => inl exc
      | inr matching_sentences' =>
          sentences_loop input_word matching_sentences' sentences'
      end
  end.

Definition find_matching_sentences_for_word (input_word : value)
    : M (list string) :=
  try_except
    (match validate_input_string input_word "input word" with
     | Some validation_error => raise ValueError
     | None =>
         input_word <- as_str input_word;;
         hemingway <- open_read (CORPUS_FILE_PATH cfg);;
         lift (sentences_loop input_word [] (split_sentences hemingway))
     end)
    (fun exc => ret []).

Definition handle_error (error_type : string) : M response :=
  match ERROR_MESSAGES cfg !! "internal_error" with
  | None => raise KeyError
  | Some fallback =>
      let error_info := default fallback (ERROR_MESSAGES cfg !! error_type) in
      ret (JsonError (message error_info), status_code error_info)
  end.

Definition get_similar_words (r : request) : M response :=
  try_except
    (let query_word := args_get r "w" in
     match validate_input_string query_word "query_word" with
     | Some error => handle_error "invalid_input"
     | None =>
         query_word <- as_str query_word;;
         words <- get_word_list;;
         similar_words <-
           (fun w => (find_most_similar_words query_word custom_vocab words,
                      log (EvSimilar query_word) w));;
         ret (JsonSimilar query_word similar_words, 200%Z)
     end)
    (fun exc => handle_error "internal_error").

Fixpoint extend_loop (similar_words : list string)
    (matching_sentences : list string) : M (list string) :=
  match similar_words with
  | [] => ret matching_sentences
  | word :: similar_words' =>
      found <- find_matching_sentences_for_word (VStr word);;
      extend_loop similar_words' (matching_sentences ++ found)
  end.

Definition find_similar_sentences (r : request) : M response :=
  try_except
    (match args_get r "similar_words" with
     | VStr similar_words =>
         let similar_words := take 3 (Py.split ","%char similar_words) in
         matching_sentences <- extend_loop similar_words [];;
         ret (JsonMatching matching_sentences, 200%Z)
     | _ => raise AttributeError
     end)
    (fun exc => handle_error "internal_error").

Definition find_matching_sentences (r : request) : M response :=
  let input_word := args_get r "input" in
  try_except
    (matching_sentences <- find_matching_sentences_for_word input_word;;
     ret (JsonMatching matching_sentences, 200%Z))
    (fun exc => handle_error "internal_error").

Definition add_word (r : request) : M response :=
  try_except
    (data <- get_json r;;
     new_word <- data_get data "word";;
     match new_word with
     | VNone => handle_error "invalid_input"
     | _ =>
         match validate_input_string new_word "new word" with
         | Some validation_error => handle_error "invalid_input"
         | None =>
             new_word <- as_str new_word;;
             words <- get_word_list;;
             put_word_list (words ++ [new_word]);;
             words <- get_word_list;;
             saved_word_list <- save_corpus (CORPUS_FILE_PATH cfg) words;;
             match saved_word_list with
             | None => handle_error "internal_error"
             | Some _ =>
                 ret (JsonMessage ("Word '" +:+ new_word +:+ "' added to the corpus"),
                      201%Z)
             end
         end
     end)
    (fun exc =>
       if Py.is_IOError exc then handle_error "internal_error"
       else handle_error "internal_error").

(** [while target_word in word_list: word_list.remove(target_word)],
    at most [fuel] turns; [None] when the turns run out. *)
Fixpoint remove_loop (fuel : nat) (target_word : string)
    (words : list string) (removed_count : nat)
    : option (exn + list string * nat) :=
  if bool_decide (target_word ∈ words) then
    match fuel with
    | 0 => None
    | S fuel' =>
        match Py.list_remove target_word words with
        | Some words' => remove_loop fuel' target_word words' (S removed_count)
        | None => Some (inl ValueError)
        end
    end
  else Some (inr (words, removed_count)).

Definition remove_similar_word (r : request) : M response :=
  try_except
    (let target_word := args_get r "word" in
     match validate_input_string target_word "target word" with
     | Some validation_error => handle_error "invalid_input"
     | None =>
         target_word <- as_str target_word;;
         words <- get_word_list;;
         removed <-
           lift (default (inl ValueError)
                   (remove_loop (length words) target_word words 0));;
         let '(words', removed_count) := removed in
         put_word_list words';;
         if bool_decide (0 < removed_count) then
           words <- get_word_list;;
           saved_word_list <- save_corpus (CORPUS_FILE_PATH cfg) words;;
           match saved_word_list with
           | None => handle_error "internal_error"
           | Some _ =>
               ret (JsonMessage
                      ("Removed " +:+ pretty removed_count
                       +:+ " occurrences of word '" +:+ target_word
                       +:+ "' from the corpus"), 200%Z)
           end
         else
           ret (JsonError ("No occurrences of word '" +:+ target_word
                           +:+ "' found in the corpus"), 404%Z)
     end)
    (fun exc => handle_error "internal_error").

(** One turn of [for index, word in enumerate(word_list)]. *)
Definition replace_step (old_word new_word : string)
    (st : list string * nat) (index : nat) : list string * nat :=
  let '(words, replaced_count) := st in
  match words !! index with
  | Some word =>
      if bool_decide (Py.lower word = Py.lower old_word)
      then (<[index := new_word]> words, S replaced_count)
      else (words, replaced_count)
  | None => (words, replaced_count)
  end.

Definition replace_loop (old_word new_word : string) (words : list string)
    : list string * nat :=
  foldl (replace_step old_word new_word) (words, 0) (seq 0 (length words)).

Definition replace_word (r : request) : M response :=
  try_except
    (data <- get_json r;;
     old_word <- data_get data "old_word";;
     new_word <- data_get data "new_word";;
     let validation_error_old := validate_input_string old_word "old word" in
     let validation_error_new := validate_input_string new_word "new word" in
     match validation_error_old, validation_error_new with
     | Some _, _ => handle_error "invalid_input"
     | None, Some _ => handle_error "invalid_input"
     | None, None =>
         old_word <- as_str old_word;;
         new_word <- as_str new_word;;
         words <- get_word_list;;
         let '(words', replaced_count) := replace_loop old_word new_word words in
         put_word_list words';;
         words <- get_word_list;;
         save_corpus (CORPUS_FILE_PATH cfg) words;;
         if bool_decide (0 < replaced_count) then
           ret (JsonMessage
                  ("Replaced " +:+ pretty replaced_count
                   +:+ "                             occurrences of '"
                   +:+ old_word +:+ "' with '" +:+ new_word
                   +:+ "' in the corpus"), 200%Z)
         else handle_error "not_found_in_corpus"
     end)
    (fun exc => handle_error "internal_error").

Definition get_corpus (r : request) : M response :=
  try_except
    (words <- get_word_list;;
     ret (JsonCorpus words, 200%Z))
    (fun exc => handle_error "internal_error").

(** The statement of module start-up that sets the corpus:
    [word_list = load_corpus(CORPUS_FILE_PATH)].  (Start-up goes on to
    load the vocabulary from a pickle file, which is not part of this
    definition: [startup] says what the corpus in memory becomes, not
    whether the module comes up.) *)
Definition startup : M unit :=
  words <- load_corpus (CORPUS_FILE_PATH cfg);;
  put_word_list words.

End Handlers.

(** ** Reference descriptions *)

(** The five punctuation marks that are tokens of their own. *)
Definition punctuation_marks : text :=
  ["."%char; ","%char; "!"%char; "?"%char; ";"%char].

Definition is_mark (c : ascii) : bool := bool_decide (c ∈ punctuation_marks).

(** The tokens as the tokenizer rule words them: the maximal runs of word
    characters and the single punctuation marks, in order, nothing else.
    [run] is the run being read, reversed. *)
Definition flush (run : text) : list text :=
  match run with
  | [] => []
  | _ => [rev run]
  end.

Fixpoint runs_go (run : text) (s : text) : list text :=
  match s with
  | [] => flush run
  | c :: s' =>
      if Char.is_word c then runs_go (c :: run) s'
      else flush run
           ++ (if is_mark c then [[c]] else [])
           ++ runs_go [] s'
  end.

Definition tokenize_spec (corpus_text : string) : list string :=
  str <$> runs_go [] (chars corpus_text).

(** A token is a non-empty run of word characters or one punctuation mark. *)
Definition token_shape (t : text) : Prop :=
  (t ≠ [] ∧ Forall (fun c => Char.is_word c = true) t)
  ∨ (∃ c, t = [c] ∧ c ∈ punctuation_marks).

(** The characters that end up in a token. *)
Definition kept (c : ascii) : bool := Char.is_word c || is_mark c.


(** The sentences as the segmentation rule words them.  A split point is
    a terminal mark immediately followed by whitespace. *)
Definition adjacent_split (o1 o2 : option ascii) : bool :=
  match o1, o2 with
  | Some c, Some d => Char.is_terminal c && Char.is_space d
  | _, _ => false
  end.

Fixpoint has_split_point (s : text) : bool :=
  match s with
  | c :: s' => adjacent_split (Some c) (head s') || has_split_point s'
  | [] => false
  end.

Definition ends_with_terminal (s : text) : Prop :=
  ∃ c, last s = Some c ∧ Char.is_terminal c = true.

Definition starts_with_space (s : text) : bool :=
  match s with
  | c :: _ => Char.is_space c
  | [] => false
  end.

(** [segmented s segs]: [segs] are the pieces of [s] between its split
    points, in order; each separator is the whole run of whitespace after
    the mark and belongs to no piece. *)
Inductive segmented : text -> list text -> Prop :=
| segmented_last (s : text) :
    has_split_point s = false -> segmented s [s]
| segmented_cons (s1 ws rest : text) (segs : list text) :
    has_split_point s1 = false ->
    ends_with_terminal s1 ->
    ws ≠ [] ->
    Forall (fun c => Char.is_space c = true) ws ->
    starts_with_space rest = false ->
    segmented rest segs ->
    segmented (s1 ++ ws ++ rest) (s1 :: segs).

(** How the splitter's state sees the lookbehind: after a character of the
    current piece the previous character is that one; at the start of a
    piece it is no terminal mark. *)
Definition prev_ok (cur : text) (prev : option ascii) : Prop :=
  match cur with
  | c :: _ => prev = Some c
  | [] => match prev with Some p => Char.is_terminal p = false | None => True end
  end.

(** The context window as the extraction rule words it. *)

(** [needle] occurs in [hay] at offset [i]. *)
Definition occurs_at (needle hay : text) (i : nat) : Prop :=
  i <= length hay ∧ needle `prefix_of` drop i hay.

Definition first_occurrence (needle hay : text) (i : nat) : Prop :=
  occurs_at needle hay i ∧ ∀ j, j < i -> ¬ occurs_at needle hay j.

(** A case-insensitive whole-word match of [w] in [s]: some stretch of [s]
    reads as [w] up to case and has a word boundary at each end. *)
Definition whole_word_match (w s : text) : Prop :=
  ∃ pre mid post,
    s = pre ++ mid ++ post
    ∧ Char.lower <$> mid = Char.lower <$> w
    ∧ Re.at_boundary (last pre) (mid ++ post) = true
    ∧ Re.at_boundary (last (pre ++ mid)) post = true.

(** The characters of [s] from offset [b] up to offset [e]. *)
Definition substring (s : text) (b e : Z) : text :=
  take (Z.to_nat (e - b)) (drop (Z.to_nat b) s).

(** [t] is [l] without its leading and trailing whitespace. *)
Definition trimmed_of (l t : text) : Prop :=
  ∃ a b, l = a ++ t ++ b
    ∧ Forall (fun c => Char.is_space c = true) a
    ∧ Forall (fun c => Char.is_space c = true) b
    ∧ starts_with_space t = false
    ∧ starts_with_space (rev t) = false.

(** Sample surroundings for the concrete runs below. *)
Definition sample_messages : gmap string error_info :=
  <["invalid_input" := {| message := "Invalid input"; status_code := 400 |}]>
  (<["not_found_in_corpus" := {| message := "Not found in corpus"; status_code := 404 |}]>
  (<["internal_error" := {| message := "Internal error"; status_code := 500 |}]> ∅)).

Definition sample_config (radius : Z) : config :=
  {| CORPUS_FILE_PATH := "hemingway.txt"; CONTEXT_SIZE := radius;
     ERROR_MESSAGES := sample_messages |}.

Definition no_general_search : string -> string -> exn + bool :=
  fun _ _ => inl ReError.

Definition no_similarity : string -> gset string -> list string -> exn + list string :=
  fun _ _ _ => inr [].

Definition disk (words : list string) (contents : string) : world :=
  {| word_list := words; file_text := contents; read_fault := None;
     write_fault := None; trace := [] |}.

(** What one sentence adds to the result for a word without special
    characters: nothing, or the window around the first occurrence. *)
Definition word_context (cfg : config) (input_word sentence : string)
    : option string :=
  if Re.search true (word_pattern (chars input_word)) (chars sentence) then
    context_at cfg input_word sentence
      <$> Py.index (chars (Py.lower input_word)) (chars (Py.lower sentence))
  else None.

(** Input that carries no word: a missing field, the empty string, or a
    string of whitespace only. *)
Definition blank (v : value) : Prop :=
  v = VNone ∨ ∃ s, v = VStr s ∧ Forall (fun c => Char.is_space c = true) (chars s).

(** The contexts found for one word in a given state of the disk. *)
Definition contexts_for (cfg : config)
    (python_re_search : string -> string -> exn + bool)
    (word : string) (w : world) : list string :=
  match fst (find_matching_sentences_for_word cfg python_re_search (VStr word) w) with
  | inr found => found
  | inl _ => []
  end.

(** The part of the state a search reads. *)
Definition same_disk (w w' : world) : Prop :=
  file_text w = file_text w' ∧ read_fault w = read_fault w'.

(** A corpus word matches [old_word] up to case. *)
Definition matches_old (old_word word : string) : Prop :=
  Py.lower word = Py.lower old_word.

Global Instance matches_old_dec (old_word word : string) :
  Decision (matches_old old_word word).
Proof. unfold matches_old. apply _. Defined.

Definition replaced (old_word new_word word : string) : string :=
  if bool_decide (matches_old old_word word) then new_word else word.

(** The corpus file as a save leaves it: the words one after the other
    with one blank between them. *)
Fixpoint blank_separated (words : list string) : string :=
  match words with
  | [] => ""
  | word :: rest =>
      match rest with
      | [] => word
      | _ :: _ => word +:+ " " +:+ blank_separated rest
      end
  end.

(** The parameter of [find_similar_sentences] that lists the given
    words: the words one after the other with a comma between them. *)
Fixpoint comma_separated (words : list string) : string :=
  match words with
  | [] => ""
  | word :: rest =>
      match rest with
      | [] => word
      | _ :: _ => word +:+ "," +:+ comma_separated rest
      end
  end.

(** A request with a query string only, and one with a JSON object only. *)
Definition query (key val : string) : request :=
  {| args := [(key, val)]; json := None |}.

Definition post (fields : gmap string value) : request :=
  {| args := []; json := Some (JObject fields) |}.

(** A disk whose corpus file cannot be written (a read-only file, say). *)
Definition read_only_disk (words : list string) (contents : string) : world :=
  {| word_list := words; file_text := contents; read_fault := None;
     write_fault := Some OSError; trace := [] |}.

(** A handler's outcome that is an answer, not an exception let out. *)
Definition answers {A : Type} (out : (exn + A) * world) : Prop :=
  ∃ a, fst out = inr a.

(** [w'] is [w] with calls added to the trace and nothing else changed. *)
Definition only_logged (w w' : world) : Prop :=
  word_list w' = word_list w
  ∧ file_text w' = file_text w
  ∧ read_fault w' = read_fault w
  ∧ write_fault w' = write_fault w
  ∧ ∃ events, trace w' = trace w ++ events.

(** The corpus file holds the corpus in memory, joined with blanks. *)
Definition in_sync (w : world) : Prop :=
  file_text w = Py.join " " (word_list w).

(** The search of one sentence breaks off: the pattern made from the word
    does not compile or cannot be run, or it matches although the
    lowercased word does not occur in the lowercased sentence. *)
Definition search_fails (python_re_search : string -> string -> exn + bool)
    (input_word sentence : string) : Prop :=
  (∃ exc, re_search_word python_re_search input_word sentence = inl exc)
  ∨ (re_search_word python_re_search input_word sentence = inr true
     ∧ Py.index (chars (Py.lower input_word)) (chars (Py.lower sentence)) = None).

(** What every context looks like: no longer than the word and the radius
    on both sides, no newline, no blank at either end. *)
Definition context_shape (cfg : config) (input_word context : string) : Prop :=
  (Z.of_nat (String.length context)
   <= Z.of_nat (String.length input_word) + 2 * CONTEXT_SIZE cfg)%Z
  ∧ ("010"%char ∉ chars context)
  ∧ starts_with_space (chars context) = false
  ∧ starts_with_space (rev (chars context)) = false.

(** A stand-in for Python's search that reports a match everywhere. *)
Definition always_matches : string -> string -> exn + bool :=
  fun _ _ => inr true.

(** ** Sample runs *)

Example tokenize_sample :
  tokenize "Hello, world! it's a_b c-d 3.14; x"
  = ["Hello"; ","; "world"; "!"; "it"; "s"; "a_b"; "c"; "d"; "3"; "."; "14";
     ";"; "x"].
Proof. by vm_compute. Qed.

Example split_sentences_sample :
  split_sentences " .  x? y. " = [" ."; "x?"; "y."; ""].
Proof. by vm_compute. Qed.

Example search_sample :
  Re.search true (word_pattern (chars "fox")) (chars "Foxes and a FOX.") = true
  ∧ Re.search true (word_pattern (chars "fox")) (chars "Foxes.") = false
  ∧ Py.index (chars (Py.lower "fox")) (chars (Py.lower "Foxes and a FOX.")) = Some 0.
Proof. by vm_compute. Qed.

Example slice_sample :
  str (Py.slice (chars "fox jumps over") 5 (-2)) = "umps ov"
  ∧ str (Py.slice (chars "fox") 1 10) = "ox"
  ∧ str (Py.slice (chars "fox") 2 1) = "".
Proof. by vm_compute. Qed.

Example text_mode_sample :
  Py.universal_newlines
    ["a"; "013"; "010"; "b"; "013"; "c"; "010"; "013"; "013"; "010"]%char
  = ["a"; "010"; "b"; "010"; "c"; "010"; "010"; "010"]%char.
Proof. by vm_compute. Qed.

Example validate_sample :
  validate_input_string (VStr "fox") "w" = None
  ∧ validate_input_string (VStr "   ") "w" = Some "Invalid or missing w"
  ∧ validate_input_string VNone "w" = Some "Invalid or missing w"
  ∧ validate_input_string (VOther true) "w" = Some "Invalid or missing w".
Proof. by vm_compute. Qed.

Example find_similar_sentences_sample :
  fst (find_similar_sentences (sample_config 2) no_general_search
         (query "similar_words" "fox,dog,,fox")
         (disk [] "A fox. The Dog! fox dog?"))
  = inr (JsonMatching ["A fox."; "fox d"; "e Dog!"; "x dog?"], 200%Z).
Proof. by vm_compute. Qed.
(** ** The matcher on the program's patterns *)

Lemma chars_str (l : text) : chars (str l) = l.
Proof. apply String.list_ascii_of_string_of_list_ascii. Qed.

Lemma str_chars (s : string) : str (chars s) = s.
Proof. apply String.string_of_list_ascii_of_string. Qed.

Lemma chars_length (s : string) : length (chars s) = String.length s.
Proof. induction s as [|c s IH]; simpl; [done | by rewrite IH]. Qed.

Lemma plus_loop_cons (p : ascii -> bool) (k : Re.cont) (prev : option ascii)
    (c : ascii) (rest : text) :
  Re.plus_loop p prev (c :: rest) k
  = if p c then
      match Re.plus_loop p (Some c) rest k with
      | Some r => Some r
      | None => k (Some c) rest
      end
    else None.
Proof. reflexivity. Qed.

(** A greedy repetition stops at the end of the run when the rest of the
    pattern accepts that position. *)
Lemma plus_loop_longest (p : ascii -> bool) (k : Re.cont) (tail r : text) :
  (match tail with d :: _ => p d = false | [] => True end) ->
  forall (run : text) (c : ascii) (prev : option ascii),
    p c = true -> Forall (fun x => p x = true) run ->
    k (last (c :: run)) tail = Some r ->
    Re.plus_loop p prev (c :: run ++ tail) k = Some r.
Proof.
  intros Htail run. induction run as [|d run IH]; intros c prev Hc Hrun Hk.
  - simpl in *. rewrite Hc.
    destruct tail as [|e tail]; simpl; [done |].
    by rewrite Htail.
  - apply Forall_cons in Hrun as [Hd Hrun].
    rewrite <- !app_comm_cons, plus_loop_cons, Hc.
    rewrite (IH d (Some c) Hd Hrun); [done |].
    by rewrite last_cons_cons in Hk.
Qed.

(** A repetition finds nothing where the class does not start. *)
Lemma plus_loop_none (p : ascii -> bool) (k : Re.cont) (prev : option ascii)
    (rest : text) :
  (match rest with d :: _ => p d = false | [] => True end) ->
  Re.plus_loop p prev rest k = None.
Proof. destruct rest as [|d rest]; simpl; [done |]. by intros ->. Qed.

(** A text splits into its leading run of a class and the rest. *)
Lemma leading_run (p : ascii -> bool) (s : text) :
  ∃ run tail, s = run ++ tail
    ∧ Forall (fun x => p x = true) run
    ∧ match tail with d :: _ => p d = false | [] => True end.
Proof.
  induction s as [|c s (run & tail & -> & Hrun & Htail)].
  - by exists [], [].
  - destruct (p c) eqn:Hc.
    + exists (c :: run), tail. by repeat split; [constructor|].
    + exists [], (c :: run ++ tail). by repeat split.
Qed.

(** Stepping over the characters of a match. *)
Lemma findall_go_skip (r : Re.regex) (u v : text) (prev : option ascii) :
  Re.findall_go r (length u) prev (u ++ v)
  = Re.findall_go r 0 (from_option Some prev (last u)) v.
Proof.
  revert prev. induction u as [|c u IH]; intros prev; [done |].
  cbn [length app Re.findall_go]. rewrite IH, (last_cons c u).
  by destruct (last u).
Qed.

Lemma split_go_skip (r : Re.regex) (u v cur : text) (prev : option ascii) :
  Re.split_go r (length u) cur prev (u ++ v)
  = Re.split_go r 0 cur (from_option Some prev (last u)) v.
Proof.
  revert prev. induction u as [|c u IH]; intros prev; [done |].
  cbn [length app Re.split_go]. rewrite IH, (last_cons c u).
  by destruct (last u).
Qed.


(** A repetition that succeeds has taken at least one character. *)
Lemma plus_loop_consumes (p : ascii -> bool) (k : Re.cont) (rest r : text) :
  forall prev : option ascii,
    Re.plus_loop p prev rest k = Some r ->
    ∃ prev' rest', k prev' rest' = Some r ∧ length rest' < length rest.
Proof.
  induction rest as [|c rest IH]; intros prev; [done |].
  rewrite plus_loop_cons. destruct (p c); [|done].
  destruct (Re.plus_loop p (Some c) rest k) as [r'|] eqn:Hloop.
  - intros [= ->]. destruct (IH _ Hloop) as (prev' & rest' & Hk & Hlen).
    exists prev', rest'. split; [done |]. simpl. lia.
  - intros Hk. exists (Some c), rest. split; [done |]. simpl. lia.
Qed.

(** Neither pattern of the program matches the empty string, so the
    scanners never meet the case they pass over. *)
Lemma token_pattern_consumes (prev : option ascii) (rest : text) :
  Re.match_at false TOKEN_PATTERN prev rest ≠ Some 0.
Proof.
  unfold Re.match_at, TOKEN_PATTERN. cbn [Re.rmatch].
  destruct (Re.at_boundary prev rest).
  - destruct (Re.plus_loop _ _ _ _) as [r|] eqn:Hloop.
    + apply plus_loop_consumes in Hloop as (prev' & rest' & Hk & Hlen).
      destruct (Re.at_boundary prev' rest'); [|done].
      injection Hk as <-. intros [= Hzero]. lia.
    + destruct rest as [|c rest]; [done |].
      destruct (Char.is_token_punct c); [|done]. simpl. intros [= Hzero]. lia.
  - destruct rest as [|c rest]; [done |].
    destruct (Char.is_token_punct c); [|done]. simpl. intros [= Hzero]. lia.
Qed.

Lemma sentence_pattern_consumes (prev : option ascii) (rest : text) :
  Re.match_at false SENTENCE_PATTERN prev rest ≠ Some 0.
Proof.
  unfold Re.match_at, SENTENCE_PATTERN. cbn [Re.rmatch].
  destruct prev as [c|]; [|done]. destruct (Char.is_terminal c); [|done].
  destruct (Re.plus_loop _ _ _ _) as [r|] eqn:Hloop; [|done].
  apply plus_loop_consumes in Hloop as (prev' & rest' & [= <-] & Hlen).
  intros [= Hzero]. lia.
Qed.
(** ** The tokenizer *)

(** The class of the pattern's second branch holds the five marks and
    nothing else. *)
Lemma token_punct_mark (c : ascii) : Char.is_token_punct c = is_mark c.
Proof. destruct c as [[] [] [] [] [] [] [] []]; by vm_compute. Qed.

Lemma token_match_word (prev : option ascii) (c : ascii) (run tail : text) :
  Re.wordish prev = false ->
  Char.is_word c = true -> Forall (fun x => Char.is_word x = true) run ->
  (match tail with d :: _ => Char.is_word d = false | [] => True end) ->
  Re.match_at false TOKEN_PATTERN prev (c :: run ++ tail) = Some (S (length run)).
Proof.
  intros Hprev Hc Hrun Htail. unfold Re.match_at, TOKEN_PATTERN.
  cbn [Re.rmatch]. unfold Re.at_boundary at 1. cbn [head Re.wordish].
  rewrite Hprev, Hc. cbn [xorb].
  rewrite (plus_loop_longest _ _ tail tail Htail run c prev Hc Hrun).
  - f_equal. cbn [length]. rewrite length_app. lia.
  - unfold Re.at_boundary.
    assert (Re.wordish (last (c :: run)) = true) as ->.
    { destruct (last (c :: run)) as [x|] eqn:Hlast; [|by apply last_None in Hlast].
      apply last_Some_elem_of in Hlast. simpl.
      apply (proj1 (Forall_forall _ _) (Forall_cons_2 _ _ _ Hc Hrun)) in Hlast. done. }
    destruct tail as [|d tail]; simpl; [done |]. by rewrite Htail.
Qed.

Lemma token_match_other (prev : option ascii) (c : ascii) (rest : text) :
  Char.is_word c = false ->
  Re.match_at false TOKEN_PATTERN prev (c :: rest)
  = if Char.is_token_punct c then Some 1 else None.
Proof.
  intros Hc. unfold Re.match_at, TOKEN_PATTERN. cbn [Re.rmatch].
  assert (Re.plus_loop Char.is_word prev (c :: rest)
            (fun prev' rest' =>
               if Re.at_boundary prev' rest' then Some rest' else None) = None) as Hnone.
  { apply plus_loop_none. done. }
  rewrite Hnone. destruct (Re.at_boundary prev (c :: rest)).
  - destruct (Char.is_token_punct c); [|done]. f_equal. simpl. lia.
  - destruct (Char.is_token_punct c); [|done]. f_equal. simpl. lia.
Qed.

Lemma token_match_nil (prev : option ascii) :
  Re.match_at false TOKEN_PATTERN prev [] = None.
Proof.
  unfold Re.match_at, TOKEN_PATTERN. cbn [Re.rmatch Re.plus_loop].
  by destruct (Re.at_boundary prev []).
Qed.

Lemma runs_go_run (run tail acc : text) :
  Forall (fun x => Char.is_word x = true) run ->
  runs_go acc (run ++ tail) = runs_go (rev run ++ acc) tail.
Proof.
  revert acc. induction run as [|c run IH]; intros acc Hrun; [done |].
  apply Forall_cons in Hrun as [Hc Hrun].
  cbn [app runs_go]. rewrite Hc, IH by done.
  f_equal. simpl. by rewrite <- app_assoc.
Qed.

Lemma runs_go_flush (acc tail : text) :
  (match tail with d :: _ => Char.is_word d = false | [] => True end) ->
  runs_go acc tail = flush acc ++ runs_go [] tail.
Proof.
  destruct tail as [|d tail]; simpl.
  - by rewrite app_nil_r.
  - by intros ->.
Qed.

Lemma flush_rev_cons (c : ascii) (run : text) : flush (rev (c :: run)) = [c :: run].
Proof.
  unfold flush. destruct (rev (c :: run)) as [|d l] eqn:Hrev.
  - apply (f_equal (@length ascii)) in Hrev. rewrite length_rev in Hrev. done.
  - by rewrite <- Hrev, rev_involutive.
Qed.

Lemma findall_token_runs (n : nat) :
  forall (rest : text) (prev : option ascii),
    length rest <= n ->
    Re.wordish prev = false ∨ Re.wordish (head rest) = false ->
    Re.findall_go TOKEN_PATTERN 0 prev rest = runs_go [] rest.
Proof.
  induction n as [|n IH]; intros rest prev Hlen Hpos.
  - destruct rest; [|simpl in Hlen; lia].
    cbn [Re.findall_go]. by rewrite token_match_nil.
  - destruct rest as [|c rest].
    { cbn [Re.findall_go]. by rewrite token_match_nil. }
    destruct (Char.is_word c) eqn:Hc.
    + destruct Hpos as [Hprev | Hhead]; [|simpl in Hhead; congruence].
      destruct (leading_run Char.is_word rest) as (run & tail & -> & Hrun & Htail).
      cbn [Re.findall_go].
      rewrite (token_match_word prev c run tail Hprev Hc Hrun Htail).
      rewrite (findall_go_skip TOKEN_PATTERN run tail (Some c)).
      rewrite firstn_cons, (take_app_length run tail).
      rewrite (IH tail).
      * change (c :: run ++ tail) with ((c :: run) ++ tail).
        rewrite runs_go_run by (by constructor).
        rewrite app_nil_r, (runs_go_flush (rev (c :: run)) tail Htail).
        by rewrite flush_rev_cons.
      * simpl in Hlen. rewrite length_app in Hlen. lia.
      * right. by destruct tail.
    + cbn [Re.findall_go]. rewrite (token_match_other prev c rest Hc).
      cbn [runs_go]. rewrite Hc. cbn [flush app].
      simpl in Hlen. rewrite token_punct_mark.
      destruct (is_mark c).
      * cbn [take app]. f_equal. apply IH; [lia |]. left. simpl. done.
      * cbn [app]. apply IH; [lia |]. left. simpl. done.
Qed.

Lemma findall_tokens (s : text) : Re.findall TOKEN_PATTERN s = runs_go [] s.
Proof. apply (findall_token_runs (length s)); [lia | by left]. Qed.

Lemma flush_shape (acc : text) :
  Forall (fun c => Char.is_word c = true) acc -> Forall token_shape (flush acc).
Proof.
  intros Hacc. destruct acc as [|a acc]; [constructor |].
  constructor; [|constructor]. left. split.
  - intros Hnil. apply (f_equal (@length ascii)) in Hnil.
    by rewrite length_rev in Hnil.
  - apply Forall_forall. intros x Hx. apply list_elem_of_In, in_rev in Hx.
    apply (proj1 (Forall_forall _ _) Hacc). by apply list_elem_of_In.
Qed.

Lemma runs_go_shape (s acc : text) :
  Forall (fun c => Char.is_word c = true) acc ->
  Forall token_shape (runs_go acc s).
Proof.
  revert acc. induction s as [|c s IH]; intros acc Hacc; simpl.
  - by apply flush_shape.
  - destruct (Char.is_word c) eqn:Hc; [apply IH; by constructor |].
    apply Forall_app. split; [by apply flush_shape |].
    apply Forall_app. split; [| apply IH; constructor].
    destruct (is_mark c) eqn:Hp; [|constructor].
    constructor; [|constructor]. right. exists c. split; [done |].
    by apply bool_decide_eq_true_1 in Hp.
Qed.

Lemma concat_flush (acc : text) : concat (flush acc) = rev acc.
Proof. destruct acc; [done |]. unfold flush. cbn [concat]. by rewrite app_nil_r. Qed.

Lemma runs_go_concat (s acc : text) :
  Forall (fun c => Char.is_word c = true) acc ->
  concat (runs_go acc s) = rev acc ++ List.filter kept s.
Proof.
  revert acc. induction s as [|c s IH]; intros acc Hacc; cbn [runs_go List.filter].
  - by rewrite concat_flush, app_nil_r.
  - unfold kept at 1. destruct (Char.is_word c) eqn:Hc; cbn [orb].
    + rewrite IH by (by constructor). simpl. by rewrite <- app_assoc.
    + rewrite !concat_app, concat_flush, (IH []) by constructor.
      by destruct (is_mark c).
Qed.

Lemma fmap_chars_str (l : list text) : chars <$> (str <$> l) = l.
Proof.
  induction l as [|t l IH]; [done |].
  cbn [fmap list_fmap]. f_equal; [apply chars_str | apply IH].
Qed.

(** Both line ends are characters the tokenizer drops, so reading the
    file in text mode does not change its tokens. *)
Lemma runs_go_separator (c : ascii) (run l : text) :
  Char.is_word c = false -> is_mark c = false ->
  runs_go run (c :: l) = flush run ++ runs_go [] l.
Proof. intros Hw Hm. cbn [runs_go]. by rewrite Hw, Hm. Qed.

Lemma runs_go_newlines (n : nat) :
  forall (l run : text),
    length l <= n -> runs_go run (Py.universal_newlines l) = runs_go run l.
Proof.
  induction n as [|n IH]; intros l run Hlen.
  { destruct l; [done | simpl in Hlen; lia]. }
  destruct l as [|c l]; [done |]. simpl in Hlen.
  cbn [Py.universal_newlines]. case_bool_decide as Hc.
  - subst c.
    assert (∀ l0, runs_go run ("010"%char :: l0) = flush run ++ runs_go [] l0) as Hlf
      by (intros; by apply runs_go_separator).
    assert (∀ l0, runs_go [] ("010"%char :: l0) = runs_go [] l0) as Hlf0
      by (intros; by rewrite runs_go_separator).
    rewrite (runs_go_separator "013"%char) by done.
    destruct l as [|d l]; [by rewrite Hlf |]. simpl in Hlen.
    case_bool_decide as Hd.
    + subst d. rewrite Hlf, Hlf0, (IH l) by lia. done.
    + rewrite Hlf, (IH (d :: l)) by (simpl; lia). done.
  - cbn [runs_go]. by rewrite !IH by lia.
Qed.

Lemma tokenize_text_mode (contents : string) :
  tokenize (Py.text_mode contents) = tokenize contents.
Proof.
  unfold tokenize, Py.text_mode. rewrite chars_str, !findall_tokens.
  by rewrite (runs_go_newlines (length (chars contents))).
Qed.

Lemma mark_not_word (c : ascii) : c ∈ punctuation_marks -> Char.is_word c = false.
Proof.
  unfold punctuation_marks. rewrite !elem_of_cons, elem_of_nil.
  intros [-> | [-> | [-> | [-> | [-> | []]]]]]; reflexivity.
Qed.

(** A mark of the text is one of the tokens. *)
Lemma runs_go_mark (c : ascii) (s run : text) :
  c ∈ punctuation_marks -> c ∈ s -> [c] ∈ runs_go run s.
Proof.
  intros Hmark Hin. revert run.
  induction s as [|d s IH]; intros run; [by apply elem_of_nil in Hin |].
  cbn [runs_go]. apply elem_of_cons in Hin as [<- | Hin].
  - rewrite (mark_not_word c Hmark). unfold is_mark.
    rewrite bool_decide_eq_true_2 by done.
    apply elem_of_app. right. apply elem_of_app. left. apply elem_of_cons. by left.
  - destruct (Char.is_word d); [by apply IH |].
    apply elem_of_app. right. apply elem_of_app. right. by apply IH.
Qed.

(** C7.  The text "Wait; no, stop. (Go!) it's a_b2 - Why?" gives the
    tokens Wait ; no , stop . Go ! it s a_b2 Why ? and nothing else.  For
    every input the tokenizer yields the maximal runs of word characters
    and the single marks [. , ! ? ;], in input order: every token is a
    non-empty run of word characters or one of the five marks; every mark
    of the text is a token; joined together the tokens are the input with
    every other character dropped; and loading the corpus gives these
    tokens, a function of the file's text alone. *)
Theorem tokenize_maximal_runs (corpus_text : string) :
  tokenize "Wait; no, stop. (Go!) it's a_b2 - Why?"
  = ["Wait"; ";"; "no"; ","; "stop"; "."; "Go"; "!"; "it"; "s"; "a_b2";
     "Why"; "?"]
  ∧ tokenize corpus_text = tokenize_spec corpus_text
  ∧ Forall (fun t => token_shape (chars t)) (tokenize corpus_text)
  ∧ (∀ c, c ∈ punctuation_marks -> c ∈ chars corpus_text ->
       str [c] ∈ tokenize corpus_text)
  ∧ concat (chars <$> tokenize corpus_text) = List.filter kept (chars corpus_text)
  ∧ ∀ (file_path : string) (words : list string) (wf : option exn)
      (tr : list event),
      fst (load_corpus file_path
             {| word_list := words; file_text := corpus_text;
                read_fault := None; write_fault := wf; trace := tr |})
      = inr (tokenize corpus_text).
Proof.
  assert (tokenize corpus_text = tokenize_spec corpus_text) as Heq.
  { unfold tokenize, tokenize_spec. by rewrite findall_tokens. }
  split; [by vm_compute |].
  split; [exact Heq |]. split; [| split; [| split]].
  - rewrite Heq. unfold tokenize_spec. apply Forall_fmap.
    eapply Forall_impl; [apply (runs_go_shape _ []); constructor |].
    intros t Ht. simpl. by rewrite chars_str.
  - intros c Hmark Hin. rewrite Heq. unfold tokenize_spec.
    apply list_elem_of_fmap_2. by apply runs_go_mark.
  - rewrite Heq. unfold tokenize_spec.
    rewrite fmap_chars_str. by rewrite runs_go_concat by constructor.
  - intros. unfold load_corpus, file_operation.
    rewrite bool_decide_eq_true_2 by done.
    unfold try_except, bind, open_read, ret. cbn [read_fault file_text fst].
    by rewrite tokenize_text_mode.
Qed.

(** ** The sentence segmenter *)

Lemma terminal_not_space (c : ascii) :
  Char.is_terminal c = true -> Char.is_space c = false.
Proof. destruct c as [[] [] [] [] [] [] [] []]; simpl; intros H; try done. Qed.

Lemma sentence_match_run (prev : ascii) (c : ascii) (run tail : text) :
  Char.is_terminal prev = true ->
  Char.is_space c = true -> Forall (fun x => Char.is_space x = true) run ->
  (match tail with d :: _ => Char.is_space d = false | [] => True end) ->
  Re.match_at false SENTENCE_PATTERN (Some prev) (c :: run ++ tail)
  = Some (S (length run)).
Proof.
  intros Hprev Hc Hrun Htail. unfold Re.match_at, SENTENCE_PATTERN.
  cbn [Re.rmatch]. rewrite Hprev.
  rewrite (plus_loop_longest _ _ tail tail Htail run c (Some prev) Hc Hrun); [|done].
  f_equal. cbn [length]. rewrite length_app. lia.
Qed.

Lemma sentence_match_none (prev : option ascii) (rest : text) :
  adjacent_split prev (head rest) = false ->
  Re.match_at false SENTENCE_PATTERN prev rest = None.
Proof.
  intros Hadj. unfold Re.match_at, SENTENCE_PATTERN. cbn [Re.rmatch].
  destruct prev as [p|]; [|done].
  destruct (Char.is_terminal p) eqn:Hp; [|done].
  rewrite plus_loop_none; [done |].
  destruct rest as [|d rest]; [done |]. simpl in Hadj. by rewrite Hp in Hadj.
Qed.

Lemma has_split_point_app (a b : text) :
  has_split_point (a ++ b)
  = has_split_point a || adjacent_split (last a) (head b) || has_split_point b.
Proof.
  induction a as [|c a IH]; [done |].
  cbn [app has_split_point]. rewrite IH, (last_cons c a).
  destruct a as [|d a]; cbn [app head last has_split_point].
  - by destruct (adjacent_split (Some c) (head b)).
  - destruct (adjacent_split (Some c) (Some d)); [done |].
    cbn [orb]. by destruct (last (d :: a)) eqn:Hl; [| apply last_None in Hl].
Qed.

Lemma split_segmented (n : nat) :
  forall (rest cur : text) (prev : option ascii),
    length rest <= n ->
    has_split_point (rev cur) = false ->
    prev_ok cur prev ->
    segmented (rev cur ++ rest) (Re.split_go SENTENCE_PATTERN 0 cur prev rest).
Proof.
  induction n as [|n IH]; intros rest cur prev Hlen Hcur Hprev.
  { destruct rest; [|simpl in Hlen; lia].
    cbn [Re.split_go]. rewrite sentence_match_none, app_nil_r.
    - by constructor.
    - by destruct prev. }
  destruct rest as [|c rest].
  { cbn [Re.split_go]. rewrite sentence_match_none, app_nil_r.
    - by constructor.
    - by destruct prev. }
  destruct (adjacent_split prev (Some c)) eqn:Hadj.
  - destruct prev as [p|]; [|done]. simpl in Hadj.
    apply andb_prop in Hadj as [Hp Hc].
    destruct cur as [|q cur]; simpl in Hprev; [congruence |].
    injection Hprev as <-.
    destruct (leading_run Char.is_space rest) as (run & tail & -> & Hrun & Htail).
    cbn [Re.split_go].
    rewrite (sentence_match_run p c run tail Hp Hc Hrun Htail).
    rewrite (split_go_skip SENTENCE_PATTERN run tail [] (Some c)).
    change (c :: run ++ tail) with ((c :: run) ++ tail).
    apply segmented_cons; try done.
    + exists p. split; [|done]. simpl. by rewrite last_snoc.
    + by constructor.
    + by destruct tail.
    + apply (IH tail []); [| done |].
      * simpl in Hlen. rewrite length_app in Hlen. lia.
      * simpl.
        destruct (last run) as [x|] eqn:Hl; simpl.
        -- apply last_Some_elem_of in Hl.
           destruct (Char.is_terminal x) eqn:Hx; [|done].
           apply terminal_not_space in Hx.
           apply (proj1 (Forall_forall _ _) Hrun) in Hl. congruence.
        -- destruct (Char.is_terminal c) eqn:Hx; [|done].
           apply terminal_not_space in Hx. congruence.
  - cbn [Re.split_go]. rewrite (sentence_match_none prev (c :: rest) Hadj).
    replace (rev cur ++ c :: rest) with (rev (c :: cur) ++ rest)
      by (simpl; by rewrite <- app_assoc).
    apply IH; [simpl in Hlen; lia | | done].
    simpl. rewrite has_split_point_app, Hcur. simpl.
    rewrite !orb_false_r.
    destruct cur as [|q cur]; [done |].
    simpl in Hprev. subst prev. simpl. by rewrite last_snoc.
Qed.

Lemma split_sentences_segmented (s : text) :
  segmented s (Re.split SENTENCE_PATTERN s).
Proof. apply (split_segmented (length s) s [] None); [lia | done | done]. Qed.

Lemma space_run_unique (ws ws' rest rest' : text) :
  Forall (fun c => Char.is_space c = true) ws ->
  Forall (fun c => Char.is_space c = true) ws' ->
  starts_with_space rest = false -> starts_with_space rest' = false ->
  ws ++ rest = ws' ++ rest' -> ws = ws' ∧ rest = rest'.
Proof.
  revert ws'. induction ws as [|c ws IH]; intros ws' Hws Hws' Hr Hr' Heq.
  - destruct ws' as [|d ws']; [done |].
    apply Forall_cons in Hws' as [Hd _]. simpl in Heq. subst rest.
    simpl in Hr. congruence.
  - apply Forall_cons in Hws as [Hc Hws].
    destruct ws' as [|d ws'].
    + simpl in Heq. subst rest'. simpl in Hr'. congruence.
    + apply Forall_cons in Hws' as [Hd Hws'].
      injection Heq as -> Heq.
      destruct (IH ws' Hws Hws' Hr Hr' Heq) as [-> ->]. done.
Qed.

Lemma split_point_after_terminal (s1 k : text) (c : ascii) :
  ends_with_terminal s1 -> Char.is_space c = true ->
  has_split_point (s1 ++ c :: k) = true.
Proof.
  intros (p & Hlast & Hp) Hc. rewrite has_split_point_app, Hlast. simpl.
  rewrite Hp, Hc. simpl. by rewrite orb_true_r.
Qed.

Lemma segment_head_unique (s1 ws rest s1' ws' rest' : text) :
  has_split_point s1 = false -> ends_with_terminal s1 ->
  ws ≠ [] -> Forall (fun c => Char.is_space c = true) ws ->
  has_split_point s1' = false -> ends_with_terminal s1' ->
  ws' ≠ [] -> Forall (fun c => Char.is_space c = true) ws' ->
  s1 ++ ws ++ rest = s1' ++ ws' ++ rest' ->
  s1 = s1' ∧ ws ++ rest = ws' ++ rest'.
Proof.
  intros Hs1 He1 Hne Hws Hs1' He1' Hne' Hws' Heq.
  destruct ws as [|c ws]; [done |]. destruct ws' as [|c' ws']; [done |].
  apply Forall_cons in Hws as [Hc _]. apply Forall_cons in Hws' as [Hc' _].
  apply app_eq_inv in Heq as [(k & Hs & Hk) | (k & Hs & Hk)].
  - destruct k as [|d k]; [rewrite app_nil_r in Hs; by simpl in Hk |].
    simpl in Hk. injection Hk as <- _. subst s1.
    by rewrite (split_point_after_terminal s1' k c' He1' Hc') in Hs1.
  - destruct k as [|d k]; [rewrite app_nil_r in Hs; by simpl in Hk |].
    simpl in Hk. injection Hk as <- _. subst s1'.
    by rewrite (split_point_after_terminal s1 k c He1 Hc) in Hs1'.
Qed.

Lemma segmented_inv (s : text) (segs : list text) :
  segmented s segs ->
  (has_split_point s = false ∧ segs = [s])
  ∨ ∃ s1 ws rest segs0,
      s = s1 ++ ws ++ rest ∧ segs = s1 :: segs0
      ∧ has_split_point s1 = false ∧ ends_with_terminal s1
      ∧ ws ≠ [] ∧ Forall (fun c => Char.is_space c = true) ws
      ∧ starts_with_space rest = false ∧ segmented rest segs0.
Proof.
  intros [s0 Hs | s1 ws rest segs0 H1 H2 H3 H4 H5 H6]; [by left |].
  right. by exists s1, ws, rest, segs0.
Qed.

Lemma segmented_unique (s : text) (segs segs' : list text) :
  segmented s segs -> segmented s segs' -> segs = segs'.
Proof.
  intros H. revert segs'.
  induction H as [s Hs | s1 ws rest segs Hs1 He1 Hne Hws Hrest Hseg IH];
    intros segs' H'; apply segmented_inv in H'.
  - destruct H' as [[_ ->] | (t1 & ws & rest & segs0 & -> & -> & Ht1 & He1 & Hne & Hws & _)];
      [done |].
    destruct ws as [|c ws]; [done |].
    apply Forall_cons in Hws as [Hc _].
    change ((c :: ws) ++ rest) with (c :: (ws ++ rest)) in Hs.
    by rewrite (split_point_after_terminal t1 (ws ++ rest) c He1 Hc) in Hs.
  - destruct H' as [[Hs _] | (t1 & ws' & rest' & segs0 & Heq & -> & Ht1 & He1' & Hne' & Hws' & Hrest' & Hseg')].
    + destruct ws as [|c ws]; [done |].
      apply Forall_cons in Hws as [Hc _].
      change ((c :: ws) ++ rest) with (c :: (ws ++ rest)) in Hs.
      by rewrite (split_point_after_terminal s1 (ws ++ rest) c He1 Hc) in Hs.
    + destruct (segment_head_unique _ _ _ _ _ _ Hs1 He1 Hne Hws Ht1 He1' Hne' Hws' Heq)
        as [-> Heq'].
      destruct (space_run_unique _ _ _ _ Hws Hws' Hrest Hrest' Heq') as [-> ->].
      f_equal. by apply IH.
Qed.

(** C6.  The segmenter cuts the text exactly where a terminal mark
    ([.], [!], [?]) is immediately followed by whitespace: the pieces come
    in order, the whole run of whitespace after the mark is in no piece,
    and no other list of pieces fits that description.  The text
    ["A cat sat. A dog ran!"] gives the two sentences ["A cat sat."] and
    ["A dog ran!"]. *)
Theorem split_sentences_at_marks :
  split_sentences "A cat sat. A dog ran!" = ["A cat sat."; "A dog ran!"]
  ∧ ∀ hemingway : string,
      segmented (chars hemingway) (chars <$> split_sentences hemingway)
      ∧ ∀ segs : list text,
          segmented (chars hemingway) segs <->
          segs = chars <$> split_sentences hemingway.
Proof.
  split; [by vm_compute |]. intros hemingway.
  assert (segmented (chars hemingway) (chars <$> split_sentences hemingway)) as Hseg.
  { unfold split_sentences. rewrite fmap_chars_str. apply split_sentences_segmented. }
  split; [exact Hseg |]. intros segs. split.
  - intros H. by apply (segmented_unique (chars hemingway)).
  - by intros ->.
Qed.

(** ** The context extractor *)

Lemma chars_lower (s : string) : chars (Py.lower s) = Char.lower <$> chars s.
Proof. unfold Py.lower. apply chars_str. Qed.

Lemma literal_match (w : text) :
  forall (mid post : text) (prev : option ascii) (k : Re.cont),
    Char.lower <$> mid = Char.lower <$> w ->
    Re.rmatch true (Re.literal w) prev (mid ++ post) k
    = k (from_option Some prev (last mid)) post.
Proof.
  induction w as [|c w IH]; intros mid post prev k Heq.
  - destruct mid; [done | discriminate].
  - destruct mid as [|t mid]; [discriminate |].
    injection Heq as Hc Heq.
    cbn [Re.literal foldr Re.rmatch app]. unfold Re.lit_matches.
    rewrite bool_decide_eq_true_2 by done.
    fold (Re.literal w). rewrite (IH mid post (Some t) k Heq), (last_cons t mid).
    by destruct (last mid).
Qed.

Lemma word_pattern_match (w mid post : text) (prev : option ascii) :
  Char.lower <$> mid = Char.lower <$> w ->
  Re.at_boundary prev (mid ++ post) = true ->
  Re.at_boundary (from_option Some prev (last mid)) post = true ->
  Re.match_at true (word_pattern w) prev (mid ++ post) = Some (length mid).
Proof.
  intros Heq Hb1 Hb2. unfold Re.match_at, word_pattern.
  cbn [Re.rmatch]. rewrite Hb1, (literal_match w mid post prev _ Heq), Hb2.
  f_equal. rewrite length_app. lia.
Qed.

Lemma search_go_found (icase : bool) (r : Re.regex) (pre rest : text) (n : nat) :
  forall prev : option ascii,
    Re.match_at icase r (from_option Some prev (last pre)) rest = Some n ->
    Re.search_go icase r prev (pre ++ rest) = true.
Proof.
  induction pre as [|c pre IH]; intros prev Hm.
  - simpl in *. destruct rest; simpl; by rewrite Hm.
  - cbn [app Re.search_go].
    destruct (Re.match_at icase r prev (c :: pre ++ rest)); [done |].
    apply IH. rewrite (last_cons c pre) in Hm. by destruct (last pre).
Qed.

Lemma whole_word_search (w s : text) :
  whole_word_match w s -> Re.search true (word_pattern w) s = true.
Proof.
  intros (pre & mid & post & -> & Heq & Hb1 & Hb2).
  apply (search_go_found true _ pre (mid ++ post) (length mid)).
  simpl. apply word_pattern_match; [done | by destruct (last pre) |].
  rewrite last_app in Hb2. destruct (last mid); [done |]. by destruct (last pre).
Qed.

Lemma starts_with_prefix (needle hay : text) :
  Py.starts_with needle hay = true <-> needle `prefix_of` hay.
Proof.
  revert hay. induction needle as [|a needle IH]; intros hay.
  - split; [intros _; apply prefix_nil | done].
  - destruct hay as [|b hay]; simpl.
    + split; [done |]. intros [k Hk]. discriminate.
    + rewrite andb_true_iff, bool_decide_eq_true, IH. split.
      * intros [-> Hp]. by apply prefix_cons.
      * intros [k Hk]. injection Hk as -> ->. split; [done |]. by exists k.
Qed.

Lemma index_first (needle hay : text) (i : nat) :
  Py.index needle hay = Some i -> first_occurrence needle hay i.
Proof.
  revert i. induction hay as [|b hay IH]; intros i; cbn [Py.index].
  - destruct (Py.starts_with needle []) eqn:Hs; [|done].
    intros [= <-]. split; [|lia]. split; [simpl; lia |].
    by apply starts_with_prefix.
  - destruct (Py.starts_with needle (b :: hay)) eqn:Hs.
    + intros [= <-]. split; [|lia]. split; [simpl; lia |].
      by apply starts_with_prefix.
    + destruct (Py.index needle hay) as [j|] eqn:Hj; [|done].
      intros [= <-]. destruct (IH j eq_refl) as [[Hle Hp] Hmin].
      split; [split; [simpl; lia | done] |].
      intros [|k] Hk [_ Hocc].
      * apply starts_with_prefix in Hocc. simpl in Hocc. congruence.
      * apply (Hmin k); [lia |]. split; [|done].
        simpl in Hle. lia.
Qed.

Lemma index_found (needle hay : text) (i : nat) :
  occurs_at needle hay i -> ∃ j, Py.index needle hay = Some j.
Proof.
  revert i. induction hay as [|b hay IH]; intros i [Hle Hp]; cbn [Py.index].
  - rewrite drop_nil in Hp. apply starts_with_prefix in Hp. rewrite Hp. eauto.
  - destruct (Py.starts_with needle (b :: hay)) eqn:Hs; [eauto |].
    destruct i as [|i].
    + apply starts_with_prefix in Hp. simpl in Hp. congruence.
    + destruct (IH i) as [j ->]; [|simpl; eauto].
      split; [simpl in Hle; lia | done].
Qed.

Lemma whole_word_occurs (w s : text) :
  whole_word_match w s ->
  ∃ i, occurs_at (Char.lower <$> w) (Char.lower <$> s) i
       ∧ i + length w <= length s.
Proof.
  intros (pre & mid & post & -> & Heq & _).
  exists (length pre). rewrite !fmap_app, !length_app, Heq.
  assert (length mid = length w) as Hlen.
  { apply (f_equal length) in Heq. by rewrite !length_fmap in Heq. }
  split; [|lia]. split.
  - rewrite !length_app, !length_fmap. lia.
  - rewrite <- (length_fmap Char.lower pre), drop_app_length.
    by apply prefix_app_r.
Qed.

Lemma occurs_at_bound (needle hay : text) (i : nat) :
  occurs_at needle hay i -> i + length needle <= length hay.
Proof.
  intros [Hle [k Hk]]. apply (f_equal length) in Hk.
  rewrite length_drop, length_app in Hk. lia.
Qed.

Lemma slice_substring (s : text) (b e : Z) :
  (0 <= b <= Z.of_nat (length s))%Z -> (0 <= e <= Z.of_nat (length s))%Z ->
  Py.slice s b e = substring s b e.
Proof.
  intros Hb He. unfold Py.slice, substring, Py.slice_bound.
  destruct (Z.ltb_spec b 0); [lia |]. destruct (Z.ltb_spec e 0); [lia |].
  by rewrite !Z.min_l by lia.
Qed.

Lemma drop_while_split (p : ascii -> bool) (l : text) :
  ∃ a, l = a ++ Py.drop_while p l
       ∧ Forall (fun c => p c = true) a
       ∧ match Py.drop_while p l with d :: _ => p d = false | [] => True end.
Proof.
  induction l as [|c l (a & Hl & Ha & Hd)]; [by exists [] |].
  simpl. destruct (p c) eqn:Hc.
  - exists (c :: a). split; [by rewrite Hl at 1 | by split; [constructor |]].
  - by exists [].
Qed.

Lemma strip_chars_trimmed (l : text) : trimmed_of l (Py.strip_chars l).
Proof.
  unfold Py.strip_chars.
  destruct (drop_while_split Char.is_space l) as (a & Hl & Ha & Hm).
  set (m := Py.drop_while Char.is_space l) in *.
  destruct (drop_while_split Char.is_space (rev m)) as (b & Hr & Hb & Ht).
  set (t := Py.drop_while Char.is_space (rev m)) in *.
  assert (m = rev t ++ rev b) as Hmeq.
  { rewrite <- rev_app_distr, <- Hr. by rewrite rev_involutive. }
  exists a, (rev b). repeat split.
  - by rewrite <- Hmeq.
  - done.
  - apply Forall_forall. intros x Hx. apply list_elem_of_In, in_rev in Hx.
    apply (proj1 (Forall_forall _ _) Hb). by apply list_elem_of_In.
  - destruct (rev t) as [|c u] eqn:Hu; [done |]. simpl.
    rewrite Hmeq in Hm. by simpl in Hm.
  - rewrite rev_involutive. by destruct t.
Qed.

Lemma literal_match_inv (w : text) :
  forall (rest : text) (prev : option ascii) (k : Re.cont) (r : text),
    Re.rmatch true (Re.literal w) prev rest k = Some r ->
    ∃ mid post, rest = mid ++ post
      ∧ Char.lower <$> mid = Char.lower <$> w
      ∧ k (from_option Some prev (last mid)) post = Some r.
Proof.
  induction w as [|c w IH]; intros rest prev k r Hm.
  - by exists [], rest.
  - cbn [Re.literal foldr Re.rmatch] in Hm. fold (Re.literal w) in Hm.
    destruct rest as [|t rest]; [done |].
    unfold Re.lit_matches in Hm. case_bool_decide as Hc; [|done].
    apply IH in Hm as (mid & post & -> & Heq & Hk).
    exists (t :: mid), post. split; [done |]. split.
    + cbn [fmap list_fmap]. by rewrite Hc, Heq.
    + rewrite (last_cons t mid). by destruct (last mid).
Qed.

Lemma search_go_inv (icase : bool) (r : Re.regex) (s : text) :
  forall prev : option ascii,
    Re.search_go icase r prev s = true ->
    ∃ pre rest n, s = pre ++ rest
      ∧ Re.match_at icase r (from_option Some prev (last pre)) rest = Some n.
Proof.
  induction s as [|c s IH]; intros prev; cbn [Re.search_go].
  - destruct (Re.match_at icase r prev []) as [n|] eqn:Hm; [|done].
    intros _. by exists [], [], n.
  - destruct (Re.match_at icase r prev (c :: s)) as [n|] eqn:Hm.
    + intros _. by exists [], (c :: s), n.
    + intros (pre & rest & n & -> & Hn)%IH.
      exists (c :: pre), rest, n. split; [done |].
      rewrite (last_cons c pre). by destruct (last pre).
Qed.

Lemma search_whole_word (w s : text) :
  Re.search true (word_pattern w) s = true -> whole_word_match w s.
Proof.
  intros (pre & rest & n & -> & Hm)%search_go_inv.
  unfold Re.match_at, word_pattern in Hm. cbn [Re.rmatch] in Hm.
  destruct (Re.at_boundary (from_option Some None (last pre)) rest) eqn:Hb1; [|done].
  destruct (Re.rmatch true (Re.literal w) _ rest _) as [r|] eqn:Hl; [|done].
  apply literal_match_inv in Hl as (mid & post & -> & Heq & Hk).
  destruct (Re.at_boundary _ post) eqn:Hb2; [|done].
  exists pre, mid, post. split; [done |]. split; [done |]. split.
  - by destruct (last pre).
  - rewrite last_app. destruct (last mid); [done |]. by destruct (last pre).
Qed.

Lemma search_iff_whole_word (w s : text) :
  Re.search true (word_pattern w) s = true <-> whole_word_match w s.
Proof. split; [apply search_whole_word | apply whole_word_search]. Qed.

Section Context.
Variable cfg : config.
Variable python_re_search : string -> string -> exn + bool.

Lemma re_search_word_plain (input_word sentence : string) :
  plain input_word = true ->
  re_search_word python_re_search input_word sentence
  = inr (Re.search true (word_pattern (chars input_word)) (chars sentence)).
Proof. intros Hp. unfold re_search_word. by rewrite Hp. Qed.

Lemma sentence_step_plain (input_word sentence : string) (acc : list string) :
  plain input_word = true ->
  sentence_step cfg python_re_search input_word acc sentence
  = inr (acc ++ option_list (word_context cfg input_word sentence)).
Proof.
  intros Hp. unfold sentence_step, word_context.
  rewrite (re_search_word_plain _ _ Hp).
  destruct (Re.search true _ _) eqn:Hs; [| by rewrite app_nil_r].
  apply search_whole_word, whole_word_occurs in Hs as (i & Hi & _).
  rewrite <- !chars_lower in Hi.
  destruct (index_found _ _ _ Hi) as [j ->]. done.
Qed.

Lemma sentences_loop_plain (input_word : string) (sentences acc : list string) :
  plain input_word = true ->
  sentences_loop cfg python_re_search input_word acc sentences
  = inr (acc ++ omap (word_context cfg input_word) sentences).
Proof.
  intros Hp. revert acc.
  induction sentences as [|s sentences IH]; intros acc; cbn [sentences_loop omap list_omap].
  - by rewrite app_nil_r.
  - rewrite (sentence_step_plain _ _ _ Hp), IH, <- app_assoc.
    by destruct (word_context cfg input_word s).
Qed.

Lemma context_at_window (input_word sentence : string) (idx : nat) :
  (0 <= CONTEXT_SIZE cfg)%Z ->
  idx + String.length input_word <= String.length sentence ->
  context_at cfg input_word sentence idx
  = str (Py.strip_chars
           (Py.replace_char "010"%char " "%char
              (substring (chars sentence)
                 (Z.max 0 (Z.of_nat idx - CONTEXT_SIZE cfg))
                 (Z.min (Z.of_nat (String.length sentence))
                        (Z.of_nat idx + Z.of_nat (String.length input_word)
                         + CONTEXT_SIZE cfg))))).
Proof.
  intros HR Hidx. unfold context_at.
  rewrite slice_substring; rewrite ?chars_length; [| lia | lia].
  by rewrite (Z.max_comm 0), (Z.min_comm (Z.of_nat (String.length sentence))).
Qed.

Lemma find_matching_sentences_for_word_plain (input_word : string) (w : world) :
  validate_input_string (VStr input_word) "input word" = None ->
  plain input_word = true ->
  read_fault w = None ->
  find_matching_sentences_for_word cfg python_re_search (VStr input_word) w
  = (inr (omap (word_context cfg input_word)
            (split_sentences (Py.text_mode (file_text w)))),
     log (EvRead (CORPUS_FILE_PATH cfg)) w).
Proof.
  intros Hv Hp Hr. unfold find_matching_sentences_for_word. rewrite Hv.
  unfold try_except, bind, as_str, ret, open_read, lift. rewrite Hr.
  by rewrite (sentences_loop_plain _ _ _ Hp).
Qed.

(** C1, as amended.  With radius 5 the sentence "The quick fox jumps."
    and the word "fox" give the context "uick fox jump".  In general,
    for text of code points 0..255, a word without special characters and
    a radius that is not negative, every sentence with a case-insensitive
    whole-word match adds one context: the sentence from [max(0, idx - R)] to
    [min(len(sentence), idx + len(word) + R)], [idx] the offset of the
    first occurrence of the lowercased word in the lowercased sentence,
    newlines turned into spaces, whitespace trimmed at both ends.  For
    any word at all, a sentence in which the program's search reports a
    match and the lowercased word occurs adds that same window. *)
Theorem context_window :
  (CONTEXT_SIZE cfg = 5%Z ->
   ∀ (words : list string) (wf : option exn) (tr : list event),
     fst (find_matching_sentences_for_word cfg python_re_search (VStr "fox")
            {| word_list := words; file_text := "The quick fox jumps.";
               read_fault := None; write_fault := wf; trace := tr |})
     = inr ["uick fox jump"])
  ∧ (∀ (input_word sentence : string) (matching_sentences : list string),
      plain input_word = true ->
      (0 <= CONTEXT_SIZE cfg)%Z ->
      whole_word_match (chars input_word) (chars sentence) ->
      ∃ (idx : nat) (context : text),
        first_occurrence (chars (Py.lower input_word))
                         (chars (Py.lower sentence)) idx
        ∧ trimmed_of
            (Py.replace_char "010"%char " "%char
               (substring (chars sentence)
                  (Z.max 0 (Z.of_nat idx - CONTEXT_SIZE cfg))
                  (Z.min (Z.of_nat (String.length sentence))
                         (Z.of_nat idx + Z.of_nat (String.length input_word)
                          + CONTEXT_SIZE cfg))))
            context
        ∧ sentence_step cfg python_re_search input_word matching_sentences
            sentence
          = inr (matching_sentences ++ [str context]))
  ∧ ∀ (input_word sentence : string) (matching_sentences : list string)
      (idx : nat),
      (0 <= CONTEXT_SIZE cfg)%Z ->
      re_search_word python_re_search input_word sentence = inr true ->
      Py.index (chars (Py.lower input_word)) (chars (Py.lower sentence))
      = Some idx ->
      ∃ context : text,
        trimmed_of
          (Py.replace_char "010"%char " "%char
             (substring (chars sentence)
                (Z.max 0 (Z.of_nat idx - CONTEXT_SIZE cfg))
                (Z.min (Z.of_nat (String.length sentence))
                       (Z.of_nat idx + Z.of_nat (String.length input_word)
                        + CONTEXT_SIZE cfg))))
          context
        ∧ sentence_step cfg python_re_search input_word matching_sentences
            sentence
          = inr (matching_sentences ++ [str context]).
Proof.
  split; [| split].
  - intros HR words wf tr.
    rewrite find_matching_sentences_for_word_plain by done.
    cbn [fst file_text].
    assert (split_sentences (Py.text_mode "The quick fox jumps.")
            = ["The quick fox jumps."]) as -> by (by vm_compute).
    cbn [omap list_omap]. unfold word_context.
    assert (Re.search true (word_pattern (chars "fox")) (chars "The quick fox jumps.") = true)
      as -> by (by vm_compute).
    assert (Py.index (chars (Py.lower "fox")) (chars (Py.lower "The quick fox jumps."))
            = Some 10) as -> by (by vm_compute).
    cbn [fmap option_fmap option_map]. unfold context_at. rewrite HR.
    by vm_compute.
  - intros input_word sentence acc Hp HR Hm.
    rewrite (sentence_step_plain _ _ _ Hp). unfold word_context.
    rewrite (whole_word_search _ _ Hm).
    destruct (whole_word_occurs _ _ Hm) as (i & Hi & _).
    rewrite <- !chars_lower in Hi.
    destruct (index_found _ _ _ Hi) as [idx Hidx]. rewrite Hidx.
    pose proof (index_first _ _ _ Hidx) as Hfirst.
    exists idx. eexists. split; [exact Hfirst |]. split; [apply strip_chars_trimmed |].
    cbn [fmap option_fmap option_map option_list]. do 2 f_equal.
    rewrite context_at_window; [done | done |].
    destruct Hfirst as [Hocc _]. apply occurs_at_bound in Hocc.
    rewrite !chars_lower, !length_fmap, !chars_length in Hocc. done.
  - intros input_word sentence acc idx HR Hs Hidx.
    unfold sentence_step. rewrite Hs, Hidx.
    eexists. split; [apply strip_chars_trimmed |]. do 2 f_equal.
    rewrite context_at_window; [done | done |].
    apply index_first in Hidx as [Hocc _]. apply occurs_at_bound in Hocc.
    rewrite !chars_lower, !length_fmap, !chars_length in Hocc. done.
Qed.
End Context.

(** The run of C1's example: the context starts one character later than
    the spec's expected string. *)
Lemma context_window_counterexample :
  fst (find_matching_sentences_for_word (sample_config 5) no_general_search
         (VStr "fox") (disk [] "The quick fox jumps."))
  ≠ inr ["quick fox jump"].
Proof. by vm_compute. Qed.

Lemma context_window_witness :
  plain "fox" = true
  ∧ (0 <= CONTEXT_SIZE (sample_config 5))%Z
  ∧ whole_word_match (chars "fox") (chars "A Fox ran.")
  ∧ ∃ (idx : nat) (context : text),
      first_occurrence (chars (Py.lower "fox")) (chars (Py.lower "A Fox ran.")) idx
      ∧ trimmed_of
          (Py.replace_char "010"%char " "%char
             (substring (chars "A Fox ran.")
                (Z.max 0 (Z.of_nat idx - CONTEXT_SIZE (sample_config 5)))
                (Z.min (Z.of_nat (String.length "A Fox ran."))
                       (Z.of_nat idx + Z.of_nat (String.length "fox")
                        + CONTEXT_SIZE (sample_config 5)))))
          context
      ∧ sentence_step (sample_config 5) no_general_search "fox" [] "A Fox ran."
        = inr ([] ++ [str context]).
Proof.
  assert (whole_word_match (chars "fox") (chars "A Fox ran.")) as Hm.
  { exists (chars "A "), (chars "Fox"), (chars " ran."). by vm_compute. }
  split; [reflexivity |]. split; [simpl; lia |]. split; [exact Hm |].
  apply (proj1 (proj2 (context_window (sample_config 5) no_general_search))
           "fox" "A Fox ran." []);
    [reflexivity | simpl; lia | exact Hm].
Defined.

(** Why the two side conditions.  A word with a special character is a
    pattern of its own: for "(" Python raises [re.error], the search is
    given up and no sentence yields a context, whole-word match or not. *)
Lemma special_word_no_context :
  whole_word_match (chars "(") (chars "a(b")
  ∧ find_matching_sentences_for_word (sample_config 5)
      (fun _ _ => inl ReError) (VStr "(") (disk [] "a(b")
    = (inr [], log (EvRead "hemingway.txt") (disk [] "a(b")).
Proof.
  split; [| by vm_compute].
  exists (chars "a"), (chars "("), (chars "b"). by vm_compute.
Qed.

(** A negative radius can make the end of the window negative, which the
    slice counts from the end of the sentence. *)
Lemma negative_radius_wraps :
  context_at (sample_config (-5)) "fox" "fox jumps over" 0 = "umps ov"
  ∧ substring (chars "fox jumps over")
      (Z.max 0 (0 - (-5))) (Z.min 14 (0 + 3 + (-5))) = [].
Proof. by vm_compute. Qed.

(** ** The request handlers *)

Lemma set_word_list_same (w : world) : set_word_list (word_list w) w = w.
Proof. by destruct w. Qed.

Section HandlerFacts.
Variable cfg : config.

(** The error response does not depend on the state and leaves it alone. *)
Lemma handle_error_world (error_type : string) (w : world) :
  snd (handle_error cfg error_type w) = w.
Proof. unfold handle_error. by destruct (ERROR_MESSAGES cfg !! "internal_error"). Qed.

(** An error response made inside a handler's [try] is the handler's
    answer: when the table has no fallback entry, making the fallback
    response raises the same [KeyError] again. *)
Lemma try_handle_error (error_type : string) (w : world) :
  try_except (handle_error cfg error_type)
             (fun _ => handle_error cfg "internal_error") w
  = handle_error cfg error_type w.
Proof.
  unfold try_except, handle_error.
  by destruct (ERROR_MESSAGES cfg !! "internal_error").
Qed.

Lemma try_handle_error_io (error_type : string) (w : world) :
  try_except (handle_error cfg error_type)
             (fun exc => if Py.is_IOError exc
                         then handle_error cfg "internal_error"
                         else handle_error cfg "internal_error") w
  = handle_error cfg error_type w.
Proof.
  unfold try_except, handle_error.
  by destruct (ERROR_MESSAGES cfg !! "internal_error").
Qed.

(** The response for a kind the error table lists. *)
Lemma handle_error_entry (error_type : string) (fallback info : error_info)
    (w : world) :
  ERROR_MESSAGES cfg !! "internal_error" = Some fallback ->
  ERROR_MESSAGES cfg !! error_type = Some info ->
  handle_error cfg error_type w
  = (inr (JsonError (message info), status_code info), w).
Proof. intros Hfb Hinfo. unfold handle_error. by rewrite Hfb, Hinfo. Qed.

(** What saving does, by the fault of the disk. *)
Lemma save_corpus_run (file_path : string) (words : list string) (w : world) :
  save_corpus file_path words w
  = let w' := log (EvWrite file_path (Py.join " " words)) w in
    match write_fault w with
    | None => (inr (Some words), set_file_text (Py.join " " words) w')
    | Some FileNotFoundError => (inl FileNotFoundError, w')
    | Some _ => (inr (Some words), w')
    end.
Proof.
  unfold save_corpus, file_operation.
  rewrite (bool_decide_eq_false_2 ("write" = "read")) by done.
  rewrite (bool_decide_eq_true_2 ("write" = "write")) by done.
  unfold try_except, bind, open_write, ret, raise.
  destruct (write_fault w) as [[]|]; reflexivity.
Qed.

Lemma save_corpus_never_none (file_path : string) (words : list string) (w : world) :
  fst (save_corpus file_path words w) ≠ inr None.
Proof. rewrite save_corpus_run. by destruct (write_fault w) as [[]|]. Qed.
End HandlerFacts.

Lemma drop_while_all (p : ascii -> bool) (l : text) :
  Forall (fun c => p c = true) l -> Py.drop_while p l = [].
Proof. induction 1 as [|c l Hc _ IH]; [done |]. simpl. by rewrite Hc. Qed.

Lemma blank_invalid (v : value) (field_name : string) :
  blank v -> validate_input_string v field_name = Some ("Invalid or missing " +:+ field_name).
Proof.
  intros [-> | (s & -> & Hs)]; [done |].
  unfold validate_input_string. cbn [Py.truthy Py.is_str negb orb].
  assert (Py.strip s = "") as ->.
  { unfold Py.strip, Py.strip_chars. by rewrite (drop_while_all _ _ Hs). }
  by destruct (bool_decide (s = "")).
Qed.

Section Validation.
Variable cfg : config.
Variable python_re_search : string -> string -> exn + bool.
Variable custom_vocab : gset string.
Variable find_most_similar_words :
  string -> gset string -> list string -> exn + list string.

Lemma blank_word_no_search (v : value) (w : world) :
  blank v ->
  find_matching_sentences_for_word cfg python_re_search v w = (inr [], w).
Proof.
  intros Hv. unfold find_matching_sentences_for_word.
  by rewrite (blank_invalid v _ Hv).
Qed.

Lemma blank_words_no_search (words acc : list string) (w : world) :
  Forall (fun word => blank (VStr word)) words ->
  extend_loop cfg python_re_search words acc w = (inr acc, w).
Proof.
  intros Hwords. revert acc.
  induction Hwords as [|word words Hword _ IH]; intros acc; [done |].
  cbn [extend_loop]. unfold bind.
  rewrite (blank_word_no_search _ w Hword), IH. by rewrite app_nil_r.
Qed.

(** What each handler does with a blank value, by the response
    [handle_error] makes. *)
Lemma blank_input_answers (v : value) (r : request) (w : world) :
  blank v ->
  (args_get r "w" = v ->
   get_similar_words cfg custom_vocab find_most_similar_words r w
   = handle_error cfg "invalid_input" w)
  ∧ (args_get r "word" = v ->
     remove_similar_word cfg r w = handle_error cfg "invalid_input" w)
  ∧ (∀ fields, json r = Some (JObject fields) ->
       default VNone (fields !! "word") = v ->
       add_word cfg r w = handle_error cfg "invalid_input" w)
  ∧ (∀ fields, json r = Some (JObject fields) ->
       default VNone (fields !! "old_word") = v
       ∨ default VNone (fields !! "new_word") = v ->
       replace_word cfg r w = handle_error cfg "invalid_input" w)
  ∧ find_matching_sentences_for_word cfg python_re_search v w = (inr [], w)
  ∧ (args_get r "input" = v ->
     find_matching_sentences cfg python_re_search r w
     = (inr (JsonMatching [], 200%Z), w))
  ∧ (∀ similar_words, args_get r "similar_words" = VStr similar_words ->
       Forall (fun word => blank (VStr word))
              (take 3 (Py.split ","%char similar_words)) ->
       find_similar_sentences cfg python_re_search r w
       = (inr (JsonMatching [], 200%Z), w))
  ∧ (args_get r "similar_words" = VNone ->
     find_similar_sentences cfg python_re_search r w
     = handle_error cfg "internal_error" w).
Proof.
  intros Hv. repeat split.
  - intros Hget. unfold get_similar_words. rewrite Hget, (blank_invalid v _ Hv).
    apply try_handle_error.
  - intros Hget. unfold remove_similar_word. rewrite Hget, (blank_invalid v _ Hv).
    apply try_handle_error.
  - intros fields Hjson Hget.
    rewrite <- (try_handle_error_io cfg "invalid_input" w).
    unfold add_word, try_except, bind, get_json. rewrite Hjson.
    cbn [ret data_get]. rewrite Hget.
    destruct Hv as [-> | (s & -> & Hs)]; [done |].
    by rewrite (blank_invalid (VStr s) "new word") by (right; eauto).
  - intros fields Hjson Hget.
    rewrite <- (try_handle_error cfg "invalid_input" w).
    unfold replace_word, try_except, bind, get_json. rewrite Hjson.
    cbn [ret data_get].
    destruct Hget as [-> | ->].
    + by rewrite (blank_invalid v "old word" Hv).
    + rewrite (blank_invalid v "new word" Hv).
      by destruct (validate_input_string _ "old word").
  - by apply blank_word_no_search.
  - intros Hget. unfold find_matching_sentences. rewrite Hget.
    unfold try_except, bind. by rewrite (blank_word_no_search v w Hv).
  - intros similar_words Hget Hwords. unfold find_similar_sentences.
    rewrite Hget. unfold try_except, bind.
    by rewrite (blank_words_no_search _ [] w Hwords).
  - intros Hget. unfold find_similar_sentences. by rewrite Hget.
Qed.

(** C3.  The claim fails for the two sentence searches.  A missing field,
    an empty string or a string of whitespace only fails
    [validate_input_string] in every handler, and [similar_words],
    [add_word], [remove_similar_word] and [replace_word] answer it with
    the [invalid_input] entry of the error table.  Inside
    [find_matching_sentences_for_word] the same failure is raised as a
    [ValueError] and caught by the function's own handler, which returns
    an empty list: [find_matching_sentences] answers 200 with no
    sentences, and so does [find_similar_sentences] when the words it
    uses are blank; a missing [similar_words] parameter gets the
    [internal_error] entry, and so does a JSON body that is not an object
    in [add_word] and [replace_word].  In every case the state comes back
    untouched: no lookup, no file access and no change of the corpus has
    happened. *)
Theorem blank_search_input_accepted (v : value) (r : request) (w : world)
    (fallback rejected : error_info) :
  blank v ->
  ERROR_MESSAGES cfg !! "internal_error" = Some fallback ->
  ERROR_MESSAGES cfg !! "invalid_input" = Some rejected ->
  let invalid_input : (exn + response) * world :=
    (inr (JsonError (message rejected), status_code rejected), w) in
  (∀ field_name, validate_input_string v field_name
                 = Some ("Invalid or missing " +:+ field_name))
  ∧ (args_get r "w" = v ->
     get_similar_words cfg custom_vocab find_most_similar_words r w
     = invalid_input)
  ∧ (args_get r "word" = v -> remove_similar_word cfg r w = invalid_input)
  ∧ (∀ fields, json r = Some (JObject fields) ->
       default VNone (fields !! "word") = v ->
       add_word cfg r w = invalid_input)
  ∧ (∀ fields, json r = Some (JObject fields) ->
       default VNone (fields !! "old_word") = v
       ∨ default VNone (fields !! "new_word") = v ->
       replace_word cfg r w = invalid_input)
  ∧ find_matching_sentences_for_word cfg python_re_search v w = (inr [], w)
  ∧ (args_get r "input" = v ->
     find_matching_sentences cfg python_re_search r w
     = (inr (JsonMatching [], 200%Z), w))
  ∧ (∀ similar_words, args_get r "similar_words" = VStr similar_words ->
       Forall (fun word => blank (VStr word))
              (take 3 (Py.split ","%char similar_words)) ->
       find_similar_sentences cfg python_re_search r w
       = (inr (JsonMatching [], 200%Z), w))
  ∧ (args_get r "similar_words" = VNone ->
     find_similar_sentences cfg python_re_search r w
     = (inr (JsonError (message fallback), status_code fallback), w))
  ∧ (json r = Some JOther ->
     add_word cfg r w
     = (inr (JsonError (message fallback), status_code fallback), w)
     ∧ replace_word cfg r w
       = (inr (JsonError (message fallback), status_code fallback), w)).
Proof.
  intros Hv Hfb Hrej invalid_input.
  destruct (blank_input_answers v r w Hv)
    as (Hsim & Hrem & Hadd & Hrep & Hfor & Hmat & Hss & Hnone).
  pose proof (handle_error_entry cfg "invalid_input" fallback rejected w Hfb Hrej)
    as Hinv.
  pose proof (handle_error_entry cfg "internal_error" fallback fallback w Hfb Hfb)
    as Hint.
  split; [intros; by apply blank_invalid |].
  split; [intros Hget; by rewrite Hsim |].
  split; [intros Hget; by rewrite Hrem |].
  split; [intros fields Hjson Hget; by rewrite (Hadd fields) |].
  split; [intros fields Hjson Hget; by rewrite (Hrep fields) |].
  split; [exact Hfor |]. split; [exact Hmat |]. split; [exact Hss |].
  split; [intros Hget; by rewrite Hnone |].
  intros Hjson. unfold add_word, replace_word, try_except, bind, get_json.
  rewrite Hjson. cbn [ret data_get raise Py.is_IOError]. by rewrite Hint.
Qed.
End Validation.

(** A whitespace-only word is turned away by the removal with the 400
    entry, and answered by the search with 200 and no sentences. *)
Lemma blank_search_input_witness :
  blank (VStr " ")
  ∧ ERROR_MESSAGES (sample_config 5) !! "internal_error"
    = Some {| message := "Internal error"; status_code := 500 |}
  ∧ ERROR_MESSAGES (sample_config 5) !! "invalid_input"
    = Some {| message := "Invalid input"; status_code := 400 |}
  ∧ (remove_similar_word (sample_config 5) (query "word" " ") (disk ["a"] "a")
     = (inr (JsonError "Invalid input", 400%Z), disk ["a"] "a"))
  ∧ (find_matching_sentences (sample_config 5) no_general_search
       (query "input" " ") (disk ["a"] "a")
     = (inr (JsonMatching [], 200%Z), disk ["a"] "a")).
Proof.
  assert (blank (VStr " ")) as Hb.
  { right. exists " ". split; [done |]. by repeat constructor. }
  split; [exact Hb |]. split; [reflexivity |]. split; [reflexivity |].
  split.
  - exact (proj1 (proj2 (proj2
             (blank_search_input_accepted (sample_config 5) no_general_search
                ∅ no_similarity (VStr " ") (query "word" " ") (disk ["a"] "a")
                _ _ Hb eq_refl eq_refl))) eq_refl).
  - exact (proj1 (proj2 (proj2 (proj2 (proj2 (proj2 (proj2
             (blank_search_input_accepted (sample_config 5) no_general_search
                ∅ no_similarity (VStr " ") (query "input" " ") (disk ["a"] "a")
                _ _ Hb eq_refl eq_refl))))))) eq_refl).
Defined.

(** *** Removing a word *)

Lemma list_remove_absent (x : string) (l : list string) :
  x ∉ l -> filter (fun y => y ≠ x) l = l ∧ length (filter (fun y => y = x) l) = 0.
Proof.
  induction l as [|y l IH]; [done |].
  intros [Hne Hl]%not_elem_of_cons. destruct (IH Hl) as [IH1 IH2].
  rewrite !filter_cons. destruct (decide (y ≠ x)); [| done].
  destruct (decide (y = x)); [done |]. by rewrite IH1.
Qed.

Lemma list_remove_present (x : string) (l : list string) :
  x ∈ l ->
  ∃ l', Py.list_remove x l = Some l'
    ∧ filter (fun y => y ≠ x) l' = filter (fun y => y ≠ x) l
    ∧ length (filter (fun y => y = x) l) = S (length (filter (fun y => y = x) l')).
Proof.
  induction l as [|y l IH]; [by intros ?%elem_of_nil |].
  intros Hin. cbn [Py.list_remove]. rewrite !filter_cons.
  case_bool_decide as Hy.
  - subst y. exists l. split; [done |].
    destruct (decide (x ≠ x)); [done |]. by destruct (decide (x = x)).
  - apply elem_of_cons in Hin as [-> | Hin]; [done |].
    destruct (IH Hin) as (l' & -> & Hf & Hc). exists (y :: l').
    split; [done |]. rewrite !filter_cons.
    destruct (decide (y ≠ x)); [| done]. destruct (decide (y = x)); [done |].
    by rewrite Hf.
Qed.

(** The loop ends within [fuel] turns when [fuel] covers the occurrences,
    with every occurrence gone and counted. *)
Lemma remove_loop_run (target_word : string) (fuel : nat) :
  forall (words : list string) (removed_count : nat),
    length (filter (fun y => y = target_word) words) <= fuel ->
    remove_loop fuel target_word words removed_count
    = Some (inr (filter (fun y => y ≠ target_word) words,
                 removed_count + length (filter (fun y => y = target_word) words))).
Proof.
  induction fuel as [|fuel IH]; intros words removed_count Hfuel.
  - cbn [remove_loop]. case_bool_decide as Hin.
    + destruct (list_remove_present _ _ Hin) as (l' & _ & _ & Hc). lia.
    + destruct (list_remove_absent _ _ Hin) as [-> ->]. by rewrite Nat.add_0_r.
  - cbn [remove_loop]. case_bool_decide as Hin.
    + destruct (list_remove_present _ _ Hin) as (l' & -> & Hf & Hc).
      rewrite IH by lia. rewrite Hf, Hc. do 3 f_equal. lia.
    + destruct (list_remove_absent _ _ Hin) as [-> ->]. by rewrite Nat.add_0_r.
Qed.

Lemma remove_loop_length (target_word : string) (words : list string) :
  remove_loop (length words) target_word words 0
  = Some (inr (filter (fun y => y ≠ target_word) words,
               length (filter (fun y => y = target_word) words))).
Proof. rewrite remove_loop_run; [done |]. apply length_filter. Qed.

Section Remove.
Variable cfg : config.

Lemma remove_similar_word_run (r : request) (w : world) (target_word : string) :
  args_get r "word" = VStr target_word ->
  validate_input_string (VStr target_word) "target word" = None ->
  remove_similar_word cfg r w
  = let remaining := filter (fun y => y ≠ target_word) (word_list w) in
    let removed_count := length (filter (fun y => y = target_word) (word_list w)) in
    let w1 := set_word_list remaining w in
    let w2 := log (EvWrite (CORPUS_FILE_PATH cfg) (Py.join " " remaining)) w1 in
    let done :=
      inr (JsonMessage ("Removed " +:+ pretty removed_count
                        +:+ " occurrences of word '" +:+ target_word
                        +:+ "' from the corpus"), 200%Z) in
    if bool_decide (0 < removed_count) then
      match write_fault w with
      | None => (done, set_file_text (Py.join " " remaining) w2)
      | Some FileNotFoundError => handle_error cfg "internal_error" w2
      | Some _ => (done, w2)
      end
    else
      (inr (JsonError ("No occurrences of word '" +:+ target_word
                       +:+ "' found in the corpus"), 404%Z), w1).
Proof.
  intros Hget Hvalid. unfold remove_similar_word. rewrite Hget, Hvalid.
  unfold try_except, bind, as_str, ret, get_word_list, lift, put_word_list.
  rewrite remove_loop_length. cbn [default from_option id].
  cbv zeta. case_bool_decide as Hcount; [|done].
  rewrite save_corpus_run.
  cbn [write_fault set_word_list word_list].
  destruct (write_fault w) as [[]|]; try done.
Qed.

(** C4.  Removing a valid word deletes every token equal to it (case
    and all) and keeps the others in order.  When there was none the
    answer is the 404 "No occurrences ..." and the state is untouched:
    no mutation, no save.  Otherwise the corpus is saved and, unless the
    save raises, the answer reports the number of removals.  For the
    corpus ["a","b","a","c"] and the word "a": ["b","c"], count 2. *)
Theorem remove_every_occurrence (r : request) (w : world) (target_word : string) :
  args_get r "word" = VStr target_word ->
  validate_input_string (VStr target_word) "target word" = None ->
  let remaining := filter (fun y => y ≠ target_word) (word_list w) in
  let removed_count := length (filter (fun y => y = target_word) (word_list w)) in
  let out := remove_similar_word cfg r w in
  word_list (snd out) = remaining
  ∧ (removed_count = 0 ->
     out = (inr (JsonError ("No occurrences of word '" +:+ target_word
                            +:+ "' found in the corpus"), 404%Z), w))
  ∧ (0 < removed_count ->
     trace (snd out)
     = trace w ++ [EvWrite (CORPUS_FILE_PATH cfg) (Py.join " " remaining)]
     ∧ (write_fault w = None -> file_text (snd out) = Py.join " " remaining)
     ∧ (write_fault w ≠ Some FileNotFoundError ->
        fst out
        = inr (JsonMessage ("Removed " +:+ pretty removed_count
                            +:+ " occurrences of word '" +:+ target_word
                            +:+ "' from the corpus"), 200%Z)))
  ∧ (word_list w = ["a"; "b"; "a"; "c"] -> target_word = "a" ->
     write_fault w ≠ Some FileNotFoundError ->
     word_list (snd out) = ["b"; "c"]
     ∧ fst out = inr (JsonMessage
                        "Removed 2 occurrences of word 'a' from the corpus",
                      200%Z)).
Proof.
  intros Hget Hvalid remaining removed_count out.
  assert (out = remove_similar_word cfg r w) as Hout by done.
  rewrite (remove_similar_word_run r w target_word Hget Hvalid) in Hout.
  cbv zeta in Hout. fold remaining removed_count in Hout.
  assert (word_list (snd out) = remaining) as Hwords.
  { rewrite Hout. case_bool_decide; [|done].
    destruct (write_fault w) as [[]|]; try done.
    by rewrite handle_error_world. }
  assert (0 < removed_count ->
          write_fault w ≠ Some FileNotFoundError ->
          fst out
          = inr (JsonMessage ("Removed " +:+ pretty removed_count
                              +:+ " occurrences of word '" +:+ target_word
                              +:+ "' from the corpus"), 200%Z)) as Hmsg.
  { intros Hpos Hfault. rewrite Hout, bool_decide_eq_true_2 by done.
    by destruct (write_fault w) as [[]|]. }
  split; [exact Hwords |]. split; [| split].
  - intros Hzero. rewrite Hout, bool_decide_eq_false_2 by lia.
    f_equal. subst remaining removed_count.
    assert (target_word ∉ word_list w) as Habs.
    { intros Hin. destruct (list_remove_present _ _ Hin) as (? & _ & _ & ?). lia. }
    destruct (list_remove_absent _ _ Habs) as [-> _]. apply set_word_list_same.
  - intros Hpos. split; [| split; [| by apply Hmsg]].
    + rewrite Hout, bool_decide_eq_true_2 by done.
      destruct (write_fault w) as [[]|]; try done.
      by rewrite handle_error_world.
    + intros Hfault. rewrite Hout, bool_decide_eq_true_2 by done. by rewrite Hfault.
  - intros Hw Ht Hfault. split.
    + rewrite Hwords. subst remaining. rewrite Hw, Ht. by vm_compute.
    + assert (removed_count = 2) as Hc.
      { subst removed_count. rewrite Hw, Ht. by vm_compute. }
      rewrite Hmsg by (done || lia). rewrite Hc, Ht. by vm_compute.
Qed.
End Remove.

Lemma remove_every_occurrence_witness :
  args_get (query "word" "a") "word" = VStr "a"
  ∧ validate_input_string (VStr "a") "target word" = None
  ∧ word_list (snd (remove_similar_word (sample_config 5) (query "word" "a")
                      (disk ["a"; "b"; "a"; "c"] "a b a c")))
    = filter (fun y => y ≠ "a") ["a"; "b"; "a"; "c"].
Proof.
  split; [reflexivity |]. split; [reflexivity |].
  exact (proj1 (remove_every_occurrence (sample_config 5) (query "word" "a")
                  (disk ["a"; "b"; "a"; "c"] "a b a c") "a" eq_refl eq_refl)).
Defined.

(** *** Replacing a word *)

Lemma replace_step_at (old_word new_word word : string)
    (front back : list string) (replaced_count : nat) :
  replace_step old_word new_word (front ++ word :: back, replaced_count)
               (length front)
  = (front ++ replaced old_word new_word word :: back,
     if bool_decide (matches_old old_word word)
     then S replaced_count else replaced_count).
Proof.
  unfold replace_step, replaced, matches_old.
  rewrite list_lookup_middle by done.
  repeat case_bool_decide; try done.
  rewrite (insert_app_r_alt front (word :: back) (length front) new_word) by lia.
  by rewrite Nat.sub_diag.
Qed.

(** After the turns for the indices below [length front], the tokens of
    [front] are final and the loop goes on over [back]. *)
Lemma replace_loop_from (old_word new_word : string) (back : list string) :
  forall (front : list string) (replaced_count : nat),
    foldl (replace_step old_word new_word) (front ++ back, replaced_count)
          (seq (length front) (length back))
    = (front ++ (replaced old_word new_word <$> back),
       replaced_count + length (filter (matches_old old_word) back)).
Proof.
  induction back as [|word back IH]; intros front replaced_count.
  - cbn. by rewrite Nat.add_0_r.
  - cbn [length seq foldl]. rewrite replace_step_at.
    rewrite (cons_middle (replaced old_word new_word word) front back), app_assoc.
    replace (S (length front))
      with (length (front ++ [replaced old_word new_word word]))
      by (rewrite length_app; simpl; lia).
    rewrite IH, <- app_assoc, filter_cons, fmap_cons. f_equal.
    case_bool_decide; destruct (decide (matches_old old_word word));
      cbn [length]; try done; lia.
Qed.

Lemma replace_loop_run (old_word new_word : string) (words : list string) :
  replace_loop old_word new_word words
  = (replaced old_word new_word <$> words,
     length (filter (matches_old old_word) words)).
Proof. apply (replace_loop_from old_word new_word words [] 0). Qed.

Lemma replaced_none (old_word new_word : string) (words : list string) :
  length (filter (matches_old old_word) words) = 0 ->
  replaced old_word new_word <$> words = words.
Proof.
  induction words as [|word words IH]; [done |].
  rewrite filter_cons, fmap_cons. unfold replaced at 1.
  destruct (decide (matches_old old_word word)) as [Hm | Hm]; [done |].
  intros Hc. by rewrite bool_decide_eq_false_2, IH.
Qed.

Section Replace.
Variable cfg : config.

Lemma replace_word_run (r : request) (w : world) (fields : gmap string value)
    (old_word new_word : string) :
  json r = Some (JObject fields) ->
  fields !! "old_word" = Some (VStr old_word) ->
  fields !! "new_word" = Some (VStr new_word) ->
  validate_input_string (VStr old_word) "old word" = None ->
  validate_input_string (VStr new_word) "new word" = None ->
  replace_word cfg r w
  = let words' := replaced old_word new_word <$> word_list w in
    let replaced_count := length (filter (matches_old old_word) (word_list w)) in
    let w1 := set_word_list words' w in
    let w2 := log (EvWrite (CORPUS_FILE_PATH cfg) (Py.join " " words')) w1 in
    let answer (w3 : world) :=
      if bool_decide (0 < replaced_count) then
        (inr (JsonMessage
                ("Replaced " +:+ pretty replaced_count
                 +:+ "                             occurrences of '"
                 +:+ old_word +:+ "' with '" +:+ new_word
                 +:+ "' in the corpus"), 200%Z), w3)
      else handle_error cfg "not_found_in_corpus" w3 in
    match write_fault w with
    | None => answer (set_file_text (Py.join " " words') w2)
    | Some FileNotFoundError => handle_error cfg "internal_error" w2
    | Some _ => answer w2
    end.
Proof.
  intros Hjson Hold Hnew Hvold Hvnew.
  unfold replace_word, try_except, bind, get_json. rewrite Hjson.
  cbn [ret data_get]. rewrite Hold, Hnew. cbn [default from_option id].
  rewrite Hvold, Hvnew. cbn [as_str ret get_word_list].
  rewrite replace_loop_run. cbn [put_word_list].
  rewrite save_corpus_run. cbv zeta.
  cbn [write_fault set_word_list word_list].
  unfold handle_error.
  destruct (write_fault w) as [[]|]; try case_bool_decide;
    destruct (ERROR_MESSAGES cfg !! "internal_error"); done.
Qed.

Lemma handle_error_fst (error_type : string) (w w' : world) :
  fst (handle_error cfg error_type w) = fst (handle_error cfg error_type w').
Proof. unfold handle_error. by destruct (ERROR_MESSAGES cfg !! "internal_error"). Qed.

(** C5.  Replacing rewrites, at its index, every token that equals the
    old word up to case with the replacement exactly as supplied, and
    leaves the others alone.  Unless the save raises, the answer reports
    the number of replacements, or, when there were none, is the message
    and the status that the error table lists under [not_found_in_corpus].
    For the corpus ["Cat","dog","CAT"], old "cat" and new "feline":
    ["feline","dog","feline"], count 2. *)
Theorem replace_case_insensitive (r : request) (w : world)
    (fields : gmap string value) (old_word new_word : string) :
  json r = Some (JObject fields) ->
  fields !! "old_word" = Some (VStr old_word) ->
  fields !! "new_word" = Some (VStr new_word) ->
  validate_input_string (VStr old_word) "old word" = None ->
  validate_input_string (VStr new_word) "new word" = None ->
  let replaced_count := length (filter (matches_old old_word) (word_list w)) in
  let out := replace_word cfg r w in
  word_list (snd out) = replaced old_word new_word <$> word_list w
  ∧ (write_fault w ≠ Some FileNotFoundError ->
     (0 < replaced_count ->
      fst out
      = inr (JsonMessage
               ("Replaced " +:+ pretty replaced_count
                +:+ "                             occurrences of '"
                +:+ old_word +:+ "' with '" +:+ new_word
                +:+ "' in the corpus"), 200%Z))
     ∧ (replaced_count = 0 ->
        ∀ fallback not_found : error_info,
          ERROR_MESSAGES cfg !! "internal_error" = Some fallback ->
          ERROR_MESSAGES cfg !! "not_found_in_corpus" = Some not_found ->
          fst out = inr (JsonError (message not_found), status_code not_found)))
  ∧ (word_list w = ["Cat"; "dog"; "CAT"] ->
     old_word = "cat" -> new_word = "feline" ->
     write_fault w ≠ Some FileNotFoundError ->
     word_list (snd out) = ["feline"; "dog"; "feline"]
     ∧ fst out
       = inr (JsonMessage
                "Replaced 2                             occurrences of 'cat' with 'feline' in the corpus",
              200%Z)).
Proof.
  intros Hjson Hold Hnew Hvold Hvnew replaced_count out.
  assert (out = replace_word cfg r w) as Hout by done.
  rewrite (replace_word_run r w fields old_word new_word Hjson Hold Hnew Hvold Hvnew)
    in Hout.
  cbv zeta in Hout. fold replaced_count in Hout.
  assert (word_list (snd out) = replaced old_word new_word <$> word_list w) as Hwords.
  { rewrite Hout.
    destruct (write_fault w) as [[]|]; try case_bool_decide;
      rewrite ?handle_error_world; done. }
  assert (write_fault w ≠ Some FileNotFoundError ->
          0 < replaced_count ->
          fst out
          = inr (JsonMessage
                   ("Replaced " +:+ pretty replaced_count
                    +:+ "                             occurrences of '"
                    +:+ old_word +:+ "' with '" +:+ new_word
                    +:+ "' in the corpus"), 200%Z)) as Hmsg.
  { intros Hfault Hpos. rewrite Hout.
    destruct (write_fault w) as [[]|]; try done;
      by rewrite bool_decide_eq_true_2. }
  split; [exact Hwords |]. split; [| ].
  - intros Hfault. split; [by apply Hmsg |].
    intros Hzero fallback not_found Hfb Hnf. rewrite Hout.
    destruct (write_fault w) as [[]|]; try done;
      rewrite bool_decide_eq_false_2 by lia;
      by rewrite (handle_error_entry cfg _ fallback not_found _ Hfb Hnf).
  - intros Hw Ho Hn Hfault. split.
    + rewrite Hwords, Hw, Ho, Hn. by vm_compute.
    + assert (replaced_count = 2) as Hc.
      { subst replaced_count. rewrite Hw, Ho. by vm_compute. }
      rewrite Hmsg by (done || lia). rewrite Hc, Ho, Hn. by vm_compute.
Qed.
End Replace.

(** The run of the claim's example, and a run without a match: the
    answer is the table's [not_found_in_corpus] entry, not the fallback. *)
Lemma replace_case_insensitive_witness :
  json (post (<["old_word" := VStr "cat"]> {["new_word" := VStr "feline"]}))
  = Some (JObject (<["old_word" := VStr "cat"]> {["new_word" := VStr "feline"]}))
  ∧ validate_input_string (VStr "cat") "old word" = None
  ∧ validate_input_string (VStr "feline") "new word" = None
  ∧ word_list (snd (replace_word (sample_config 5)
                      (post (<["old_word" := VStr "cat"]> {["new_word" := VStr "feline"]}))
                      (disk ["Cat"; "dog"; "CAT"] "Cat dog CAT")))
    = ["feline"; "dog"; "feline"]
  ∧ fst (replace_word (sample_config 5)
           (post (<["old_word" := VStr "cat"]> {["new_word" := VStr "feline"]}))
           (disk ["Cat"; "dog"; "CAT"] "Cat dog CAT"))
    = inr (JsonMessage
             "Replaced 2                             occurrences of 'cat' with 'feline' in the corpus",
           200%Z)
  ∧ fst (replace_word (sample_config 5)
           (post (<["old_word" := VStr "cat"]> {["new_word" := VStr "feline"]}))
           (disk ["dog"; "Cats"] "dog Cats"))
    = inr (JsonError "Not found in corpus", 404%Z).
Proof.
  split; [reflexivity |]. split; [reflexivity |]. split; [reflexivity |].
  pose proof (replace_case_insensitive (sample_config 5)
                (post (<["old_word" := VStr "cat"]> {["new_word" := VStr "feline"]}))
                (disk ["Cat"; "dog"; "CAT"] "Cat dog CAT")
                (<["old_word" := VStr "cat"]> {["new_word" := VStr "feline"]})
                "cat" "feline" eq_refl eq_refl eq_refl eq_refl eq_refl)
    as (_ & _ & Hexample).
  pose proof (replace_case_insensitive (sample_config 5)
                (post (<["old_word" := VStr "cat"]> {["new_word" := VStr "feline"]}))
                (disk ["dog"; "Cats"] "dog Cats")
                (<["old_word" := VStr "cat"]> {["new_word" := VStr "feline"]})
                "cat" "feline" eq_refl eq_refl eq_refl eq_refl eq_refl)
    as (_ & Hanswer & _).
  destruct (Hexample eq_refl eq_refl eq_refl ltac:(discriminate)) as [Hwords Hmsg].
  split; [exact Hwords |]. split; [exact Hmsg |].
  exact (proj2 (Hanswer ltac:(discriminate)) eq_refl
           {| message := "Internal error"; status_code := 500 |}
           {| message := "Not found in corpus"; status_code := 404 |}
           eq_refl eq_refl).
Defined.

(** *** Adding a word *)

Section Add.
Variable cfg : config.

Lemma add_word_run (r : request) (w : world) (fields : gmap string value)
    (new_word : string) :
  json r = Some (JObject fields) ->
  fields !! "word" = Some (VStr new_word) ->
  validate_input_string (VStr new_word) "new word" = None ->
  add_word cfg r w
  = let words' := word_list w ++ [new_word] in
    let w1 := set_word_list words' w in
    let w2 := log (EvWrite (CORPUS_FILE_PATH cfg) (Py.join " " words')) w1 in
    let created :=
      inr (JsonMessage ("Word '" +:+ new_word +:+ "' added to the corpus"),
           201%Z) in
    match write_fault w with
    | None => (created, set_file_text (Py.join " " words') w2)
    | Some FileNotFoundError => handle_error cfg "internal_error" w2
    | Some _ => (created, w2)
    end.
Proof.
  intros Hjson Hword Hvalid.
  unfold add_word, try_except, bind, get_json. rewrite Hjson.
  cbn [ret data_get]. rewrite Hword. cbn [default from_option id].
  rewrite Hvalid. cbn [as_str ret get_word_list put_word_list].
  rewrite save_corpus_run. cbv zeta.
  cbn [write_fault set_word_list word_list Py.is_IOError].
  by destruct (write_fault w) as [[]|].
Qed.

(** C8.  Adding a valid word puts it at the end of the corpus, whether
    or not it is in the corpus already; the tokens that were there stay,
    in their order; [get_corpus] then shows the word as the last token;
    and unless the save raises the answer is the 201 success. *)
Theorem add_appends_last (r : request) (w : world)
    (fields : gmap string value) (new_word : string) :
  json r = Some (JObject fields) ->
  fields !! "word" = Some (VStr new_word) ->
  validate_input_string (VStr new_word) "new word" = None ->
  let out := add_word cfg r w in
  word_list (snd out) = word_list w ++ [new_word]
  ∧ last (word_list (snd out)) = Some new_word
  ∧ take (length (word_list w)) (word_list (snd out)) = word_list w
  ∧ (∀ r' : request,
       fst (get_corpus cfg r' (snd out))
       = inr (JsonCorpus (word_list w ++ [new_word]), 200%Z))
  ∧ (write_fault w ≠ Some FileNotFoundError ->
     fst out
     = inr (JsonMessage ("Word '" +:+ new_word +:+ "' added to the corpus"),
            201%Z)).
Proof.
  intros Hjson Hword Hvalid out.
  assert (word_list (snd out) = word_list w ++ [new_word]) as Hwords.
  { subst out. rewrite (add_word_run r w fields new_word Hjson Hword Hvalid).
    cbv zeta. destruct (write_fault w) as [[]|];
      rewrite ?handle_error_world; done. }
  split; [exact Hwords |]. rewrite Hwords.
  split; [apply last_snoc |]. split; [by rewrite take_app_length |].
  split.
  - intros r'. unfold get_corpus, try_except, bind, get_word_list, ret.
    cbn [fst]. by rewrite Hwords.
  - intros Hfault. subst out.
    rewrite (add_word_run r w fields new_word Hjson Hword Hvalid). cbv zeta.
    by destruct (write_fault w) as [[]|].
Qed.
End Add.

Lemma add_appends_last_witness :
  json (post {["word" := VStr "lighthouse"]})
  = Some (JObject {["word" := VStr "lighthouse"]})
  ∧ validate_input_string (VStr "lighthouse") "new word" = None
  ∧ last (word_list (snd (add_word (sample_config 5)
                            (post {["word" := VStr "lighthouse"]})
                            (disk ["the"; "lighthouse"; "."] "the lighthouse ."))))
    = Some "lighthouse".
Proof.
  split; [reflexivity |]. split; [reflexivity |].
  exact (proj1 (proj2 (add_appends_last (sample_config 5)
                  (post {["word" := VStr "lighthouse"]})
                  (disk ["the"; "lighthouse"; "."] "the lighthouse .")
                  {["word" := VStr "lighthouse"]} "lighthouse"
                  eq_refl eq_refl eq_refl))).
Defined.

(** *** A save that fails *)

(** C2 does not hold of the program: [save_corpus] hands back the list it
    was given whatever [file_operation] answered, so the test
    [saved_word_list is None] never fires.  With a corpus file that cannot
    be written, adding "lighthouse" changes the corpus in memory, leaves
    the file as it was, and is answered with the 201 success; a replace is
    answered with the 200 success in the same way. *)
Theorem failed_save_reported_as_success :
  add_word (sample_config 5) (post {["word" := VStr "lighthouse"]})
    (read_only_disk ["old"] "old")
  = (inr (JsonMessage "Word 'lighthouse' added to the corpus", 201%Z),
     {| word_list := ["old"; "lighthouse"]; file_text := "old";
        read_fault := None; write_fault := Some OSError;
        trace := [EvWrite "hemingway.txt" "old lighthouse"] |})
  ∧ replace_word (sample_config 5)
      (post (<["old_word" := VStr "old"]> {["new_word" := VStr "new"]}))
      (read_only_disk ["old"] "old")
    = (inr (JsonMessage
              "Replaced 1                             occurrences of 'old' with 'new' in the corpus",
            200%Z),
       {| word_list := ["new"]; file_text := "old";
          read_fault := None; write_fault := Some OSError;
          trace := [EvWrite "hemingway.txt" "new"] |})
  ∧ ∀ (file_path : string) (words : list string) (w : world),
      fst (save_corpus file_path words w) ≠ inr None.
Proof.
  split; [by vm_compute |]. split; [by vm_compute |].
  intros file_path words w. apply save_corpus_never_none.
Qed.

(** *** Similar sentences *)

Section Similar.
Variable cfg : config.
Variable python_re_search : string -> string -> exn + bool.

(** One search: no answer but a list, at most one read of the corpus
    file, nothing else touched. *)
Lemma find_matching_sentences_for_word_run (word : string) (w : world) :
  find_matching_sentences_for_word cfg python_re_search (VStr word) w
  = (inr (contexts_for cfg python_re_search word w),
     if bool_decide (validate_input_string (VStr word) "input word" = None)
     then log (EvRead (CORPUS_FILE_PATH cfg)) w else w).
Proof.
  unfold contexts_for, find_matching_sentences_for_word.
  destruct (validate_input_string (VStr word) "input word") as [err|]; [done |].
  rewrite bool_decide_eq_true_2 by done.
  unfold try_except, bind, as_str, ret, open_read, lift.
  destruct (read_fault w); [done |].
  by destruct (sentences_loop _ _ _ _ _).
Qed.

Lemma contexts_for_same_disk (word : string) (w w' : world) :
  same_disk w w' ->
  contexts_for cfg python_re_search word w
  = contexts_for cfg python_re_search word w'.
Proof.
  intros [Htext Hfault]. unfold contexts_for, find_matching_sentences_for_word.
  destruct (validate_input_string (VStr word) "input word") as [err|]; [done |].
  unfold try_except, bind, as_str, ret, open_read, lift.
  rewrite <- Hfault, <- Htext. destruct (read_fault w); [done |].
  by destruct (sentences_loop _ _ _ _ _).
Qed.

Lemma extend_loop_run (w : world) (similar_words : list string) :
  forall (matching_sentences : list string) (w' : world),
    same_disk w w' ->
    ∃ w'', extend_loop cfg python_re_search similar_words matching_sentences w'
           = (inr (matching_sentences
                   ++ concat ((fun word => contexts_for cfg python_re_search word w)
                              <$> similar_words)), w'')
      ∧ same_disk w w''
      ∧ trace w''
        = trace w'
          ++ ((fun _ => EvRead (CORPUS_FILE_PATH cfg))
              <$> filter (fun word =>
                            validate_input_string (VStr word) "input word" = None)
                         similar_words).
Proof.
  induction similar_words as [|word similar_words IH];
    intros matching_sentences w' Hdisk.
  - exists w'. cbn. by rewrite !app_nil_r.
  - cbn [extend_loop]. unfold bind.
    rewrite find_matching_sentences_for_word_run.
    rewrite <- (contexts_for_same_disk word w w' Hdisk).
    set (w1 := if bool_decide _ then _ else _).
    assert (same_disk w w1) as Hdisk1.
    { subst w1. destruct Hdisk. by case_bool_decide. }
    destruct (IH (matching_sentences ++ contexts_for cfg python_re_search word w)
                w1 Hdisk1) as (w'' & -> & Hdisk'' & Htrace).
    exists w''. split; [| split; [done |]].
    + by rewrite fmap_cons, concat_cons, app_assoc.
    + rewrite Htrace, filter_cons. subst w1.
      case_bool_decide as Hvalid.
      * destruct (decide _); [| done].
        rewrite fmap_cons. cbn [trace log]. by rewrite <- app_assoc.
      * by destruct (decide _).
Qed.

End Similar.

(** *** Reading the file, and the tokens in the saved file *)

Lemma file_operation_read (file_path : string) (data : option string) (w : world) :
  file_operation file_path "read" data w
  = let w' := log (EvRead file_path) w in
    match read_fault w with
    | None => (inr (Some (Py.text_mode (file_text w))), w')
    | Some FileNotFoundError => (inl FileNotFoundError, w')
    | Some _ => (inr (Some "exception occurred"), w')
    end.
Proof.
  unfold file_operation.
  rewrite (bool_decide_eq_true_2 ("read" = "read")) by done.
  unfold try_except, bind, open_read, ret, raise.
  destruct (read_fault w) as [[]|]; reflexivity.
Qed.

Lemma load_corpus_run (file_path : string) (w : world) :
  load_corpus file_path w
  = let w' := log (EvRead file_path) w in
    match read_fault w with
    | None => (inr (tokenize (file_text w)), w')
    | Some FileNotFoundError => (inl FileNotFoundError, w')
    | Some _ => (inr (tokenize "exception occurred"), w')
    end.
Proof.
  unfold load_corpus, try_except, bind. rewrite file_operation_read. cbv zeta.
  destruct (read_fault w) as [[]|]; try reflexivity.
  unfold ret. by rewrite tokenize_text_mode.
Qed.


Lemma chars_app (a b : string) : chars (a +:+ b) = chars a ++ chars b.
Proof. induction a as [|c a IH]; [done |]. simpl. by rewrite IH. Qed.

Lemma chars_join_cons (word : string) (words : list string) :
  chars (Py.join " " (word :: words))
  = chars word ++ match words with
                  | [] => []
                  | _ => " "%char :: chars (Py.join " " words)
                  end.
Proof.
  unfold Py.join. destruct words as [|word' words]; cbn [String.concat].
  - by rewrite app_nil_r.
  - by rewrite chars_app.
Qed.

(** A token followed by the end of the text or a blank is read back as
    that token. *)
Lemma runs_go_token (t rest : text) :
  token_shape t ->
  (match rest with d :: _ => Char.is_word d = false | [] => True end) ->
  runs_go [] (t ++ rest) = t :: runs_go [] rest.
Proof.
  intros [[Hne Hword] | (c & -> & Hc)] Hrest.
  - destruct t as [|c t]; [done |].
    rewrite runs_go_run by done. rewrite app_nil_r, (runs_go_flush _ rest Hrest).
    by rewrite flush_rev_cons.
  - cbn [app runs_go]. rewrite (mark_not_word c Hc). unfold is_mark.
    by rewrite bool_decide_eq_true_2.
Qed.

Lemma runs_go_join (words : list string) :
  Forall (fun word => token_shape (chars word)) words ->
  runs_go [] (chars (Py.join " " words)) = chars <$> words.
Proof.
  induction 1 as [|word words Hword Hwords IH]; [done |].
  rewrite chars_join_cons, fmap_cons. destruct words as [|word' words].
  - rewrite runs_go_token; [done | done | done].
  - rewrite runs_go_token; [| done | done].
    f_equal. cbn [runs_go]. 
    assert (Char.is_word " " = false) as -> by done.
    assert (is_mark " " = false) as -> by done.
    exact IH.
Qed.

Lemma fmap_str_chars (l : list string) : str <$> (chars <$> l) = l.
Proof.
  induction l as [|t l IH]; [done |].
  cbn [fmap list_fmap]. f_equal; [apply str_chars | apply IH].
Qed.

Lemma tokenize_tokens (corpus_text : string) :
  Forall (fun word => token_shape (chars word)) (tokenize corpus_text).
Proof.
  unfold tokenize. rewrite findall_tokens. apply Forall_fmap.
  eapply Forall_impl; [apply (runs_go_shape _ []); constructor |].
  intros t Ht. simpl. by rewrite chars_str.
Qed.

Lemma tokenize_join (words : list string) :
  tokenize (Py.join " " words) = words
  <-> Forall (fun word => token_shape (chars word)) words.
Proof.
  split.
  - intros <-. apply tokenize_tokens.
  - intros Hwords. unfold tokenize.
    by rewrite findall_tokens, (runs_go_join _ Hwords), fmap_str_chars.
Qed.


(** *** A replacement that finds nothing *)

Lemma join_blank_separated (words : list string) :
  Py.join " " words = blank_separated words.
Proof.
  unfold Py.join. induction words as [|word words IH]; [done |].
  destruct words as [|word' words]; [done |].
  cbn [String.concat blank_separated] in *. by rewrite IH.
Qed.

Section ReplaceNothing.
Variable cfg : config.

(** C10.  When no token equals the old word up to case, replacing leaves
    the corpus in memory as it was and still writes it out: the save is
    attempted with the unchanged tokens, one blank between them; when the
    disk allows it the file holds just that text afterwards, from which a
    corpus of tokens loads back as it is; and only then, unless the save
    raised, comes the message and status that the error table lists under
    [not_found_in_corpus].  Removing a word that does not occur is
    answered with the 404 and touches nothing: no save is attempted. *)
Theorem replace_without_match_still_saves (r : request) (w : world)
    (fields : gmap string value) (old_word new_word : string)
    (fallback not_found : error_info) :
  json r = Some (JObject fields) ->
  fields !! "old_word" = Some (VStr old_word) ->
  fields !! "new_word" = Some (VStr new_word) ->
  validate_input_string (VStr old_word) "old word" = None ->
  validate_input_string (VStr new_word) "new word" = None ->
  Forall (fun word => ¬ matches_old old_word word) (word_list w) ->
  ERROR_MESSAGES cfg !! "internal_error" = Some fallback ->
  ERROR_MESSAGES cfg !! "not_found_in_corpus" = Some not_found ->
  let out := replace_word cfg r w in
  word_list (snd out) = word_list w
  ∧ trace (snd out)
    = trace w
      ++ [EvWrite (CORPUS_FILE_PATH cfg) (blank_separated (word_list w))]
  ∧ (write_fault w = None ->
     file_text (snd out) = blank_separated (word_list w)
     ∧ (read_fault w = None ->
        Forall (fun word => token_shape (chars word)) (word_list w) ->
        fst (load_corpus (CORPUS_FILE_PATH cfg) (snd out))
        = inr (word_list w)))
  ∧ (write_fault w ≠ Some FileNotFoundError ->
     fst out = inr (JsonError (message not_found), status_code not_found))
  ∧ (∀ r' : request,
       args_get r' "word" = VStr old_word ->
       validate_input_string (VStr old_word) "target word" = None ->
       remove_similar_word cfg r' w
       = (inr (JsonError ("No occurrences of word '" +:+ old_word
                          +:+ "' found in the corpus"), 404%Z), w)).
Proof.
  intros Hjson Hold Hnew Hvold Hvnew Hnone Hfb Hnf out.
  assert (length (filter (matches_old old_word) (word_list w)) = 0) as Hzero.
  { induction Hnone as [|word words Hword _ IH]; [done |].
    rewrite filter_cons. by destruct (decide (matches_old old_word word)). }
  assert (out = replace_word cfg r w) as Hout by done.
  rewrite (replace_word_run cfg r w fields old_word new_word
             Hjson Hold Hnew Hvold Hvnew) in Hout.
  cbv zeta in Hout.
  rewrite Hzero, (replaced_none _ _ _ Hzero), bool_decide_eq_false_2 in Hout by lia.
  rewrite set_word_list_same, join_blank_separated in Hout.
  pose proof (handle_error_entry cfg "not_found_in_corpus" fallback not_found)
    as Hanswer.
  split; [| split; [| split; [| split]]].
  - rewrite Hout. destruct (write_fault w) as [[]|];
      by rewrite handle_error_world.
  - rewrite Hout. destruct (write_fault w) as [[]|];
      by rewrite handle_error_world.
  - intros Hfault. rewrite Hout, Hfault, handle_error_world.
    split; [done |]. intros Hrf Htokens.
    rewrite load_corpus_run. cbv zeta.
    cbn [read_fault set_file_text log file_text fst]. rewrite Hrf.
    rewrite <- join_blank_separated. cbn [fst]. f_equal.
    by apply tokenize_join.
  - intros Hfault. rewrite Hout.
    destruct (write_fault w) as [[]|]; try done; by rewrite Hanswer.
  - intros r' Hget Hvalid.
    rewrite (remove_similar_word_run cfg r' w old_word Hget Hvalid). cbv zeta.
    assert (old_word ∉ word_list w) as Habs.
    { intros Hin. apply (proj1 (Forall_forall _ _) Hnone) in Hin.
      by apply Hin. }
    destruct (list_remove_absent _ _ Habs) as [-> ->].
    rewrite bool_decide_eq_false_2 by lia. by rewrite set_word_list_same.
Qed.
End ReplaceNothing.

(** A run: the corpus is "dog", "fox" while the file holds something
    else; replacing the absent "cat" writes "dog fox" to the file and
    answers with the 404 entry. *)
Lemma replace_without_match_witness :
  validate_input_string (VStr "cat") "old word" = None
  ∧ validate_input_string (VStr "feline") "new word" = None
  ∧ Forall (fun word => ¬ matches_old "cat" word) ["dog"; "fox"]
  ∧ replace_word (sample_config 5)
      (post (<["old_word" := VStr "cat"]> {["new_word" := VStr "feline"]}))
      (disk ["dog"; "fox"] "A dog.")
    = (inr (JsonError "Not found in corpus", 404%Z),
       {| word_list := ["dog"; "fox"]; file_text := "dog fox";
          read_fault := None; write_fault := None;
          trace := [EvWrite "hemingway.txt" "dog fox"] |}).
Proof.
  assert (Forall (fun word => ¬ matches_old "cat" word) ["dog"; "fox"]) as Hnone.
  { repeat constructor; by vm_compute. }
  split; [reflexivity |]. split; [reflexivity |]. split; [exact Hnone |].
  pose proof (replace_without_match_still_saves (sample_config 5)
                (post (<["old_word" := VStr "cat"]> {["new_word" := VStr "feline"]}))
                (disk ["dog"; "fox"] "A dog.")
                (<["old_word" := VStr "cat"]> {["new_word" := VStr "feline"]})
                "cat" "feline"
                {| message := "Internal error"; status_code := 500 |}
                {| message := "Not found in corpus"; status_code := 404 |}
                eq_refl eq_refl eq_refl eq_refl eq_refl Hnone eq_refl eq_refl)
    as (Hwords & Htrace & Hfile & Hanswer & _).
  destruct (replace_word _ _ _) as [answer [words contents rf wf tr]] eqn:Hrun.
  cbn [fst snd word_list trace file_text] in *.
  rewrite (Hanswer ltac:(discriminate)), Hwords, Htrace,
    (proj1 (Hfile eq_refl)).
  assert (rf = None ∧ wf = None) as [-> ->]; [| done].
  revert Hrun. vm_compute. by intros [= _ _ _ <- <- _].
Defined.

(** *** The first three words *)

Lemma split_go_no_separator (sep : ascii) (l cur : text) :
  sep ∉ l -> Py.split_go sep cur l = [rev cur ++ l].
Proof.
  revert cur. induction l as [|c l IH]; intros cur Hsep.
  - by rewrite app_nil_r.
  - apply not_elem_of_cons in Hsep as [Hne Hsep]. cbn [Py.split_go].
    rewrite bool_decide_eq_false_2 by done. rewrite IH by done.
    simpl. by rewrite <- app_assoc.
Qed.

Lemma split_no_separator (sep : ascii) (s : string) :
  sep ∉ chars s -> Py.split sep s = [s].
Proof.
  intros Hsep. unfold Py.split. rewrite split_go_no_separator by done.
  simpl. by rewrite str_chars.
Qed.

(** Cutting at the commas gives back the words that were written with
    commas between them. *)
Lemma split_go_field (sep : ascii) (field rest cur : text) :
  sep ∉ field ->
  Py.split_go sep cur (field ++ sep :: rest)
  = (rev cur ++ field) :: Py.split_go sep [] rest.
Proof.
  revert cur. induction field as [|c field IH]; intros cur Hsep.
  - cbn [app Py.split_go]. rewrite bool_decide_eq_true_2 by done.
    by rewrite app_nil_r.
  - apply not_elem_of_cons in Hsep as [Hne Hsep]. cbn [app Py.split_go].
    rewrite bool_decide_eq_false_2 by done. rewrite IH by done.
    simpl. by rewrite <- app_assoc.
Qed.

Lemma split_comma_separated (given : list string) :
  given ≠ [] ->
  Forall (fun word => ","%char ∉ chars word) given ->
  Py.split ","%char (comma_separated given) = given.
Proof.
  intros Hne Hgiven. unfold Py.split.
  induction Hgiven as [|word given Hword Hgiven IH]; [done |].
  destruct given as [|word' given].
  - cbn [comma_separated]. rewrite split_go_no_separator by done.
    simpl. by rewrite str_chars.
  - change (comma_separated (word :: word' :: given))
      with (word +:+ "," +:+ comma_separated (word' :: given)).
    rewrite !chars_app. change (chars ",") with [","%char].
    cbn [app]. rewrite split_go_field by done.
    rewrite fmap_cons, IH by done. simpl. by rewrite str_chars.
Qed.

(** Every string is a list of words without commas written with commas
    between them. *)
Lemma split_go_nonempty (sep : ascii) (l cur : text) : Py.split_go sep cur l ≠ [].
Proof.
  revert cur. induction l as [|c l IH]; intros cur; cbn [Py.split_go]; [done |].
  case_bool_decide; [done | apply IH].
Qed.

Lemma not_elem_of_rev (c : ascii) (l : text) : c ∉ l -> c ∉ rev l.
Proof.
  intros Hc Hin. apply Hc. apply list_elem_of_In, in_rev.
  by apply list_elem_of_In.
Qed.

Lemma split_go_fields (sep : ascii) (l cur : text) :
  sep ∉ cur -> Forall (fun field => sep ∉ field) (Py.split_go sep cur l).
Proof.
  revert cur. induction l as [|c l IH]; intros cur Hcur; cbn [Py.split_go].
  - constructor; [| constructor]. by apply not_elem_of_rev.
  - case_bool_decide as Hc.
    + constructor; [by apply not_elem_of_rev |]. apply IH, not_elem_of_nil.
    + apply IH. apply not_elem_of_cons. split; [congruence | done].
Qed.

Lemma comma_separated_split_go (l cur : text) :
  chars (comma_separated (str <$> Py.split_go ","%char cur l)) = rev cur ++ l.
Proof.
  revert cur. induction l as [|c l IH]; intros cur; cbn [Py.split_go].
  - cbn. by rewrite chars_str, app_nil_r.
  - case_bool_decide as Hc.
    + subst c. rewrite fmap_cons. specialize (IH []).
      destruct (Py.split_go ","%char [] l) as [|field fields] eqn:Hsplit;
        [by apply split_go_nonempty in Hsplit |].
      rewrite fmap_cons in *.
      change (comma_separated (str (rev cur) :: str field :: (str <$> fields)))
        with (str (rev cur) +:+ "," +:+ comma_separated (str field :: (str <$> fields))).
      rewrite !chars_app, chars_str, IH. done.
    + rewrite IH. simpl. by rewrite <- app_assoc.
Qed.

Lemma comma_separated_split (s : string) :
  ∃ given, given ≠ []
    ∧ Forall (fun word => ","%char ∉ chars word) given
    ∧ s = comma_separated given.
Proof.
  exists (Py.split ","%char s). unfold Py.split. split; [| split].
  - intros Hnil. apply fmap_nil_inv in Hnil. by apply split_go_nonempty in Hnil.
  - apply Forall_fmap. eapply Forall_impl;
      [apply (split_go_fields ","%char (chars s) []), not_elem_of_nil |].
    intros field Hfield. simpl. by rewrite chars_str.
  - rewrite <- (str_chars s) at 1. rewrite <- (str_chars (comma_separated _)).
    f_equal. by rewrite comma_separated_split_go.
Qed.

Section FirstThree.
Variable cfg : config.
Variable python_re_search : string -> string -> exn + bool.

(** C9.  Let the parameter of [find_similar_sentences] be the words
    [given], none of them with a comma, written with commas between them.
    The handler uses the first three of them and no others: it runs the
    context extractor once for each of the three, in order (one read of
    the corpus file for each word that passes validation), and answers
    with the lists found, joined in the order of the words.  A request
    whose words have the same first three gets the same answer, and leaves
    the same state: what comes after the third word has no effect.
    (Every value of the parameter is such a list of words.) *)
Theorem similar_sentences_first_three (r : request) (w : world)
    (given : list string) :
  given ≠ [] ->
  Forall (fun word => ","%char ∉ chars word) given ->
  args_get r "similar_words" = VStr (comma_separated given) ->
  let words := take 3 given in
  let out := find_similar_sentences cfg python_re_search r w in
  fst out
  = inr (JsonMatching
           (concat ((fun word => contexts_for cfg python_re_search word w)
                    <$> words)), 200%Z)
  ∧ trace (snd out)
    = trace w
      ++ ((fun _ => EvRead (CORPUS_FILE_PATH cfg))
          <$> filter (fun word =>
                        validate_input_string (VStr word) "input word" = None)
                     words)
  ∧ (∀ (r' : request) (given' : list string),
       given' ≠ [] ->
       Forall (fun word => ","%char ∉ chars word) given' ->
       args_get r' "similar_words" = VStr (comma_separated given') ->
       take 3 given' = words ->
       find_similar_sentences cfg python_re_search r' w = out)
  ∧ (∀ similar_words : string,
       ∃ given', given' ≠ []
         ∧ Forall (fun word => ","%char ∉ chars word) given'
         ∧ similar_words = comma_separated given').
Proof.
  intros Hne Hgiven Hget words out.
  assert (∀ (r0 : request) (given0 : list string),
            given0 ≠ [] ->
            Forall (fun word => ","%char ∉ chars word) given0 ->
            args_get r0 "similar_words" = VStr (comma_separated given0) ->
            find_similar_sentences cfg python_re_search r0 w
            = try_except
                (matching_sentences <-
                   extend_loop cfg python_re_search (take 3 given0) [];;
                 ret (JsonMatching matching_sentences, 200%Z))
                (fun exc => handle_error cfg "internal_error") w) as Hrun.
  { intros r0 given0 Hne0 Hgiven0 Hget0. unfold find_similar_sentences.
    by rewrite Hget0, split_comma_separated. }
  assert (out = find_similar_sentences cfg python_re_search r w) as Hout by done.
  rewrite (Hrun r given Hne Hgiven Hget) in Hout. fold words in Hout.
  split; [| split; [| split; [| apply comma_separated_split]]].
  - rewrite Hout. unfold try_except, bind.
    by destruct (extend_loop_run cfg python_re_search w words [] w)
      as (w'' & -> & _ & _).
  - rewrite Hout. unfold try_except, bind.
    destruct (extend_loop_run cfg python_re_search w words [] w)
      as (w'' & -> & _ & Htrace); [done |]. exact Htrace.
  - intros r' given' Hne' Hgiven' Hget' Hsame.
    by rewrite (Hrun r' given' Hne' Hgiven' Hget'), Hsame, Hout.
Qed.
End FirstThree.

(** A run with four words, the third of them empty: the contexts of
    "fox", then those of "dog"; the empty word gives none, and the fourth
    word is not searched (it would add the contexts of "cat"). *)
Lemma similar_sentences_witness :
  ["fox"; "dog"; ""; "cat"] ≠ []
  ∧ Forall (fun word => ","%char ∉ chars word) ["fox"; "dog"; ""; "cat"]
  ∧ args_get (query "similar_words" "fox,dog,,cat") "similar_words"
    = VStr (comma_separated ["fox"; "dog"; ""; "cat"])
  ∧ find_similar_sentences (sample_config 2) no_general_search
      (query "similar_words" "fox,dog,,cat")
      (disk [] "A fox. The Dog! fox dog? A cat.")
    = (inr (JsonMatching ["A fox."; "fox d"; "e Dog!"; "x dog?"], 200%Z),
       {| word_list := []; file_text := "A fox. The Dog! fox dog? A cat.";
          read_fault := None; write_fault := None;
          trace := [EvRead "hemingway.txt"; EvRead "hemingway.txt"] |}).
Proof.
  assert (["fox"; "dog"; ""; "cat"] ≠ []) as Hne by discriminate.
  assert (Forall (fun word => ","%char ∉ chars word) ["fox"; "dog"; ""; "cat"])
    as Hgiven.
  { apply (bool_decide_unpack _). by vm_compute. }
  split; [exact Hne |]. split; [exact Hgiven |]. split; [reflexivity |].
  pose proof (similar_sentences_first_three (sample_config 2) no_general_search
                (query "similar_words" "fox,dog,,cat")
                (disk [] "A fox. The Dog! fox dog? A cat.")
                ["fox"; "dog"; ""; "cat"] Hne Hgiven eq_refl)
    as (Hanswer & Htrace & _).
  destruct (find_similar_sentences _ _ _ _)
    as [answer [words contents rf wf tr]] eqn:Hrun.
  cbn [fst snd trace] in Hanswer, Htrace. rewrite Hanswer, Htrace.
  revert Hrun. vm_compute. by intros [= _ <- <- <- <- _].
Defined.

(** ** The corpus store: faults *)

Lemma file_operation_write (file_path : string) (data : option string) (w : world) :
  file_operation file_path "write" data w
  = let written := default "" data in
    let w' := log (EvWrite file_path written) w in
    match write_fault w with
    | None =>
        match data with
        | Some _ => (inr (Some "write successful"), set_file_text written w')
        | None => (inr (Some "exception occurred"), set_file_text "" w')
        end
    | Some FileNotFoundError => (inl FileNotFoundError, w')
    | Some _ => (inr (Some "exception occurred"), w')
    end.
Proof.
  unfold file_operation.
  rewrite (bool_decide_eq_false_2 ("write" = "read")) by done.
  rewrite (bool_decide_eq_true_2 ("write" = "write")) by done.
  unfold try_except, bind, open_write, ret, raise.
  destruct data, (write_fault w) as [[]|]; reflexivity.
Qed.

Lemma file_operation_other (file_path operation : string) (data : option string)
    (w : world) :
  operation ≠ "read" -> operation ≠ "write" ->
  file_operation file_path operation data w = (inr None, w).
Proof.
  intros Hr Hw. unfold file_operation.
  by rewrite !bool_decide_eq_false_2 by done.
Qed.

(** X1.  [file_operation] lets one exception out, [FileNotFoundError], and
    only when opening the file raised just that; any other failure of the
    read or the write comes back as the string "exception occurred", as an
    ordinary result.  Writing no data empties the file and gives that
    string too.  An operation that is neither 'read' nor 'write' gives
    [None] without touching the disk.  The corpus in memory is never
    involved. *)
Theorem file_operation_only_raises_not_found (file_path operation : string)
    (data : option string) (w : world) :
  let out := file_operation file_path operation data w in
  (∀ exc, fst out = inl exc ->
     exc = FileNotFoundError
     ∧ ((operation = "read" ∧ read_fault w = Some FileNotFoundError)
        ∨ (operation = "write" ∧ write_fault w = Some FileNotFoundError)))
  ∧ (∀ e, operation = "read" -> read_fault w = Some e ->
       e ≠ FileNotFoundError ->
       fst out = inr (Some "exception occurred"))
  ∧ (∀ e, operation = "write" -> write_fault w = Some e ->
       e ≠ FileNotFoundError ->
       fst out = inr (Some "exception occurred")
       ∧ file_text (snd out) = file_text w)
  ∧ (operation = "write" -> data = None -> write_fault w = None ->
     fst out = inr (Some "exception occurred") ∧ file_text (snd out) = "")
  ∧ (operation ≠ "read" -> operation ≠ "write" -> out = (inr None, w))
  ∧ word_list (snd out) = word_list w.
Proof.
  intros out. subst out.
  destruct (decide (operation = "read")) as [-> | Hr].
  { rewrite file_operation_read. cbv zeta.
    destruct (read_fault w) as [[]|]; split_and!; intros; simplify_eq/=;
      try done; split; eauto. }
  destruct (decide (operation = "write")) as [-> | Hw].
  { rewrite file_operation_write. cbv zeta.
    destruct data, (write_fault w) as [[]|]; split_and!; intros; simplify_eq/=;
      try done; split; eauto. }
  rewrite file_operation_other by done. split_and!; intros; simplify_eq/=; done.
Qed.

(** X2.  Loading the corpus raises only for a missing file.  When
    reading fails in any other way, the text "exception occurred" that
    [file_operation] hands back is tokenized as if it were the corpus:
    the load succeeds with the two words "exception" and "occurred".  In
    both cases the one read is all that has happened. *)
Theorem load_corpus_reads_error_text (file_path : string) (w : world) (e : exn) :
  read_fault w = Some e ->
  snd (load_corpus file_path w) = log (EvRead file_path) w
  ∧ (e = FileNotFoundError ->
     fst (load_corpus file_path w) = inl FileNotFoundError)
  ∧ (e ≠ FileNotFoundError ->
     fst (load_corpus file_path w) = inr ["exception"; "occurred"]).
Proof.
  intros Hfault. rewrite !load_corpus_run. cbv zeta.
  rewrite Hfault. split; [by destruct e |]. split.
  - by intros ->.
  - intros Hne. destruct e; done.
Qed.

Lemma load_corpus_reads_error_text_witness :
  read_fault {| word_list := []; file_text := "A fox."; read_fault := Some OSError;
                write_fault := None; trace := [] |} = Some OSError
  ∧ fst (load_corpus "hemingway.txt"
           {| word_list := []; file_text := "A fox."; read_fault := Some OSError;
              write_fault := None; trace := [] |})
    = inr ["exception"; "occurred"].
Proof.
  split; [reflexivity |].
  apply (load_corpus_reads_error_text "hemingway.txt"
           {| word_list := []; file_text := "A fox."; read_fault := Some OSError;
              write_fault := None; trace := [] |} OSError eq_refl).
  discriminate.
Defined.

(** ** The error table *)

(** X3.  [handle_error] looks the fallback entry up before anything else:
    without an 'internal_error' entry it raises [KeyError] for every kind,
    listed or not.  With it, a listed kind gives its own message and
    status and an unlisted kind gives those of 'internal_error'.  The state
    is never touched. *)
Theorem handle_error_fallback (cfg : config) (error_type : string) (w : world) :
  snd (handle_error cfg error_type w) = w
  ∧ (ERROR_MESSAGES cfg !! "internal_error" = None ->
     fst (handle_error cfg error_type w) = inl KeyError)
  ∧ (∀ fallback, ERROR_MESSAGES cfg !! "internal_error" = Some fallback ->
       ERROR_MESSAGES cfg !! error_type = None ->
       fst (handle_error cfg error_type w)
       = inr (JsonError (message fallback), status_code fallback))
  ∧ (∀ fallback info, ERROR_MESSAGES cfg !! "internal_error" = Some fallback ->
       ERROR_MESSAGES cfg !! error_type = Some info ->
       fst (handle_error cfg error_type w)
       = inr (JsonError (message info), status_code info)).
Proof.
  unfold handle_error. split_and!.
  - by destruct (ERROR_MESSAGES cfg !! "internal_error").
  - by intros ->.
  - by intros fallback -> ->.
  - by intros fallback info -> ->.
Qed.

(** ** Input validation *)

Lemma strip_chars_nil (l : text) :
  Py.strip_chars l = [] <-> Forall (fun c => Char.is_space c = true) l.
Proof.
  split.
  - intros Hnil. destruct (strip_chars_trimmed l) as (a & b & Hl & Ha & Hb & _).
    rewrite Hnil in Hl. rewrite Hl. simpl. by apply Forall_app.
  - intros Hall. unfold Py.strip_chars. by rewrite (drop_while_all _ _ Hall).
Qed.

Lemma str_nil (l : text) : str l = "" <-> l = [].
Proof.
  split; [| by intros ->].
  intros H. apply (f_equal chars) in H. by rewrite chars_str in H.
Qed.

Lemma all_or_exists (p : ascii -> bool) (l : text) :
  Forall (fun c => p c = true) l ∨ Exists (fun c => p c = false) l.
Proof.
  induction l as [|c l [IH | IH]]; [by left | |].
  - destruct (p c) eqn:Hc; [left; by constructor | right; by constructor].
  - right. by constructor.
Qed.

Lemma strip_nonempty (s : string) :
  Py.strip s ≠ "" <-> Exists (fun c => Char.is_space c = false) (chars s).
Proof.
  unfold Py.strip. split.
  - intros Hne. destruct (all_or_exists Char.is_space (chars s)) as [Hall | Hex];
      [| done].
    exfalso. by apply Hne, str_nil, strip_chars_nil.
  - intros Hex Hnil. apply str_nil, strip_chars_nil in Hnil.
    apply Exists_exists in Hex as (c & Hin & Hc).
    apply (proj1 (Forall_forall _ _) Hnil) in Hin. congruence.
Qed.

Lemma validate_str (s : string) (field_name : string) :
  validate_input_string (VStr s) field_name = None
  <-> Exists (fun c => Char.is_space c = false) (chars s).
Proof.
  rewrite <- strip_nonempty. unfold validate_input_string. cbn.
  case_bool_decide as Hs; cbn.
  - subst s. split; [done |]. intros Hne. by vm_compute in Hne.
  - case_bool_decide as Hstrip; cbn; [by split | by split].
Qed.

(** X4.  [validate_input_string] accepts exactly the strings that hold at
    least one character that is not whitespace; [None], the empty string,
    strings of whitespace and values that are not strings all get the
    message naming the field. *)
Theorem validate_accepts_nonblank_strings (input_value : value)
    (field_name : string) :
  (validate_input_string input_value field_name = None
   <-> ∃ s, input_value = VStr s
          ∧ Exists (fun c => Char.is_space c = false) (chars s))
  ∧ (validate_input_string input_value field_name ≠ None ->
     validate_input_string input_value field_name
     = Some ("Invalid or missing " +:+ field_name)).
Proof.
  split.
  - destruct input_value as [|s|b].
    + split; [done | by intros (s & ? & _)].
    + rewrite validate_str. split; [by exists s |].
      by intros (s' & [= <-] & Hne).
    + split; [by destruct b | by intros (s & ? & _)].
  - unfold validate_input_string. by destruct (_ || _).
Qed.

(** ** Saving and loading again *)

(** X5.  Saving a word list and loading the file again gives the list
    back exactly when every word is a token (a run of word characters or
    one of the five marks); otherwise the load gives the tokens of the
    words joined with blanks, which is a different list. *)
Theorem save_load_round_trip (file_path : string) (words : list string)
    (w : world) :
  write_fault w = None -> read_fault w = None ->
  fst (load_corpus file_path (snd (save_corpus file_path words w)))
  = inr (tokenize (Py.join " " words))
  ∧ (fst (load_corpus file_path (snd (save_corpus file_path words w)))
     = inr words
     <-> Forall (fun word => token_shape (chars word)) words).
Proof.
  intros Hwf Hrf. rewrite save_corpus_run. cbv zeta. rewrite Hwf. cbn [snd].
  rewrite load_corpus_run. cbv zeta.
  cbn [read_fault set_file_text log file_text]. rewrite Hrf.
  cbn [fst]. split; [done |]. rewrite <- tokenize_join. split; congruence.
Qed.

Lemma save_load_round_trip_witness :
  write_fault (disk [] "") = None ∧ read_fault (disk [] "") = None
  ∧ fst (load_corpus "c" (snd (save_corpus "c" ["ice cream"; "."] (disk [] ""))))
    = inr (tokenize (Py.join " " ["ice cream"; "."])).
Proof.
  split; [reflexivity |]. split; [reflexivity |].
  exact (proj1 (save_load_round_trip "c" ["ice cream"; "."] (disk [] "")
                  eq_refl eq_refl)).
Defined.

Lemma startup_run (cfg : config) (w : world) :
  read_fault w = None ->
  startup cfg w
  = (inr tt, set_word_list (tokenize (file_text w))
               (log (EvRead (CORPUS_FILE_PATH cfg)) w)).
Proof.
  intros Hrf. unfold startup, bind. rewrite load_corpus_run. cbv zeta.
  by rewrite Hrf.
Qed.

(** X6.  What the tokenizer produced survives a save: joining the tokens
    of a text with blanks and tokenizing again gives the same tokens, so
    after start-up, saving the corpus and starting up again restores the
    corpus in memory. *)
Theorem restart_after_save (cfg : config) (w : world) :
  write_fault w = None -> read_fault w = None ->
  (∀ corpus_text, tokenize (Py.join " " (tokenize corpus_text))
                  = tokenize corpus_text)
  ∧ let w1 := snd (startup cfg w) in
    let w2 := snd (save_corpus (CORPUS_FILE_PATH cfg) (word_list w1) w1) in
    word_list w1 = tokenize (file_text w)
    ∧ word_list (snd (startup cfg w2)) = word_list w1.
Proof.
  intros Hwf Hrf.
  assert (∀ corpus_text, tokenize (Py.join " " (tokenize corpus_text))
                         = tokenize corpus_text) as Hidem.
  { intros corpus_text. apply tokenize_join, tokenize_tokens. }
  split; [exact Hidem |].
  rewrite (startup_run cfg w Hrf). cbn [snd set_word_list word_list].
  split; [done |]. rewrite save_corpus_run. cbv zeta.
  cbn [write_fault log set_word_list]. rewrite Hwf. cbn [snd].
  rewrite startup_run by done.
  cbn [snd set_word_list word_list set_file_text file_text]. apply Hidem.
Qed.

Lemma restart_after_save_witness :
  write_fault (disk [] "A fox.") = None ∧ read_fault (disk [] "A fox.") = None
  ∧ tokenize (Py.join " " (tokenize "it's 3.14")) = tokenize "it's 3.14".
Proof.
  split; [reflexivity |]. split; [reflexivity |].
  exact (proj1 (restart_after_save (sample_config 5) (disk [] "A fox.")
                  eq_refl eq_refl) "it's 3.14").
Defined.

(** ** What every handler keeps *)

Lemma only_logged_refl (w : world) : only_logged w w.
Proof. repeat split. exists []. by rewrite app_nil_r. Qed.

Lemma only_logged_log (e : event) (w w' : world) :
  only_logged w w' -> only_logged w (log e w').
Proof.
  intros (H1 & H2 & H3 & H4 & events & H5). repeat split; try done.
  exists (events ++ [e]). cbn. by rewrite H5, app_assoc.
Qed.

Lemma only_logged_trans (w1 w2 w3 : world) :
  only_logged w1 w2 -> only_logged w2 w3 -> only_logged w1 w3.
Proof.
  intros (H1 & H2 & H3 & H4 & ev & H5) (K1 & K2 & K3 & K4 & ev' & K5).
  repeat split; try congruence.
  exists (ev ++ ev'). by rewrite K5, H5, app_assoc.
Qed.

Section Always.
Variable cfg : config.
Variable python_re_search : string -> string -> exn + bool.
Variable custom_vocab : gset string.
Variable find_most_similar_words :
  string -> gset string -> list string -> exn + list string.

Lemma try_except_answers (m : M response) (w : world) (fallback : error_info) :
  ERROR_MESSAGES cfg !! "internal_error" = Some fallback ->
  answers (try_except m (fun _ => handle_error cfg "internal_error") w).
Proof.
  intros Hfb. unfold answers, try_except, handle_error.
  destruct (m w) as [[exc | resp] w']; rewrite ?Hfb; eauto.
Qed.

Lemma try_except_world (m : M response) (handler : exn -> M response)
    (w : world) :
  (∀ exc w', snd (handler exc w') = w') ->
  snd (try_except m handler w) = snd (m w).
Proof.
  intros Hh. unfold try_except. destruct (m w) as [[exc | resp] w']; [| done].
  apply Hh.
Qed.

(** X7.  With an 'internal_error' entry in the error table, every handler
    ends with an answer: whatever is raised on the way (a body that is not
    JSON, a missing parameter, a failing lookup, a file that cannot be
    opened) is caught and turned into a response. *)
Theorem handlers_always_answer (fallback : error_info) (r : request) (w : world) :
  ERROR_MESSAGES cfg !! "internal_error" = Some fallback ->
  answers (get_similar_words cfg custom_vocab find_most_similar_words r w)
  ∧ answers (find_similar_sentences cfg python_re_search r w)
  ∧ answers (find_matching_sentences cfg python_re_search r w)
  ∧ answers (add_word cfg r w)
  ∧ answers (remove_similar_word cfg r w)
  ∧ answers (replace_word cfg r w)
  ∧ answers (get_corpus cfg r w).
Proof.
  intros Hfb. split_and!; try by eapply try_except_answers.
  unfold answers, add_word, try_except, handle_error.
  destruct (bind _ _ w) as [[exc | resp] w']; rewrite ?Hfb; [| eauto].
  destruct (Py.is_IOError exc); eauto.
Qed.

Lemma find_matching_sentences_for_word_world (v : value) (w : world) :
  only_logged w (snd (find_matching_sentences_for_word cfg python_re_search v w))
  ∧ answers (find_matching_sentences_for_word cfg python_re_search v w).
Proof.
  unfold find_matching_sentences_for_word, answers.
  destruct (validate_input_string v "input word").
  { split; [apply only_logged_refl | by exists []]. }
  unfold try_except, bind, as_str, open_read, lift, ret, raise.
  destruct v as [|s|b]; try (split; [apply only_logged_refl | by eexists]).
  destruct (read_fault w);
    [split; [apply only_logged_log, only_logged_refl | by eexists] |].
  destruct (sentences_loop _ _ _ _ _);
    (split; [apply only_logged_log, only_logged_refl | by eexists]).
Qed.

Lemma extend_loop_world (similar_words : list string) :
  forall (matching_sentences : list string) (w : world),
    only_logged w (snd (extend_loop cfg python_re_search similar_words
                          matching_sentences w))
    ∧ answers (extend_loop cfg python_re_search similar_words
                 matching_sentences w).
Proof.
  induction similar_words as [|word similar_words IH]; intros acc w.
  - split; [apply only_logged_refl | by exists acc].
  - cbn [extend_loop]. unfold bind.
    destruct (find_matching_sentences_for_word_world (VStr word) w)
      as [Hlog [found Hfound]].
    destruct (find_matching_sentences_for_word _ _ _ w) as [res w1].
    simpl in Hfound, Hlog. subst res.
    destruct (IH (acc ++ found) w1) as [Hlog' Hans]. split; [| done].
    by eapply only_logged_trans.
Qed.

(** X8.  The four handlers that only read leave the corpus in memory, the
    corpus file and the disk's condition as they were: all that a call of
    [similar_words], [find_similar_sentences] or [find_matching_sentences]
    adds is the lookups and reads it made, and [get_corpus] adds nothing. *)
Theorem reading_handlers_only_log (r : request) (w : world) :
  only_logged w
    (snd (get_similar_words cfg custom_vocab find_most_similar_words r w))
  ∧ only_logged w (snd (find_similar_sentences cfg python_re_search r w))
  ∧ only_logged w (snd (find_matching_sentences cfg python_re_search r w))
  ∧ snd (get_corpus cfg r w) = w.
Proof.
  split_and!.
  - unfold get_similar_words.
    rewrite try_except_world by (intros; apply handle_error_world).
    destruct (validate_input_string _ _).
    { rewrite handle_error_world. apply only_logged_refl. }
    unfold bind, as_str, ret, raise, get_word_list.
    destruct (args_get r "w"); try apply only_logged_refl.
    destruct (find_most_similar_words _ _ _);
      apply only_logged_log, only_logged_refl.
  - unfold find_similar_sentences.
    rewrite try_except_world by (intros; apply handle_error_world).
    destruct (args_get r "similar_words") as [|s|b]; try apply only_logged_refl.
    unfold bind.
    pose proof (extend_loop_world (take 3 (Py.split "," s)) [] w) as [Hlog [l Hl]].
    destruct (extend_loop _ _ _ _ w) as [res w1]. simpl in *. by subst res.
  - unfold find_matching_sentences.
    rewrite try_except_world by (intros; apply handle_error_world).
    unfold bind.
    pose proof (find_matching_sentences_for_word_world (args_get r "input") w)
      as [Hlog [l Hl]].
    destruct (find_matching_sentences_for_word _ _ _ w) as [res w1].
    simpl in *. by subst res.
  - unfold get_corpus.
    by rewrite try_except_world by (intros; apply handle_error_world).
Qed.
End Always.

Lemma handlers_always_answer_witness :
  ERROR_MESSAGES (sample_config 5) !! "internal_error"
  = Some {| message := "Internal error"; status_code := 500 |}
  ∧ answers (add_word (sample_config 5) (query "word" "fox") (disk [] "")).
Proof.
  split; [reflexivity |].
  exact (proj1 (proj2 (proj2 (proj2
           (handlers_always_answer (sample_config 5) no_general_search ∅
              no_similarity {| message := "Internal error"; status_code := 500 |}
              (query "word" "fox") (disk [] "") eq_refl))))).
Defined.

(** ** What the mutations do to memory and disk *)

Section Mutations.
Variable cfg : config.

(** A request changes the state only if it carries valid input. *)
Lemma add_word_cases (r : request) (w : world) :
  snd (add_word cfg r w) = w
  ∨ ∃ fields new_word,
      json r = Some (JObject fields)
      ∧ fields !! "word" = Some (VStr new_word)
      ∧ validate_input_string (VStr new_word) "new word" = None.
Proof.
  unfold add_word.
  rewrite try_except_world
    by (intros exc w'; destruct (Py.is_IOError exc); apply handle_error_world).
  unfold bind, get_json, data_get, ret, raise.
  destruct (json r) as [[fields|]|]; [| by left | by left].
  destruct (fields !! "word") as [[|new_word|b]|] eqn:Hword; cbn [default from_option id].
  - left. apply handle_error_world.
  - destruct (validate_input_string (VStr new_word) "new word") eqn:Hv.
    + left. apply handle_error_world.
    + right. by exists fields, new_word.
  - left. assert (validate_input_string (VOther b) "new word" ≠ None) as Hv
      by (by destruct b).
    destruct (validate_input_string (VOther b) "new word"); [| done].
    apply handle_error_world.
  - left. apply handle_error_world.
Qed.

Lemma remove_similar_word_cases (r : request) (w : world) :
  snd (remove_similar_word cfg r w) = w
  ∨ ∃ target_word,
      args_get r "word" = VStr target_word
      ∧ validate_input_string (VStr target_word) "target word" = None.
Proof.
  destruct (args_get r "word") as [|target_word|b] eqn:Hget.
  - left. unfold remove_similar_word.
    rewrite try_except_world by (intros; apply handle_error_world).
    rewrite Hget. apply handle_error_world.
  - destruct (validate_input_string (VStr target_word) "target word") eqn:Hv.
    + left. unfold remove_similar_word.
      rewrite try_except_world by (intros; apply handle_error_world).
      rewrite Hget, Hv. apply handle_error_world.
    + right. by exists target_word.
  - left. unfold remove_similar_word.
    rewrite try_except_world by (intros; apply handle_error_world).
    rewrite Hget.
    assert (validate_input_string (VOther b) "target word" ≠ None) as Hv
      by (by destruct b).
    destruct (validate_input_string (VOther b) "target word"); [| done].
    apply handle_error_world.
Qed.

Lemma validate_str_only (v : value) (field_name : string) :
  validate_input_string v field_name = None -> ∃ s, v = VStr s.
Proof. destruct v as [|s|[]]; try done. by exists s. Qed.

Lemma replace_word_cases (r : request) (w : world) :
  snd (replace_word cfg r w) = w
  ∨ ∃ fields old_word new_word,
      json r = Some (JObject fields)
      ∧ fields !! "old_word" = Some (VStr old_word)
      ∧ fields !! "new_word" = Some (VStr new_word)
      ∧ validate_input_string (VStr old_word) "old word" = None
      ∧ validate_input_string (VStr new_word) "new word" = None.
Proof.
  unfold replace_word.
  rewrite try_except_world by (intros; apply handle_error_world).
  unfold bind, get_json, data_get, ret, raise.
  destruct (json r) as [[fields|]|]; [| by left | by left].
  destruct (validate_input_string (default VNone (fields !! "old_word")) "old word")
    eqn:Hvo; [left; apply handle_error_world |].
  destruct (validate_input_string (default VNone (fields !! "new_word")) "new word")
    eqn:Hvn; [left; apply handle_error_world |].
  destruct (validate_str_only _ _ Hvo) as [old_word Ho].
  destruct (validate_str_only _ _ Hvn) as [new_word Hn].
  right. exists fields, old_word, new_word. rewrite Ho in Hvo. rewrite Hn in Hvn.
  split; [done |].
  destruct (fields !! "old_word") as [x|]; [| done].
  destruct (fields !! "new_word") as [y|]; [| done].
  simpl in Ho, Hn. by subst.
Qed.

(** X9.  A mutation request that changes anything at all (the corpus, the
    file, even the trace of calls) carried valid input: a JSON object with
    string fields that are not blank for [add_word] and [replace_word], a
    [word] parameter that is not blank for [remove_similar_word].  A body
    that is not JSON, a JSON document that is not an object, a missing or
    non-string field all leave the state exactly as it was. *)
Theorem invalid_requests_change_nothing (r : request) (w : world) :
  (snd (add_word cfg r w) ≠ w ->
   ∃ fields new_word,
     json r = Some (JObject fields)
     ∧ fields !! "word" = Some (VStr new_word)
     ∧ validate_input_string (VStr new_word) "new word" = None)
  ∧ (snd (remove_similar_word cfg r w) ≠ w ->
     ∃ target_word,
       args_get r "word" = VStr target_word
       ∧ validate_input_string (VStr target_word) "target word" = None)
  ∧ (snd (replace_word cfg r w) ≠ w ->
     ∃ fields old_word new_word,
       json r = Some (JObject fields)
       ∧ fields !! "old_word" = Some (VStr old_word)
       ∧ fields !! "new_word" = Some (VStr new_word)
       ∧ validate_input_string (VStr old_word) "old word" = None
       ∧ validate_input_string (VStr new_word) "new word" = None).
Proof.
  split_and!; intros Hne.
  - by destruct (add_word_cases r w).
  - by destruct (remove_similar_word_cases r w).
  - by destruct (replace_word_cases r w).
Qed.

Lemma add_word_sync (r : request) (w : world) :
  write_fault w = None ->
  snd (add_word cfg r w) = w ∨ in_sync (snd (add_word cfg r w)).
Proof.
  intros Hwf.
  destruct (add_word_cases r w) as [? | (fields & new_word & Hj & Hf & Hv)];
    [by left | right].
  rewrite (add_word_run cfg r w fields new_word Hj Hf Hv). cbv zeta.
  by rewrite Hwf.
Qed.

Lemma remove_similar_word_sync (r : request) (w : world) :
  write_fault w = None ->
  snd (remove_similar_word cfg r w) = w
  ∨ in_sync (snd (remove_similar_word cfg r w)).
Proof.
  intros Hwf.
  destruct (remove_similar_word_cases r w) as [? | (target_word & Hget & Hv)];
    [by left |].
  rewrite (remove_similar_word_run cfg r w target_word Hget Hv). cbv zeta.
  rewrite Hwf. case_bool_decide as Hcount; [by right | left].
  cbn [snd].
  assert (target_word ∉ word_list w) as Habs.
  { intros Hin. destruct (list_remove_present _ _ Hin) as (? & _ & _ & ?). lia. }
  destruct (list_remove_absent _ _ Habs) as [-> _]. apply set_word_list_same.
Qed.

Lemma replace_word_sync (r : request) (w : world) :
  write_fault w = None ->
  snd (replace_word cfg r w) = w ∨ in_sync (snd (replace_word cfg r w)).
Proof.
  intros Hwf.
  destruct (replace_word_cases r w)
    as [? | (fields & old_word & new_word & Hj & Ho & Hn & Hvo & Hvn)];
    [by left | right].
  rewrite (replace_word_run cfg r w fields old_word new_word Hj Ho Hn Hvo Hvn).
  cbv zeta. rewrite Hwf. case_bool_decide; [done |].
  by rewrite handle_error_world.
Qed.

(** X10.  While the corpus file can be written, a mutation handler either
    leaves the state as it was or leaves the file holding exactly the
    corpus in memory, joined with blanks.  So a file that matched the
    memory still matches it after any request, and any request that
    changed something has brought the two in line, whatever the file held
    before (the raw text read at start-up, for one). *)
Theorem mutations_keep_file_in_sync (r : request) (w : world) :
  write_fault w = None ->
  (snd (add_word cfg r w) ≠ w -> in_sync (snd (add_word cfg r w)))
  ∧ (snd (remove_similar_word cfg r w) ≠ w ->
     in_sync (snd (remove_similar_word cfg r w)))
  ∧ (snd (replace_word cfg r w) ≠ w -> in_sync (snd (replace_word cfg r w)))
  ∧ (in_sync w ->
     in_sync (snd (add_word cfg r w))
     ∧ in_sync (snd (remove_similar_word cfg r w))
     ∧ in_sync (snd (replace_word cfg r w))).
Proof.
  intros Hwf.
  destruct (add_word_sync r w Hwf) as [Ha | Ha];
    destruct (remove_similar_word_sync r w Hwf) as [Hr | Hr];
    destruct (replace_word_sync r w Hwf) as [Hp | Hp];
    split_and!; intros; rewrite ?Ha, ?Hr, ?Hp; done.
Qed.
End Mutations.

Lemma mutations_keep_file_in_sync_witness :
  write_fault (disk ["A"; "fox"; "."] "A fox.") = None
  ∧ in_sync (snd (add_word (sample_config 5) (post {["word" := VStr "ran"]})
                    (disk ["A"; "fox"; "."] "A fox."))).
Proof.
  split; [reflexivity |].
  refine (proj1 (mutations_keep_file_in_sync (sample_config 5)
                   (post {["word" := VStr "ran"]})
                   (disk ["A"; "fox"; "."] "A fox.") eq_refl) _).
  vm_compute. intros [=].
Defined.

(** ** A save that fails, in general *)

Section FailedSave.
Variable cfg : config.

Lemma present_count (x : string) (l : list string) :
  x ∈ l <-> 0 < length (filter (fun y => y = x) l).
Proof.
  split.
  - intros Hin. destruct (list_remove_present _ _ Hin) as (? & _ & _ & ->). lia.
  - intros Hpos. destruct (decide (x ∈ l)) as [| Habs]; [done |].
    destruct (list_remove_absent _ _ Habs) as [_ Hz]. lia.
Qed.

(** X11.  When the corpus file cannot be opened for writing, for a reason
    other than a missing path, every mutation with valid input is answered
    exactly as if the save had worked: 201 for an added word, 200 with the
    count for a removal or a replacement that found the word.  The corpus
    in memory has changed; the file, which was never opened, has not. *)
Theorem unwritable_file_reported_as_success (w : world) (e : exn) :
  write_fault w = Some e -> e ≠ FileNotFoundError ->
  (∀ r fields new_word,
     json r = Some (JObject fields) ->
     fields !! "word" = Some (VStr new_word) ->
     validate_input_string (VStr new_word) "new word" = None ->
     fst (add_word cfg r w)
     = inr (JsonMessage ("Word '" +:+ new_word +:+ "' added to the corpus"),
            201%Z)
     ∧ word_list (snd (add_word cfg r w)) = word_list w ++ [new_word]
     ∧ file_text (snd (add_word cfg r w)) = file_text w)
  ∧ (∀ r target_word,
       args_get r "word" = VStr target_word ->
       validate_input_string (VStr target_word) "target word" = None ->
       target_word ∈ word_list w ->
       fst (remove_similar_word cfg r w)
       = inr (JsonMessage
                ("Removed "
                 +:+ pretty (length (filter (fun y => y = target_word)
                                       (word_list w)))
                 +:+ " occurrences of word '" +:+ target_word
                 +:+ "' from the corpus"), 200%Z)
       ∧ word_list (snd (remove_similar_word cfg r w))
         = filter (fun y => y ≠ target_word) (word_list w)
       ∧ file_text (snd (remove_similar_word cfg r w)) = file_text w)
  ∧ (∀ r fields old_word new_word,
       json r = Some (JObject fields) ->
       fields !! "old_word" = Some (VStr old_word) ->
       fields !! "new_word" = Some (VStr new_word) ->
       validate_input_string (VStr old_word) "old word" = None ->
       validate_input_string (VStr new_word) "new word" = None ->
       0 < length (filter (matches_old old_word) (word_list w)) ->
       fst (replace_word cfg r w)
       = inr (JsonMessage
                ("Replaced "
                 +:+ pretty (length (filter (matches_old old_word) (word_list w)))
                 +:+ "                             occurrences of '"
                 +:+ old_word +:+ "' with '" +:+ new_word
                 +:+ "' in the corpus"), 200%Z)
       ∧ word_list (snd (replace_word cfg r w))
         = replaced old_word new_word <$> word_list w
       ∧ file_text (snd (replace_word cfg r w)) = file_text w).
Proof.
  intros Hwf Hne. split_and!.
  - intros r fields new_word Hj Hf Hv.
    rewrite (add_word_run cfg r w fields new_word Hj Hf Hv). cbv zeta.
    rewrite Hwf. by destruct e.
  - intros r target_word Hget Hv Hin.
    rewrite (remove_similar_word_run cfg r w target_word Hget Hv). cbv zeta.
    rewrite bool_decide_eq_true_2 by (by apply present_count).
    rewrite Hwf. by destruct e.
  - intros r fields old_word new_word Hj Ho Hn Hvo Hvn Hpos.
    rewrite (replace_word_run cfg r w fields old_word new_word Hj Ho Hn Hvo Hvn).
    cbv zeta. rewrite bool_decide_eq_true_2 by done.
    rewrite Hwf. by destruct e.
Qed.

(** X12.  When the save raises [FileNotFoundError] the handlers answer
    with the 'internal_error' response, and nothing is rolled back: the
    word is in the corpus in memory (or gone from it, or replaced) all the
    same, while the file stays as it was. *)
Theorem missing_path_no_rollback (w : world) :
  write_fault w = Some FileNotFoundError ->
  (∀ r fields new_word,
     json r = Some (JObject fields) ->
     fields !! "word" = Some (VStr new_word) ->
     validate_input_string (VStr new_word) "new word" = None ->
     fst (add_word cfg r w) = fst (handle_error cfg "internal_error" w)
     ∧ word_list (snd (add_word cfg r w)) = word_list w ++ [new_word]
     ∧ file_text (snd (add_word cfg r w)) = file_text w)
  ∧ (∀ r target_word,
       args_get r "word" = VStr target_word ->
       validate_input_string (VStr target_word) "target word" = None ->
       target_word ∈ word_list w ->
       fst (remove_similar_word cfg r w)
       = fst (handle_error cfg "internal_error" w)
       ∧ word_list (snd (remove_similar_word cfg r w))
         = filter (fun y => y ≠ target_word) (word_list w)
       ∧ file_text (snd (remove_similar_word cfg r w)) = file_text w)
  ∧ (∀ r fields old_word new_word,
       json r = Some (JObject fields) ->
       fields !! "old_word" = Some (VStr old_word) ->
       fields !! "new_word" = Some (VStr new_word) ->
       validate_input_string (VStr old_word) "old word" = None ->
       validate_input_string (VStr new_word) "new word" = None ->
       fst (replace_word cfg r w) = fst (handle_error cfg "internal_error" w)
       ∧ word_list (snd (replace_word cfg r w))
         = replaced old_word new_word <$> word_list w
       ∧ file_text (snd (replace_word cfg r w)) = file_text w).
Proof.
  intros Hwf. split_and!.
  - intros r fields new_word Hj Hf Hv.
    rewrite (add_word_run cfg r w fields new_word Hj Hf Hv). cbv zeta.
    rewrite Hwf, handle_error_world. split; [apply handle_error_fst | done].
  - intros r target_word Hget Hv Hin.
    rewrite (remove_similar_word_run cfg r w target_word Hget Hv). cbv zeta.
    rewrite bool_decide_eq_true_2 by (by apply present_count).
    rewrite Hwf, handle_error_world. split; [apply handle_error_fst | done].
  - intros r fields old_word new_word Hj Ho Hn Hvo Hvn.
    rewrite (replace_word_run cfg r w fields old_word new_word Hj Ho Hn Hvo Hvn).
    cbv zeta. rewrite Hwf, handle_error_world.
    split; [apply handle_error_fst | done].
Qed.
End FailedSave.

Lemma unwritable_file_witness :
  write_fault (read_only_disk ["a"; "b"] "a b") = Some OSError
  ∧ OSError ≠ FileNotFoundError
  ∧ file_text (snd (remove_similar_word (sample_config 5) (query "word" "a")
                      (read_only_disk ["a"; "b"] "a b")))
    = file_text (read_only_disk ["a"; "b"] "a b").
Proof.
  assert (OSError ≠ FileNotFoundError) as Hne by discriminate.
  split; [reflexivity |]. split; [exact Hne |].
  refine (proj2 (proj2 (proj1 (proj2 (unwritable_file_reported_as_success
            (sample_config 5) (read_only_disk ["a"; "b"] "a b") OSError
            eq_refl Hne)) (query "word" "a") "a" eq_refl eq_refl _))).
  by apply list_elem_of_In; left.
Defined.

Lemma missing_path_witness :
  write_fault {| word_list := ["a"]; file_text := "a"; read_fault := None;
                 write_fault := Some FileNotFoundError; trace := [] |}
  = Some FileNotFoundError
  ∧ word_list (snd (add_word (sample_config 5) (post {["word" := VStr "b"]})
                      {| word_list := ["a"]; file_text := "a"; read_fault := None;
                         write_fault := Some FileNotFoundError; trace := [] |}))
    = ["a"] ++ ["b"].
Proof.
  split; [reflexivity |].
  exact (proj1 (proj2 (proj1 (missing_path_no_rollback (sample_config 5)
           {| word_list := ["a"]; file_text := "a"; read_fault := None;
              write_fault := Some FileNotFoundError; trace := [] |} eq_refl)
           (post {["word" := VStr "b"]}) {["word" := VStr "b"]} "b"
           eq_refl eq_refl eq_refl))).
Defined.

(** ** Mutations one after another *)

Lemma validate_field_name (v : value) (field_name field_name' : string) :
  validate_input_string v field_name = None ->
  validate_input_string v field_name' = None.
Proof. unfold validate_input_string. by destruct (_ || _). Qed.

Lemma filter_ne_absent (x : string) (l : list string) :
  x ∉ filter (fun y => y ≠ x) l.
Proof. intros Hin. apply list_elem_of_filter in Hin as [Hne _]. done. Qed.

Section Sequences.
Variable cfg : config.

Lemma remove_similar_word_words (r : request) (w : world) (target_word : string) :
  args_get r "word" = VStr target_word ->
  validate_input_string (VStr target_word) "target word" = None ->
  word_list (snd (remove_similar_word cfg r w))
  = filter (fun y => y ≠ target_word) (word_list w).
Proof.
  intros Hget Hv. rewrite (remove_similar_word_run cfg r w target_word Hget Hv).
  cbv zeta. case_bool_decide; [| done].
  destruct (write_fault w) as [[]|]; rewrite ?handle_error_world; done.
Qed.

Lemma remove_similar_word_absent (r : request) (w : world) (target_word : string) :
  args_get r "word" = VStr target_word ->
  validate_input_string (VStr target_word) "target word" = None ->
  target_word ∉ word_list w ->
  remove_similar_word cfg r w
  = (inr (JsonError ("No occurrences of word '" +:+ target_word
                     +:+ "' found in the corpus"), 404%Z), w).
Proof.
  intros Hget Hv Habs. rewrite (remove_similar_word_run cfg r w target_word Hget Hv).
  cbv zeta. destruct (list_remove_absent _ _ Habs) as [-> ->].
  rewrite bool_decide_eq_false_2 by lia. by rewrite set_word_list_same.
Qed.

(** X13.  After a removal the word is not in the corpus any more, the
    other tokens are all still there in their order, and removing the same
    word again is answered with the 404 and changes nothing, whatever the
    disk did the first time. *)
Theorem remove_twice (r : request) (w : world) (target_word : string) :
  args_get r "word" = VStr target_word ->
  validate_input_string (VStr target_word) "target word" = None ->
  let w1 := snd (remove_similar_word cfg r w) in
  (target_word ∉ word_list w1)
  ∧ (word_list w1 `sublist_of` word_list w)
  ∧ (∀ word, word ≠ target_word -> (word ∈ word_list w1 <-> word ∈ word_list w))
  ∧ remove_similar_word cfg r w1
    = (inr (JsonError ("No occurrences of word '" +:+ target_word
                       +:+ "' found in the corpus"), 404%Z), w1).
Proof.
  intros Hget Hv w1.
  assert (word_list w1 = filter (fun y => y ≠ target_word) (word_list w)) as Hw1
    by (by apply remove_similar_word_words).
  assert (target_word ∉ word_list w1) as Habs
    by (rewrite Hw1; apply filter_ne_absent).
  split_and!.
  - exact Habs.
  - rewrite Hw1. apply sublist_filter.
  - intros word Hne. rewrite Hw1, list_elem_of_filter. split; [by intros [_ ?] | by split].
  - by apply remove_similar_word_absent.
Qed.

Lemma add_word_words (r : request) (w : world) (fields : gmap string value)
    (new_word : string) :
  json r = Some (JObject fields) ->
  fields !! "word" = Some (VStr new_word) ->
  validate_input_string (VStr new_word) "new word" = None ->
  word_list (snd (add_word cfg r w)) = word_list w ++ [new_word].
Proof.
  intros Hj Hf Hv. rewrite (add_word_run cfg r w fields new_word Hj Hf Hv).
  cbv zeta. destruct (write_fault w) as [[]|]; rewrite ?handle_error_world; done.
Qed.

(** X14.  Adding a word and then removing it does not undo the addition
    in general: the removal takes every occurrence, so the corpus ends up
    as the original one without that word.  It is the original corpus
    again exactly when the word was not in it before. *)
Theorem add_then_remove (r_add r_remove : request) (w : world)
    (fields : gmap string value) (new_word : string) :
  json r_add = Some (JObject fields) ->
  fields !! "word" = Some (VStr new_word) ->
  validate_input_string (VStr new_word) "new word" = None ->
  args_get r_remove "word" = VStr new_word ->
  let w2 := snd (remove_similar_word cfg r_remove (snd (add_word cfg r_add w))) in
  word_list w2 = filter (fun y => y ≠ new_word) (word_list w)
  ∧ (word_list w2 = word_list w <-> new_word ∉ word_list w).
Proof.
  intros Hj Hf Hv Hget w2.
  assert (word_list w2 = filter (fun y => y ≠ new_word) (word_list w)) as Hw2.
  { subst w2. rewrite (remove_similar_word_words _ _ new_word Hget)
      by (by eapply validate_field_name).
    rewrite (add_word_words r_add w fields new_word Hj Hf Hv).
    rewrite filter_app, filter_cons, filter_nil.
    destruct (decide (new_word ≠ new_word)); [done |]. by rewrite app_nil_r. }
  split; [exact Hw2 |]. rewrite Hw2. split.
  - intros Heq Hin. rewrite <- Heq in Hin. by apply filter_ne_absent in Hin.
  - intros Habs. by destruct (list_remove_absent _ _ Habs).
Qed.
End Sequences.

Lemma remove_twice_witness :
  args_get (query "word" "a") "word" = VStr "a"
  ∧ validate_input_string (VStr "a") "target word" = None
  ∧ "a" ∉ word_list (snd (remove_similar_word (sample_config 5) (query "word" "a")
                            (disk ["a"; "b"; "a"] "a b a"))).
Proof.
  split; [reflexivity |]. split; [reflexivity |].
  exact (proj1 (remove_twice (sample_config 5) (query "word" "a")
                  (disk ["a"; "b"; "a"] "a b a") "a" eq_refl eq_refl)).
Defined.

Lemma add_then_remove_witness :
  json (post {["word" := VStr "a"]}) = Some (JObject {["word" := VStr "a"]})
  ∧ validate_input_string (VStr "a") "new word" = None
  ∧ args_get (query "word" "a") "word" = VStr "a"
  ∧ word_list (snd (remove_similar_word (sample_config 5) (query "word" "a")
                      (snd (add_word (sample_config 5) (post {["word" := VStr "a"]})
                              (disk ["a"; "b"] "a b")))))
    = filter (fun y => y ≠ "a") ["a"; "b"].
Proof.
  split; [reflexivity |]. split; [reflexivity |]. split; [reflexivity |].
  exact (proj1 (add_then_remove (sample_config 5) (post {["word" := VStr "a"]})
                  (query "word" "a") (disk ["a"; "b"] "a b")
                  {["word" := VStr "a"]} "a" eq_refl eq_refl eq_refl eq_refl)).
Defined.

Section ReplaceAgain.
Variable cfg : config.

Lemma replace_word_words (r : request) (w : world) (fields : gmap string value)
    (old_word new_word : string) :
  json r = Some (JObject fields) ->
  fields !! "old_word" = Some (VStr old_word) ->
  fields !! "new_word" = Some (VStr new_word) ->
  validate_input_string (VStr old_word) "old word" = None ->
  validate_input_string (VStr new_word) "new word" = None ->
  word_list (snd (replace_word cfg r w)) = replaced old_word new_word <$> word_list w
  ∧ write_fault (snd (replace_word cfg r w)) = write_fault w.
Proof.
  intros Hj Ho Hn Hvo Hvn.
  rewrite (replace_word_run cfg r w fields old_word new_word Hj Ho Hn Hvo Hvn).
  cbv zeta.
  destruct (write_fault w) as [[]|] eqn:Hwf; try case_bool_decide;
    rewrite ?handle_error_world; done.
Qed.

Lemma replaced_twice (old_word new_word word : string) :
  replaced old_word new_word (replaced old_word new_word word)
  = replaced old_word new_word word.
Proof.
  unfold replaced.
  destruct (decide (matches_old old_word word)) as [Hm | Hm].
  - rewrite (bool_decide_eq_true_2 _ Hm). by case_bool_decide.
  - by rewrite !(bool_decide_eq_false_2 _ Hm).
Qed.

Lemma replaced_no_match (old_word new_word : string) (words : list string) :
  ¬ matches_old old_word new_word ->
  Forall (fun word => ¬ matches_old old_word word)
         (replaced old_word new_word <$> words).
Proof.
  intros Hnew. apply Forall_fmap, Forall_forall. intros word _. simpl.
  unfold replaced. by case_bool_decide.
Qed.

(** X15.  A replacement keeps the length of the corpus and every token
    that does not match, at its index.  Unless the new word itself equals
    the old one up to case, no token matches the old word afterwards, so
    the same request sent again finds nothing ([not_found_in_corpus]); in
    any case sending it again leaves the corpus in memory as the first
    replacement made it. *)
Theorem replace_again (r : request) (w : world) (fields : gmap string value)
    (old_word new_word : string) :
  json r = Some (JObject fields) ->
  fields !! "old_word" = Some (VStr old_word) ->
  fields !! "new_word" = Some (VStr new_word) ->
  validate_input_string (VStr old_word) "old word" = None ->
  validate_input_string (VStr new_word) "new word" = None ->
  let w1 := snd (replace_word cfg r w) in
  length (word_list w1) = length (word_list w)
  ∧ (∀ i word, word_list w !! i = Some word -> ¬ matches_old old_word word ->
       word_list w1 !! i = Some word)
  ∧ (∀ i word, word_list w !! i = Some word -> matches_old old_word word ->
       word_list w1 !! i = Some new_word)
  ∧ word_list (snd (replace_word cfg r w1)) = word_list w1
  ∧ (¬ matches_old old_word new_word ->
     Forall (fun word => ¬ matches_old old_word word) (word_list w1)
     ∧ (write_fault w ≠ Some FileNotFoundError ->
        fst (replace_word cfg r w1)
        = fst (handle_error cfg "not_found_in_corpus" w))).
Proof.
  intros Hj Ho Hn Hvo Hvn w1.
  destruct (replace_word_words r w fields old_word new_word Hj Ho Hn Hvo Hvn)
    as [Hw1 Hwf1].
  fold w1 in Hw1, Hwf1. split_and!.
  - by rewrite Hw1, length_fmap.
  - intros i word Hi Hm. rewrite Hw1, list_lookup_fmap, Hi. simpl.
    unfold replaced. by rewrite bool_decide_eq_false_2.
  - intros i word Hi Hm. rewrite Hw1, list_lookup_fmap, Hi. simpl.
    unfold replaced. by rewrite bool_decide_eq_true_2.
  - destruct (replace_word_words r w1 fields old_word new_word Hj Ho Hn Hvo Hvn)
      as [-> _].
    rewrite Hw1, <- list_fmap_compose. apply list_fmap_ext.
    intros i word _. apply replaced_twice.
  - intros Hnew.
    assert (Forall (fun word => ¬ matches_old old_word word) (word_list w1)) as Hnone
      by (rewrite Hw1; by apply replaced_no_match).
    split; [exact Hnone |]. intros Hfault.
    assert (length (filter (matches_old old_word) (word_list w1)) = 0) as Hzero.
    { clear -Hnone. induction Hnone as [|word words Hword _ IH]; [done |].
      rewrite filter_cons. by destruct (decide (matches_old old_word word)). }
    rewrite (replace_word_run cfg r w1 fields old_word new_word Hj Ho Hn Hvo Hvn).
    cbv zeta. rewrite Hzero, bool_decide_eq_false_2 by lia. rewrite Hwf1.
    destruct (write_fault w) as [[]|]; try done; apply handle_error_fst.
Qed.
End ReplaceAgain.

Lemma replace_again_witness :
  json (post (<["old_word" := VStr "cat"]> {["new_word" := VStr "feline"]}))
  = Some (JObject (<["old_word" := VStr "cat"]> {["new_word" := VStr "feline"]}))
  ∧ validate_input_string (VStr "cat") "old word" = None
  ∧ validate_input_string (VStr "feline") "new word" = None
  ∧ length (word_list (snd (replace_word (sample_config 5)
                              (post (<["old_word" := VStr "cat"]>
                                       {["new_word" := VStr "feline"]}))
                              (disk ["Cat"; "dog"] "Cat dog"))))
    = length (word_list (disk ["Cat"; "dog"] "Cat dog")).
Proof.
  split; [reflexivity |]. split; [reflexivity |]. split; [reflexivity |].
  exact (proj1 (replace_again (sample_config 5)
                  (post (<["old_word" := VStr "cat"]> {["new_word" := VStr "feline"]}))
                  (disk ["Cat"; "dog"] "Cat dog")
                  (<["old_word" := VStr "cat"]> {["new_word" := VStr "feline"]})
                  "cat" "feline" eq_refl eq_refl eq_refl eq_refl eq_refl)).
Defined.

(** ** More on the contexts *)

Lemma str_length (l : text) : String.length (str l) = length l.
Proof. by rewrite <- chars_length, chars_str. Qed.

Lemma trimmed_length (l t : text) : trimmed_of l t -> length t <= length l.
Proof. intros (a & b & -> & _). rewrite !length_app. lia. Qed.

Lemma trimmed_elem (l t : text) (c : ascii) : trimmed_of l t -> c ∈ t -> c ∈ l.
Proof.
  intros (a & b & -> & _) Hc. apply elem_of_app. right.
  apply elem_of_app. by left.
Qed.

Lemma replace_char_gone (old new : ascii) (l : text) :
  old ≠ new -> old ∉ Py.replace_char old new l.
Proof.
  intros Hne Hin. unfold Py.replace_char in Hin.
  apply list_elem_of_fmap in Hin as (c & Heq & _). by case_bool_decide.
Qed.

Lemma slice_length (s : text) (start stop : Z) :
  (0 <= start)%Z -> (0 <= stop)%Z ->
  (Z.of_nat (length (Py.slice s start stop)) <= Z.max 0 (stop - start))%Z.
Proof.
  intros Hs He. unfold Py.slice, Py.slice_bound.
  destruct (Z.ltb_spec start 0); [lia |]. destruct (Z.ltb_spec stop 0); [lia |].
  rewrite length_take, length_drop. lia.
Qed.

Section Shape.
Variable cfg : config.
Variable python_re_search : string -> string -> exn + bool.

Lemma context_at_shape (input_word sentence : string) (idx : nat) :
  (0 <= CONTEXT_SIZE cfg)%Z ->
  context_shape cfg input_word (context_at cfg input_word sentence idx).
Proof.
  intros HR. unfold context_shape, context_at.
  set (raw := Py.slice _ _ _).
  pose proof (strip_chars_trimmed (Py.replace_char "010" " " raw)) as Htrim.
  rewrite str_length, chars_str. split_and!.
  - pose proof (trimmed_length _ _ Htrim) as Hlen.
    assert (length (Py.replace_char "010" " " raw) = length raw) as Hrep
      by apply length_fmap.
    pose proof (slice_length (chars sentence)
                  (Z.max (Z.of_nat idx - CONTEXT_SIZE cfg) 0)
                  (Z.min (Z.of_nat idx + Z.of_nat (String.length input_word)
                          + CONTEXT_SIZE cfg)
                         (Z.of_nat (String.length sentence)))
                  ltac:(lia) ltac:(lia)) as Hs.
    fold raw in Hs. lia.
  - intros Hin. apply (trimmed_elem _ _ _ Htrim) in Hin.
    by apply replace_char_gone in Hin.
  - by destruct Htrim as (a & b & _ & _ & _ & Hs & _).
  - by destruct Htrim as (a & b & _ & _ & _ & _ & Hs).
Qed.

Lemma sentences_loop_shape (input_word : string) (sentences : list string) :
  (0 <= CONTEXT_SIZE cfg)%Z ->
  forall acc found : list string,
    Forall (context_shape cfg input_word) acc ->
    sentences_loop cfg python_re_search input_word acc sentences = inr found ->
    Forall (context_shape cfg input_word) found.
Proof.
  intros HR. induction sentences as [|s sentences IH]; intros acc found Hacc.
  - by intros [= <-].
  - cbn [sentences_loop]. unfold sentence_step.
    destruct (re_search_word python_re_search input_word s) as [|[]]; [done | |].
    + destruct (Py.index _ _) as [idx|]; [| done].
      apply IH. apply Forall_app. split; [done |].
      constructor; [by apply context_at_shape | constructor].
    + by apply IH.
Qed.

(** X16.  With a radius that is not negative, every context a search
    returns, for any word and any state of the disk, is at most the word's
    length plus twice the radius long, holds no newline, and neither
    starts nor ends with whitespace. *)
Theorem contexts_are_windows (word : string) (w : world) :
  (0 <= CONTEXT_SIZE cfg)%Z ->
  Forall (context_shape cfg word) (contexts_for cfg python_re_search word w).
Proof.
  intros HR. unfold contexts_for, find_matching_sentences_for_word.
  destruct (validate_input_string (VStr word) "input word"); [constructor |].
  unfold try_except, bind, as_str, ret, open_read, lift.
  destruct (read_fault w); [constructor |].
  destruct (sentences_loop _ _ _ _ _) as [exc | found] eqn:Hloop; [constructor |].
  cbn. by apply (sentences_loop_shape word
                  (split_sentences (Py.text_mode (file_text w))) HR
                  [] found).
Qed.
End Shape.

Lemma contexts_are_windows_witness :
  (0 <= CONTEXT_SIZE (sample_config 2))%Z
  ∧ Forall (context_shape (sample_config 2) "fox")
      (contexts_for (sample_config 2) no_general_search "fox"
         (disk [] "The quick
fox jumps. A FOX!")).
Proof.
  split; [simpl; lia |].
  apply (contexts_are_windows (sample_config 2) no_general_search "fox").
  simpl. lia.
Defined.

(** ** Which sentences give a context *)

Lemma omap_length_le {A B : Type} (f : A -> option B) (l : list A) :
  length (omap f l) <= length l.
Proof.
  induction l as [|x l IH]; [done |].
  cbn [omap list_omap]. destruct (f x); simpl; lia.
Qed.

Section Which.
Variable cfg : config.
Variable python_re_search : string -> string -> exn + bool.

Lemma word_context_some (input_word sentence : string) :
  is_Some (word_context cfg input_word sentence)
  <-> whole_word_match (chars input_word) (chars sentence).
Proof.
  unfold word_context. rewrite <- search_iff_whole_word.
  destruct (Re.search true _ _) eqn:Hs.
  - split; [done |]. intros _.
    apply search_whole_word, whole_word_occurs in Hs as (i & Hi & _).
    rewrite <- !chars_lower in Hi.
    destruct (index_found _ _ _ Hi) as [j ->]. by eexists.
  - split; [by intros [? ?] | done].
Qed.

(** X17.  On text of code points 0..255: for a valid word without special
    characters and a corpus file that can be read, the answer holds one
    context for each sentence with a case-insensitive whole-word match, in
    the order of the sentences, and nothing for the other sentences; it is
    never longer than the list of sentences.  The sentences are those of
    the file as read in text mode.  When the file cannot be read the
    answer is empty. *)
Theorem one_context_per_matching_sentence (input_word : string) (w : world) :
  validate_input_string (VStr input_word) "input word" = None ->
  plain input_word = true ->
  (read_fault w = None ->
   let sentences := split_sentences (Py.text_mode (file_text w)) in
   let found := contexts_for cfg python_re_search input_word w in
   found = omap (word_context cfg input_word) sentences
   ∧ length found <= length sentences
   ∧ (found = [] <->
      Forall (fun sentence =>
                ¬ whole_word_match (chars input_word) (chars sentence))
             sentences))
  ∧ (∀ sentence, is_Some (word_context cfg input_word sentence)
                 <-> whole_word_match (chars input_word) (chars sentence))
  ∧ (read_fault w ≠ None ->
     contexts_for cfg python_re_search input_word w = []).
Proof.
  intros Hv Hp. split_and!.
  - intros Hrf sentences found.
    assert (found = omap (word_context cfg input_word) sentences) as Hfound.
    { subst found. unfold contexts_for.
      by rewrite find_matching_sentences_for_word_plain. }
    split; [exact Hfound |]. rewrite Hfound. split; [apply omap_length_le |].
    clear. induction sentences as [|s sentences IH]; [by split |].
    cbn [omap list_omap]. rewrite Forall_cons, <- IH, <- word_context_some.
    destruct (word_context cfg input_word s) as [c|].
    + split; [done |]. intros [Hn _]. by destruct Hn.
    + split; [| by intros [_ ?]]. intros Hnil. split; [by intros [? ?] | done].
  - apply word_context_some.
  - intros Hrf. unfold contexts_for, find_matching_sentences_for_word.
    rewrite Hv. unfold try_except, bind, as_str, ret, open_read.
    by destruct (read_fault w).
Qed.

Lemma sentence_step_fails (input_word sentence : string) (acc : list string) :
  search_fails python_re_search input_word sentence ->
  ∃ exc, sentence_step cfg python_re_search input_word acc sentence = inl exc.
Proof.
  unfold sentence_step. intros [[exc ->] | [-> ->]]; eauto.
Qed.

Lemma sentences_loop_fails (input_word : string) (sentences : list string) :
  Exists (search_fails python_re_search input_word) sentences ->
  forall acc, ∃ exc,
    sentences_loop cfg python_re_search input_word acc sentences = inl exc.
Proof.
  induction sentences as [|s sentences IH]; intros Hex acc;
    [by apply Exists_nil in Hex |].
  cbn [sentences_loop].
  destruct (sentence_step cfg python_re_search input_word acc s) as [exc | acc']
    eqn:Hstep; [eauto |].
  apply Exists_cons in Hex as [Hs | Hex]; [| by apply IH].
  destruct (sentence_step_fails _ _ acc Hs) as [exc Hexc]. congruence.
Qed.

(** X18.  One sentence on which the search breaks off empties the whole
    answer: the exception is caught for the call as a whole, and the
    contexts already gathered from earlier sentences are dropped with it,
    so both searches answer as if no sentence held the word. *)
Theorem failing_sentence_empties_answer (input_word : string) (w : world) :
  validate_input_string (VStr input_word) "input word" = None ->
  Exists (search_fails python_re_search input_word)
         (split_sentences (Py.text_mode (file_text w))) ->
  find_matching_sentences_for_word cfg python_re_search (VStr input_word) w
  = (inr [], log (EvRead (CORPUS_FILE_PATH cfg)) w)
  ∧ (∀ r, args_get r "input" = VStr input_word ->
       fst (find_matching_sentences cfg python_re_search r w)
       = inr (JsonMatching [], 200%Z)).
Proof.
  intros Hv Hex.
  assert (find_matching_sentences_for_word cfg python_re_search
            (VStr input_word) w
          = (inr [], log (EvRead (CORPUS_FILE_PATH cfg)) w)) as Hrun.
  { unfold find_matching_sentences_for_word. rewrite Hv.
    unfold try_except, bind, as_str, ret, open_read, lift.
    destruct (read_fault w); [done |].
    by destruct (sentences_loop_fails _ _ Hex []) as [exc ->]. }
  split; [exact Hrun |].
  intros r Hget. unfold find_matching_sentences. rewrite Hget.
  unfold try_except, bind. by rewrite Hrun.
Qed.
End Which.

Lemma one_context_per_matching_sentence_witness :
  validate_input_string (VStr "fox") "input word" = None
  ∧ plain "fox" = true
  ∧ (is_Some (word_context (sample_config 5) "fox" "A Fox.")
     <-> whole_word_match (chars "fox") (chars "A Fox.")).
Proof.
  split; [reflexivity |]. split; [reflexivity |].
  exact (proj1 (proj2 (one_context_per_matching_sentence (sample_config 5)
                  no_general_search "fox" (disk [] "A Fox.") eq_refl eq_refl))
           "A Fox.").
Defined.

Lemma failing_sentence_witness :
  validate_input_string (VStr "f.x") "input word" = None
  ∧ Exists (search_fails always_matches "f.x")
           (split_sentences
              (Py.text_mode (file_text (disk [] "Say f.x now. A fox."))))
  ∧ fst (find_matching_sentences_for_word (sample_config 5) always_matches
           (VStr "f.x") (disk [] "Say f.x now. A fox."))
    = inr [].
Proof.
  assert (Exists (search_fails always_matches "f.x")
            (split_sentences
               (Py.text_mode (file_text (disk [] "Say f.x now. A fox.")))))
    as Hex.
  { assert (split_sentences
              (Py.text_mode (file_text (disk [] "Say f.x now. A fox.")))
            = ["Say f.x now."; "A fox."]) as -> by (by vm_compute).
    apply Exists_cons_tl, Exists_cons_hd. right. by vm_compute. }
  split; [reflexivity |]. split; [exact Hex |].
  exact (f_equal fst (proj1 (failing_sentence_empties_answer (sample_config 5)
                               always_matches "f.x"
                               (disk [] "Say f.x now. A fox.") eq_refl Hex))).
Defined.

(** ** The two searches and the lookup *)

Section Searches.
Variable cfg : config.
Variable python_re_search : string -> string -> exn + bool.
Variable custom_vocab : gset string.
Variable find_most_similar_words :
  string -> gset string -> list string -> exn + list string.

(** X19.  For a parameter without a comma the two searches are the same:
    [find_similar_sentences] with [similar_words=s] gives the answer, and
    makes the reads, of [find_matching_sentences] with [input=s]. *)
Theorem single_word_searches_agree (r_similar r_matching : request)
    (s : string) (w : world) :
  args_get r_similar "similar_words" = VStr s ->
  args_get r_matching "input" = VStr s ->
  ","%char ∉ chars s ->
  find_similar_sentences cfg python_re_search r_similar w
  = find_matching_sentences cfg python_re_search r_matching w.
Proof.
  intros Hsim Hmat Hcomma. unfold find_similar_sentences, find_matching_sentences.
  rewrite Hsim, Hmat, (split_no_separator _ _ Hcomma).
  cbn [take extend_loop]. unfold try_except, bind, ret.
  by destruct (find_matching_sentences_for_word _ _ _ w) as [[exc | found] w'].
Qed.

(** X20.  For a valid query [similar_words] makes one lookup, with the
    query, the vocabulary and the corpus as it is in memory at that moment
    (not as the file has it).  What the lookup returns is the answer; what
    it raises is answered with 'internal_error'. *)
Theorem similar_words_lookup (r : request) (w : world) (query_word : string) :
  args_get r "w" = VStr query_word ->
  validate_input_string (VStr query_word) "query_word" = None ->
  let out := get_similar_words cfg custom_vocab find_most_similar_words r w in
  snd out = log (EvSimilar query_word) w
  ∧ match find_most_similar_words query_word custom_vocab (word_list w) with
    | inr similar_words =>
        fst out = inr (JsonSimilar query_word similar_words, 200%Z)
    | inl exc =>
        fst out = fst (handle_error cfg "internal_error" w)
    end.
Proof.
  intros Hget Hv out. subst out. unfold get_similar_words.
  rewrite Hget, Hv.
  unfold try_except, bind, as_str, ret, get_word_list.
  destruct (find_most_similar_words query_word custom_vocab (word_list w)).
  - rewrite handle_error_world. split; [done | apply handle_error_fst].
  - done.
Qed.
End Searches.

Lemma single_word_searches_agree_witness :
  args_get (query "similar_words" "fox") "similar_words" = VStr "fox"
  ∧ args_get (query "input" "fox") "input" = VStr "fox"
  ∧ (","%char ∉ chars "fox")
  ∧ find_similar_sentences (sample_config 5) no_general_search
      (query "similar_words" "fox") (disk [] "A fox.")
    = find_matching_sentences (sample_config 5) no_general_search
        (query "input" "fox") (disk [] "A fox.").
Proof.
  assert (","%char ∉ chars "fox") as Hc.
  { intros Hin. apply list_elem_of_In in Hin. simpl in Hin.
    repeat (destruct Hin as [Hin | Hin]; [discriminate Hin |]). exact Hin. }
  split; [reflexivity |]. split; [reflexivity |]. split; [exact Hc |].
  exact (single_word_searches_agree (sample_config 5) no_general_search
           (query "similar_words" "fox") (query "input" "fox") "fox"
           (disk [] "A fox.") eq_refl eq_refl Hc).
Defined.

Lemma similar_words_lookup_witness :
  args_get (query "w" "fox") "w" = VStr "fox"
  ∧ validate_input_string (VStr "fox") "query_word" = None
  ∧ snd (get_similar_words (sample_config 5) ∅ no_similarity (query "w" "fox")
           (disk ["a"] "a"))
    = log (EvSimilar "fox") (disk ["a"] "a").
Proof.
  split; [reflexivity |]. split; [reflexivity |].
  exact (proj1 (similar_words_lookup (sample_config 5) ∅ no_similarity
                  (query "w" "fox") (disk ["a"] "a") "fox" eq_refl eq_refl)).
Defined.

(** ** More on the sentences *)

Lemma segmented_pieces (s : text) (segs : list text) :
  segmented s segs ->
  segs ≠ []
  ∧ Forall (fun seg => ∃ before after, s = before ++ seg ++ after) segs
  ∧ Forall (fun seg => has_split_point seg = false) segs.
Proof.
  induction 1 as [s Hs | s1 ws rest segs Hs1 He1 Hne Hws Hrest Hseg (_ & IH1 & IH2)].
  - split; [done |]. split; constructor; try constructor; [| done].
    exists [], []. by rewrite app_nil_r.
  - split; [done |]. split; constructor; try done.
    + by exists [], (ws ++ rest).
    + eapply Forall_impl; [exact IH1 |]. simpl.
      intros seg (before & after & ->). exists (s1 ++ ws ++ before), after.
      by rewrite <- !app_assoc.
Qed.

(** X21.  The segmenter always gives at least one sentence; every
    sentence is a stretch of the text, cut out as it stands, and holds no
    terminal mark followed by whitespace; and the text comes back as one
    sentence, itself, exactly when it holds no such point. *)
Theorem sentences_are_stretches (hemingway : string) :
  split_sentences hemingway ≠ []
  ∧ Forall (fun sentence =>
              (∃ before after,
                 chars hemingway = before ++ chars sentence ++ after)
              ∧ has_split_point (chars sentence) = false)
           (split_sentences hemingway)
  ∧ (split_sentences hemingway = [hemingway]
     <-> has_split_point (chars hemingway) = false).
Proof.
  pose proof (split_sentences_segmented (chars hemingway)) as Hseg.
  destruct (segmented_pieces _ _ Hseg) as (Hne & Hsub & Hno).
  unfold split_sentences. split_and!.
  - intros Hnil. apply fmap_nil_inv in Hnil. done.
  - apply Forall_fmap, Forall_forall. intros seg Hin. simpl. rewrite chars_str.
    split.
    + by apply (proj1 (Forall_forall _ _) Hsub).
    + by apply (proj1 (Forall_forall _ _) Hno).
  - split.
    + intros Heq. apply (f_equal (fmap chars)) in Heq.
      rewrite fmap_chars_str in Heq. simpl in Heq. rewrite Heq in Hno.
      by apply Forall_inv in Hno.
    + intros Hs.
      rewrite (segmented_unique _ _ [chars hemingway] Hseg) by (by constructor).
      simpl. by rewrite str_chars.
Qed.

(** ** Searching after a mutation *)

Lemma word_not_space (c : ascii) :
  Char.is_word c = true -> Char.is_space c = false.
Proof. destruct c as [[] [] [] [] [] [] [] []]; simpl; done. Qed.

Lemma word_not_special (c : ascii) :
  Char.is_word c = true -> Char.is_special c = false.
Proof. destruct c as [[] [] [] [] [] [] [] []]; simpl; done. Qed.

Lemma word_chars_valid (word field_name : string) :
  word ≠ "" -> Forall (fun c => Char.is_word c = true) (chars word) ->
  validate_input_string (VStr word) field_name = None ∧ plain word = true.
Proof.
  intros Hne Hword. split.
  - apply validate_str. destruct word as [|c word]; [done |].
    apply Forall_cons in Hword as [Hc _]. apply Exists_cons_hd.
    by apply word_not_space.
  - unfold plain. apply forallb_forall. intros c Hin.
    apply list_elem_of_In in Hin. apply (proj1 (Forall_forall _ _) Hword) in Hin.
    by rewrite (word_not_special c Hin).
Qed.

(** Reading in text mode leaves text without a carriage return as it is,
    and works piece by piece where the second piece does not start with
    a line feed. *)
Lemma universal_newlines_plain (l : text) :
  "013"%char ∉ l -> Py.universal_newlines l = l.
Proof.
  induction l as [|c l IH]; [done |]. intros Hl.
  apply not_elem_of_cons in Hl as [Hc Hl]. cbn [Py.universal_newlines].
  rewrite bool_decide_eq_false_2 by done. by rewrite IH.
Qed.

Lemma universal_newlines_app (n : nat) :
  forall a b : text,
    length a <= n -> head b ≠ Some "010"%char ->
    Py.universal_newlines (a ++ b)
    = Py.universal_newlines a ++ Py.universal_newlines b.
Proof.
  induction n as [|n IH]; intros a b Hlen Hb.
  { destruct a; [done | simpl in Hlen; lia]. }
  destruct a as [|c a]; [done |]. simpl in Hlen.
  cbn [app Py.universal_newlines]. case_bool_decide as Hc.
  - destruct a as [|d a].
    + cbn [app]. destruct b as [|d b]; [done |].
      rewrite bool_decide_eq_false_2 by (intros ->; by apply Hb). done.
    + simpl in Hlen. cbn [app]. case_bool_decide as Hd.
      * rewrite (IH a b) by (done || lia). done.
      * change (d :: a ++ b) with ((d :: a) ++ b).
        rewrite (IH (d :: a) b) by (done || simpl; lia). done.
  - rewrite (IH a b) by (done || lia). done.
Qed.

Lemma word_no_carriage_return (word : text) :
  Forall (fun c => Char.is_word c = true) word -> "013"%char ∉ word.
Proof.
  intros Hword Hin. by apply (proj1 (Forall_forall _ _) Hword) in Hin.
Qed.

Lemma chars_join_snoc (words : list string) (word : string) :
  ∃ before, chars (Py.join " " (words ++ [word])) = before ++ chars word
            ∧ (before = [] ∨ ∃ before', before = before' ++ [" "%char]).
Proof.
  induction words as [|word' words (before & IH & Hlast)].
  - exists []. change ([] ++ [word]) with [word].
    rewrite chars_join_cons, app_nil_r. split; [done | by left].
  - exists (chars word' ++ " "%char :: before).
    change ((word' :: words) ++ [word]) with (word' :: (words ++ [word])).
    rewrite chars_join_cons, IH.
    destruct (words ++ [word]) eqn:Hw; [by destruct words |].
    split; [by rewrite <- app_assoc |]. right.
    destruct Hlast as [-> | (before' & ->)].
    + by exists (chars word').
    + exists (chars word' ++ " "%char :: before'). by rewrite <- app_assoc.
Qed.

(** The saved file, read back, ends with the word added last, and the
    word starts at a word boundary. *)
Lemma read_join_snoc (words : list string) (word : string) :
  Forall (fun c => Char.is_word c = true) (chars word) ->
  ∃ before, chars (Py.text_mode (Py.join " " (words ++ [word])))
            = before ++ chars word
            ∧ Re.wordish (last before) = false.
Proof.
  intros Hword. unfold Py.text_mode. rewrite chars_str.
  pose proof (word_no_carriage_return _ Hword) as Hcr.
  destruct (chars_join_snoc words word) as (before & -> & [-> | (before' & ->)]).
  - exists []. by rewrite universal_newlines_plain.
  - exists (Py.universal_newlines before' ++ [" "%char]).
    rewrite <- !app_assoc. cbn [app].
    rewrite (universal_newlines_app (length before')) by done.
    rewrite (universal_newlines_plain (" "%char :: chars word)).
    + split; [done |]. by rewrite last_snoc.
    + apply not_elem_of_cons. by split.
Qed.

(** The last sentence of a text that ends with a word ends with that word,
    and starts it at a word boundary. *)
Lemma segmented_last_piece (t : text) (segs : list text) :
  segmented t segs ->
  forall before word : text,
    t = before ++ word -> word ≠ [] ->
    Forall (fun c => Char.is_word c = true) word ->
    Re.wordish (last before) = false ->
    ∃ x, last segs = Some (x ++ word) ∧ Re.wordish (last x) = false.
Proof.
  induction 1 as [s Hs | s1 ws rest segs Hs1 He1 Hne Hws Hrest Hseg IH];
    intros before word Ht Hword Hall Hbefore.
  - exists before. split; [by rewrite Ht | done].
  - rewrite app_assoc in Ht.
    assert (∃ k, rest = k ++ word ∧ Re.wordish (last k) = false) as (k & Hk & Hlast).
    { apply app_eq_inv in Ht as [(k & Hsw & Hk) | (k & Hb & Hk)].
      2: { exists k. split; [done |]. subst before.
           rewrite last_app in Hbefore. by destruct (last k). }
      destruct k as [|c k].
      { exists []. simpl in Hk. by subst word. }
        exfalso.
        assert (∃ d, last (c :: k) = Some d) as [d Hd]
          by (destruct (last (c :: k)) eqn:E; [eauto | by apply last_None in E]).
        assert (last (s1 ++ ws) = Some d) as Hd'
          by (rewrite Hsw, last_app, Hd; done).
        rewrite last_app in Hd'.
        destruct (last ws) as [d'|] eqn:Hws'; [| by apply last_None in Hws'].
        injection Hd' as ->.
        apply last_Some_elem_of in Hws', Hd.
        apply (proj1 (Forall_forall _ _) Hws) in Hws'.
        assert (d ∈ word) as Hin by (rewrite Hk; apply elem_of_app; by left).
      apply (proj1 (Forall_forall _ _) Hall), word_not_space in Hin.
      congruence. }
    destruct (IH k word Hk Hword Hall Hlast) as (x & Hx & Hxl).
    exists x. split; [| done].
    destruct segs as [|seg segs]; [done |]. by rewrite last_cons_cons.
Qed.

Lemma word_in_last_piece (x word : text) :
  word ≠ [] -> Forall (fun c => Char.is_word c = true) word ->
  Re.wordish (last x) = false ->
  whole_word_match word (x ++ word).
Proof.
  intros Hne Hall Hx. exists x, word, []. rewrite app_nil_r.
  split; [done |]. split; [done |].
  destruct word as [|c word]; [done |].
  pose proof (Forall_inv Hall) as Hc. split.
  - unfold Re.at_boundary. rewrite Hx. simpl. by rewrite Hc.
  - unfold Re.at_boundary. rewrite last_app.
    destruct (last (c :: word)) as [d|] eqn:Hd; [| by apply last_None in Hd].
    apply last_Some_elem_of in Hd.
    apply (proj1 (Forall_forall _ _) Hall) in Hd. simpl. by rewrite Hd.
Qed.

Lemma omap_last_some {A B : Type} (f : A -> option B) (l : list A) (x : A) :
  last l = Some x -> is_Some (f x) -> omap f l ≠ [].
Proof.
  intros Hlast [y Hy]. apply last_Some in Hlast as [l' ->].
  rewrite omap_app. cbn [omap list_omap]. rewrite Hy.
  intros Hnil. by apply app_nil in Hnil as [_ ?].
Qed.

Section AfterMutation.
Variable cfg : config.
Variable python_re_search : string -> string -> exn + bool.

(** X22.  On text of code points 0..255 and a disk that can be written
    and read, a word made of word characters is found right after it was
    added: the search for it gives at least one context, whatever the
    corpus held before.  (The word is the end of the saved file, hence of
    its last sentence.) *)
Theorem added_word_is_found (r_add r_search : request) (w : world)
    (fields : gmap string value) (new_word : string) :
  json r_add = Some (JObject fields) ->
  fields !! "word" = Some (VStr new_word) ->
  new_word ≠ "" ->
  Forall (fun c => Char.is_word c = true) (chars new_word) ->
  write_fault w = None -> read_fault w = None ->
  args_get r_search "input" = VStr new_word ->
  ∃ found,
    fst (find_matching_sentences cfg python_re_search r_search
           (snd (add_word cfg r_add w)))
    = inr (JsonMatching found, 200%Z)
    ∧ found ≠ [].
Proof.
  intros Hj Hf Hne Hword Hwf Hrf Hget.
  destruct (word_chars_valid new_word "new word" Hne Hword) as [Hv Hp].
  destruct (word_chars_valid new_word "input word" Hne Hword) as [Hv' _].
  rewrite (add_word_run cfg r_add w fields new_word Hj Hf Hv). cbv zeta.
  rewrite Hwf. cbn [snd]. unfold find_matching_sentences. rewrite Hget.
  unfold try_except, bind.
  rewrite find_matching_sentences_for_word_plain by done.
  cbn [file_text set_file_text ret fst]. eexists. split; [reflexivity |].
  destruct (read_join_snoc (word_list w) new_word Hword)
    as (before & Hjoin & Hlast).
  assert (chars new_word ≠ []) as Hne'.
  { intros Hnil. apply Hne. by rewrite <- (str_chars new_word), Hnil. }
  pose proof (split_sentences_segmented
                (chars (Py.text_mode (Py.join " " (word_list w ++ [new_word])))))
    as Hseg.
  destruct (segmented_last_piece _ _ Hseg before (chars new_word) Hjoin Hne'
              Hword Hlast) as (x & Hx & Hxl).
  unfold split_sentences.
  apply (omap_last_some _ _ (str (x ++ chars new_word))).
  - by rewrite fmap_last, Hx.
  - apply word_context_some. rewrite chars_str.
    by apply word_in_last_piece.
Qed.

Lemma find_matching_sentences_same_disk (r : request) (w w' : world) :
  same_disk w w' ->
  fst (find_matching_sentences cfg python_re_search r w)
  = fst (find_matching_sentences cfg python_re_search r w').
Proof.
  intros [Htext Hfault]. unfold find_matching_sentences.
  unfold try_except, bind, find_matching_sentences_for_word.
  destruct (validate_input_string (args_get r "input") "input word"); [done |].
  unfold try_except, bind, as_str, ret, raise, open_read, lift.
  destruct (args_get r "input"); try done.
  rewrite <- Hfault, <- Htext. destruct (read_fault w); [done |].
  by destruct (sentences_loop _ _ _ _ _).
Qed.

(** X23.  The sentence search reads the corpus file and nothing else: two
    states with the same file give the same answer, whatever the corpus in
    memory is.  So while the corpus file cannot be opened for writing, a
    mutation request, whichever it is, does not change what
    [find_matching_sentences] answers, although it may have changed the
    corpus in memory. *)
Theorem search_sees_the_file_only (r : request) (w : world) :
  (∀ w', same_disk w w' ->
     fst (find_matching_sentences cfg python_re_search r w)
     = fst (find_matching_sentences cfg python_re_search r w'))
  ∧ (write_fault w ≠ None ->
     ∀ r_mut,
       fst (find_matching_sentences cfg python_re_search r
              (snd (add_word cfg r_mut w)))
       = fst (find_matching_sentences cfg python_re_search r w)
       ∧ fst (find_matching_sentences cfg python_re_search r
                (snd (remove_similar_word cfg r_mut w)))
         = fst (find_matching_sentences cfg python_re_search r w)
       ∧ fst (find_matching_sentences cfg python_re_search r
                (snd (replace_word cfg r_mut w)))
         = fst (find_matching_sentences cfg python_re_search r w)).
Proof.
  split; [intros w'; apply find_matching_sentences_same_disk |].
  intros Hwf r_mut.
  assert (same_disk w w) as Hrefl by done.
  split_and!; symmetry; apply find_matching_sentences_same_disk.
  - destruct (add_word_cases cfg r_mut w)
      as [-> | (fields & new_word & Hj & Hf & Hv)]; [done |].
    rewrite (add_word_run cfg r_mut w fields new_word Hj Hf Hv). cbv zeta.
    destruct (write_fault w) as [[]|]; rewrite ?handle_error_world; done.
  - destruct (remove_similar_word_cases cfg r_mut w)
      as [-> | (target_word & Hget & Hv)]; [done |].
    rewrite (remove_similar_word_run cfg r_mut w target_word Hget Hv). cbv zeta.
    case_bool_decide; [| done].
    destruct (write_fault w) as [[]|]; rewrite ?handle_error_world; done.
  - destruct (replace_word_cases cfg r_mut w)
      as [-> | (fields & old_word & new_word & Hj & Ho & Hn & Hvo & Hvn)];
      [done |].
    rewrite (replace_word_run cfg r_mut w fields old_word new_word Hj Ho Hn Hvo Hvn).
    cbv zeta.
    destruct (write_fault w) as [[]|]; try case_bool_decide;
      rewrite ?handle_error_world; done.
Qed.
End AfterMutation.

Lemma added_word_is_found_witness :
  json (post {["word" := VStr "lighthouse"]})
  = Some (JObject {["word" := VStr "lighthouse"]})
  ∧ "lighthouse" ≠ ""
  ∧ Forall (fun c => Char.is_word c = true) (chars "lighthouse")
  ∧ args_get (query "input" "lighthouse") "input" = VStr "lighthouse"
  ∧ ∃ found,
      fst (find_matching_sentences (sample_config 5) no_general_search
             (query "input" "lighthouse")
             (snd (add_word (sample_config 5)
                     (post {["word" := VStr "lighthouse"]})
                     (disk ["To"; "the"; "."] "To the."))))
      = inr (JsonMatching found, 200%Z)
      ∧ found ≠ [].
Proof.
  assert ("lighthouse" ≠ "") as Hne by discriminate.
  assert (Forall (fun c => Char.is_word c = true) (chars "lighthouse")) as Hw
    by (repeat constructor).
  split; [reflexivity |]. split; [exact Hne |]. split; [exact Hw |].
  split; [reflexivity |].
  exact (added_word_is_found (sample_config 5) no_general_search
           (post {["word" := VStr "lighthouse"]}) (query "input" "lighthouse")
           (disk ["To"; "the"; "."] "To the.") {["word" := VStr "lighthouse"]}
           "lighthouse" eq_refl eq_refl Hne Hw eq_refl eq_refl eq_refl).
Defined.

(** ** The word inside its context *)

Lemma lower_word (c : ascii) : Char.is_word (Char.lower c) = Char.is_word c.
Proof. destruct c as [[] [] [] [] [] [] [] []]; reflexivity. Qed.

(** A stretch that reads as a word of word characters up to case is made
    of word characters. *)
Lemma occurrence_word_chars (occ word : text) :
  Char.lower <$> occ = Char.lower <$> word ->
  Forall (fun c => Char.is_word c = true) word ->
  Forall (fun c => Char.is_word c = true) occ.
Proof.
  revert word. induction occ as [|c occ IH]; intros [|d word] Heq Hword;
    try done.
  injection Heq as Hc Heq. apply Forall_cons in Hword as [Hd Hword].
  constructor; [| by eapply IH].
  by rewrite <- lower_word, Hc, lower_word.
Qed.

Lemma drop_while_keeps (p : ascii -> bool) (a occ b : text) :
  (match occ with c :: _ => p c = false | [] => False end) ->
  ∃ a', Py.drop_while p (a ++ occ ++ b) = a' ++ occ ++ b.
Proof.
  intros Hocc. induction a as [|c a [a' IH]].
  - exists []. destruct occ as [|d occ]; [done |]. simpl. by rewrite Hocc.
  - cbn [app Py.drop_while]. destruct (p c).
    + by exists a'.
    + by exists (c :: a).
Qed.

(** Trimming keeps a stretch without whitespace. *)
Lemma strip_chars_keeps (a occ b : text) :
  occ ≠ [] -> Forall (fun c => Char.is_space c = false) occ ->
  ∃ a' b', Py.strip_chars (a ++ occ ++ b) = a' ++ occ ++ b'.
Proof.
  intros Hne Hocc. unfold Py.strip_chars.
  destruct (drop_while_keeps Char.is_space a occ b) as [a' ->].
  { destruct occ as [|c occ]; [done |]. by apply Forall_inv in Hocc. }
  rewrite !rev_app_distr, <- app_assoc.
  destruct (drop_while_keeps Char.is_space (rev b) (rev occ) (rev a')) as [b' ->].
  { destruct (rev occ) as [|c l] eqn:Hrev.
    - apply (f_equal (@length ascii)) in Hrev. rewrite length_rev in Hrev.
      by destruct occ.
    - assert (c ∈ occ) as Hin.
      { apply list_elem_of_In, in_rev. rewrite Hrev. by left. }
      by apply (proj1 (Forall_forall _ _) Hocc) in Hin. }
  exists a', (rev b'). by rewrite !rev_app_distr, !rev_involutive, <- app_assoc.
Qed.

Lemma replace_char_keeps (old new : ascii) (a occ b : text) :
  old ∉ occ ->
  ∃ a' b', Py.replace_char old new (a ++ occ ++ b) = a' ++ occ ++ b'.
Proof.
  intros Hold. unfold Py.replace_char. rewrite !fmap_app.
  eexists _, _. f_equal. f_equal.
  induction occ as [|c occ IH]; [done |].
  apply not_elem_of_cons in Hold as [Hc Hold].
  cbn [fmap list_fmap]. rewrite bool_decide_eq_false_2 by done.
  f_equal. by apply IH.
Qed.

Lemma slice_keeps (s : text) (start stop : Z) (idx n : nat) :
  (0 <= start <= Z.of_nat idx)%Z ->
  (Z.of_nat (idx + n) <= stop)%Z ->
  idx + n <= length s ->
  ∃ a b, Py.slice s start stop = a ++ take n (drop idx s) ++ b.
Proof.
  intros Hstart Hstop Hlen. unfold Py.slice, Py.slice_bound.
  destruct (Z.ltb_spec start 0); [lia |]. destruct (Z.ltb_spec stop 0); [lia |].
  rewrite (Z.min_l start) by lia.
  set (lo := Z.to_nat start).
  set (len := Z.to_nat (Z.min stop (Z.of_nat (length s)) - start)).
  assert (lo <= idx) as Hlo by (subst lo; lia).
  assert (idx + n <= lo + len) as Hhi by (subst lo len; lia).
  exists (take (idx - lo) (drop lo s)),
         (take (lo + len - (idx + n)) (drop (idx + n) s)).
  replace len with ((idx - lo) + (n + (lo + len - (idx + n)))) at 1 by lia.
  rewrite <- (take_take_drop (drop lo s) (idx - lo)), drop_drop.
  replace (lo + (idx - lo)) with idx by lia.
  rewrite <- (take_take_drop (drop idx s) n), drop_drop. done.
Qed.

Lemma Forall_omap {A B : Type} (f : A -> option B) (P : B -> Prop) (l : list A) :
  (∀ x y, f x = Some y -> P y) -> Forall P (omap f l).
Proof.
  intros Hf. induction l as [|x l IH]; [constructor |].
  cbn [omap list_omap]. destruct (f x) eqn:Hx; [| done].
  constructor; [by eapply Hf | done].
Qed.

Section Holds.
Variable cfg : config.
Variable python_re_search : string -> string -> exn + bool.

Lemma context_at_holds (input_word sentence : string) (idx : nat) :
  input_word ≠ "" ->
  Forall (fun c => Char.is_word c = true) (chars input_word) ->
  (0 <= CONTEXT_SIZE cfg)%Z ->
  Py.index (chars (Py.lower input_word)) (chars (Py.lower sentence)) = Some idx ->
  ∃ a occ b,
    chars (context_at cfg input_word sentence idx) = a ++ occ ++ b
    ∧ Char.lower <$> occ = Char.lower <$> chars input_word.
Proof.
  intros Hne Hword HR Hidx.
  apply index_first in Hidx as [Hocc _].
  pose proof (occurs_at_bound _ _ _ Hocc) as Hbound.
  destruct Hocc as [_ [k Hk]].
  rewrite !chars_lower in Hk, Hbound. rewrite !length_fmap in Hbound.
  set (n := length (chars input_word)) in *.
  set (occ := take n (drop idx (chars sentence))).
  assert (Char.lower <$> occ = Char.lower <$> chars input_word) as Hlow.
  { subst occ. rewrite fmap_take, fmap_drop, Hk.
    rewrite take_app_length'; [done |]. by rewrite length_fmap. }
  assert (Forall (fun c => Char.is_word c = true) occ) as Hoccw
    by (by eapply occurrence_word_chars).
  assert (occ ≠ []) as Hoccne.
  { intros Hnil. rewrite Hnil in Hlow. symmetry in Hlow.
    apply fmap_nil_inv in Hlow. apply Hne.
    by rewrite <- (str_chars input_word), Hlow. }
  unfold context_at. rewrite chars_str, <- !chars_length. fold n.
  destruct (slice_keeps (chars sentence)
              (Z.max (Z.of_nat idx - CONTEXT_SIZE cfg) 0)
              (Z.min (Z.of_nat idx + Z.of_nat n + CONTEXT_SIZE cfg)
                     (Z.of_nat (length (chars sentence)))) idx n)
    as (a & b & ->); [lia | lia | lia |].
  fold occ.
  destruct (replace_char_keeps "010" " " a occ b) as (a1 & b1 & ->).
  { intros Hin. by apply (proj1 (Forall_forall _ _) Hoccw) in Hin. }
  destruct (strip_chars_keeps a1 occ b1 Hoccne) as (a2 & b2 & ->).
  { eapply Forall_impl; [exact Hoccw |]. apply word_not_space. }
  by exists a2, occ, b2.
Qed.

(** X24.  On text of code points 0..255 and with a radius that is not
    negative, every context found for a word made of word characters
    holds the word itself, up to case: the window is cut around an
    occurrence, and neither the newline replacement nor the trimming can
    touch it. *)
Theorem context_holds_the_word (word : string) (w : world) :
  word ≠ "" ->
  Forall (fun c => Char.is_word c = true) (chars word) ->
  (0 <= CONTEXT_SIZE cfg)%Z ->
  Forall (fun context =>
            ∃ a occ b, chars context = a ++ occ ++ b
                       ∧ Char.lower <$> occ = Char.lower <$> chars word)
         (contexts_for cfg python_re_search word w).
Proof.
  intros Hne Hword HR.
  destruct (word_chars_valid word "input word" Hne Hword) as [Hv Hp].
  destruct (read_fault w) as [e|] eqn:Hrf.
  { unfold contexts_for, find_matching_sentences_for_word. rewrite Hv.
    unfold try_except, bind, as_str, ret, open_read. rewrite Hrf. constructor. }
  unfold contexts_for.
  rewrite find_matching_sentences_for_word_plain by done. cbn [fst].
  apply Forall_omap. intros sentence context. unfold word_context.
  destruct (Re.search true _ _); [| done].
  destruct (Py.index _ _) as [idx|] eqn:Hidx; [| done].
  intros [= <-]. by apply context_at_holds.
Qed.
End Holds.

Lemma context_holds_the_word_witness :
  "fox" ≠ ""
  ∧ Forall (fun c => Char.is_word c = true) (chars "fox")
  ∧ (0 <= CONTEXT_SIZE (sample_config 0))%Z
  ∧ Forall (fun context =>
              ∃ a occ b, chars context = a ++ occ ++ b
                         ∧ Char.lower <$> occ = Char.lower <$> chars "fox")
           (contexts_for (sample_config 0) no_general_search "fox"
              (disk [] "A FOX ran. Foxes too.")).
Proof.
  assert ("fox" ≠ "") as Hne by discriminate.
  assert (Forall (fun c => Char.is_word c = true) (chars "fox")) as Hw
    by (repeat constructor).
  split; [exact Hne |]. split; [exact Hw |]. split; [simpl; lia |].
  apply (context_holds_the_word (sample_config 0) no_general_search "fox"
           (disk [] "A FOX ran. Foxes too.") Hne Hw).
  simpl. lia.
Defined.
